(** * project-bundler: the file classification and traversal pipeline of main.go

    A shallow embedding of [main.go]: the preset tables, [newStringSet],
    [mergeMaps], [detectProjectType], [isBinaryFile], the callback handed to
    [filepath.WalkDir] and the part of [main] that resolves the configuration
    and runs the walk.

    The operating system is modelled explicitly:
    - the file tree below [-src] is a [node]; every file carries its bytes and
      the errors the system calls on it produce;
    - a path handed to the callback is [filepath.Join(srcDir, n1, ..., nk)]; it
      is represented by the components [n1 .. nk] below [srcDir], the root
      itself being [[]];
    - the state threaded through the walk holds the skip ledger
      ([skippedFiles]), the buffered writer and a trace of the system calls,
      log lines and completed records, in program order. *)

From Stdlib Require Import Strings.String Strings.Ascii Strings.Byte.
From Stdlib Require Import Lists.List Sorting.Permutation.
From stdpp Require Import base gmap strings list fin_maps sorting.

Open Scope string_scope.
Open Scope list_scope.

Set Warnings "-register-all".

(** ** Errors *)

Inductive errno := ENOENT | EACCES | EIO | EISDIR | ENOSPC.

(** Go [error] values: the sentinels [filepath.SkipDir], [filepath.SkipAll]
    and [io.EOF], the [*fs.PathError] of a failed system call, the error of a
    failed write, and the run-time panic of a nil [fs.DirEntry]. *)
Inductive error :=
| SkipDir
| SkipAll
| EOF
| PathError (op : string) (p : list string) (e : errno)
| WriteError (e : errno)
| NilDeref.

(** ** Paths *)

Definition path := list string.

(** [filepath.Join(path, d1.Name())] inside [walkDir]. *)
Definition Join (p : path) (name : string) : path := p ++ [name].

(** [filepath.Rel(srcDir, path)] for a path of the walk: ["."] for the root,
    the components joined by the separator otherwise.  It cannot fail on a
    path that was built by joining names onto [srcDir]. *)
Definition Rel (p : path) : string :=
  match p with
  | [] => "."
  | _ => String.concat "/" p
  end.

(** [filepath.Ext]: scan from the end of the name; the suffix starting at the
    last dot, nothing when a separator or the start is reached first.
    [ext_scan s] is [Some] once the backwards scan has stopped inside [s]. *)
Fixpoint ext_scan (s : string) : option string :=
  match s with
  | EmptyString => None
  | String c t =>
      match ext_scan t with
      | Some e => Some e
      | None =>
          if Ascii.eqb c "."%char then Some s
          else if Ascii.eqb c "/"%char then Some ""
          else None
      end
  end.

Definition Ext (name : string) : string := default "" (ext_scan name).

(** ** The file tree *)

(** What the system calls on one non-directory entry return: the bytes of
    the file, and the errors (if any) of [os.Open], of the first [Read] on
    the opened file and of [os.ReadFile]. *)
Record file := mkFile {
  content : list byte;
  open_err : option errno;
  read_err : option errno;
  readfile_err : option errno;
}.

(** [Dir name entries err]: [entries] in the order of the file system's own
    enumeration, [err] the error of [os.ReadDir] on the directory. *)
Inductive node :=
| File (name : string) (f : file)
| Dir (name : string) (entries : list node) (readdir_err : option errno).

(** [fs.DirEntry], as far as the callback looks at it. *)
Record DirEntry := mkEntry { Name : string; IsDir : bool }.

Definition node_name (n : node) : string :=
  match n with File nm _ | Dir nm _ _ => nm end.

Definition node_is_dir (n : node) : bool :=
  match n with File _ _ => false | Dir _ _ _ => true end.

Definition entry_of (n : node) : DirEntry :=
  {| Name := node_name n; IsDir := node_is_dir n |}.

(** Path resolution: the first entry of that name at every level. *)
Fixpoint find_entry (c : string) (es : list node) : option node :=
  match es with
  | [] => None
  | e :: es' => if String.eqb (node_name e) c then Some e else find_entry c es'
  end.

Fixpoint lookup_path (n : node) (p : path) : option node :=
  match p with
  | [] => Some n
  | c :: p' =>
      match n with
      | File _ _ => None
      | Dir _ es _ =>
          match find_entry c es with
          | Some e => lookup_path e p'
          | None => None
          end
      end
  end.

(** An open [*os.File]: the path it was opened with and the file behind it
    ([None] for a directory, which opens but does not read). *)
Record handle := mkHandle { h_path : path; h_file : option file }.

Definition os_Open (fs : node) (p : path) : handle + error :=
  match lookup_path fs p with
  | None => inr (PathError "open" p ENOENT)
  | Some (Dir _ _ _) => inl (mkHandle p None)
  | Some (File _ f) =>
      match open_err f with
      | Some e => inr (PathError "open" p e)
      | None => inl (mkHandle p (Some f))
      end
  end.

(** The first [file.Read(buffer)] with [len(buffer) = len]: the bytes
    [buffer[:n]] and the error.  At end of file [Read] returns [0, io.EOF]. *)
Definition file_Read (h : handle) (len : nat) : list byte * option error :=
  match h_file h with
  | None => ([], Some (PathError "read" (h_path h) EISDIR))
  | Some f =>
      match read_err f with
      | Some e => ([], Some (PathError "read" (h_path h) e))
      | None =>
          let bs := take len (content f) in
          (bs, if (length bs =? 0)%nat && (0 <? len)%nat then Some EOF else None)
      end
  end.

Definition os_ReadFile (fs : node) (p : path) : list byte + error :=
  match lookup_path fs p with
  | None => inr (PathError "open" p ENOENT)
  | Some (Dir _ _ _) => inr (PathError "read" p EISDIR)
  | Some (File _ f) =>
      match open_err f, readfile_err f with
      | Some e, _ => inr (PathError "open" p e)
      | None, Some e => inr (PathError "read" p e)
      | None, None => inl (content f)
      end
  end.

(** [bytes.Contains(b, subslice)]. *)
Fixpoint HasPrefix (s prefix : list byte) : bool :=
  match prefix, s with
  | [], _ => true
  | _ :: _, [] => false
  | x :: prefix', y :: s' => Byte.eqb x y && HasPrefix s' prefix'
  end.

Fixpoint Contains (b subslice : list byte) : bool :=
  HasPrefix b subslice ||
  match b with
  | [] => false
  | _ :: b' => Contains b' subslice
  end.

(** ** Configuration *)

Record ProjectConfig := mkConfig {
  IgnoreDirs : list string;
  IgnoreExts : list string;
  LangMap : gmap string string;
}.

Definition baseLangMap : gmap string string :=
  list_to_map [
    (".md", "markdown"); (".sh", "shell"); (".json", "json"); (".yml", "yaml");
    (".yaml", "yaml"); (".toml", "toml"); (".txt", "text");
    (".gitignore", "text"); (".proto", "protobuf") ].

Definition filenameLangMap : gmap string string :=
  list_to_map [
    ("Dockerfile", "dockerfile"); ("Makefile", "makefile"); ("go.mod", "go-mod");
    ("go.sum", "text"); ("LICENSE", "text"); ("README", "markdown") ].

Definition projectConfigs : gmap string ProjectConfig :=
  list_to_map [
    ("generic",
      {| IgnoreDirs := [".git"];
         IgnoreExts := [".DS_Store"; ".log"; ".lock"];
         LangMap := ∅ |});
    ("android",
      {| IgnoreDirs := [".git"; ".idea"; "build"; ".gradle"; "gradle"];
         IgnoreExts := [".DS_Store"; ".iml"; ".jar"; ".keystore"; ".jks"; ".apk";
                        ".aab"; ".so"; ".png"; ".jpg"; ".jpeg"; ".gif"; ".webp"];
         LangMap := list_to_map [
           (".java", "java"); (".kt", "kotlin"); (".kts", "kotlin");
           (".xml", "xml"); (".gradle", "groovy"); (".pro", "text") ] |});
    ("go",
      {| IgnoreDirs := [".git"; "vendor"; "build"];
         IgnoreExts := [".DS_Store"; ".exe"; ".so"; ".a"];
         LangMap := list_to_map [ (".go", "go") ] |});
    ("rust",
      {| IgnoreDirs := [".git"; "target"];
         IgnoreExts := [".DS_Store"; ".rlib"; ".so"; ".a"; ".exe"];
         LangMap := list_to_map [ (".rs", "rust") ] |});
    ("ios",
      {| IgnoreDirs := [".git"; ".idea"; "Pods"; "build"; "DerivedData";
                        ".swiftpm"; "Carthage"];
         IgnoreExts := [".DS_Store"; ".mobileprovision"; ".app"; ".ipa"; ".car";
                        ".xcassets"; ".storyboardc"; ".nib"; ".png"; ".jpg";
                        ".jpeg"];
         LangMap := list_to_map [
           (".swift", "swift"); (".m", "objectivec"); (".h", "objectivec");
           (".storyboard", "xml"); (".xib", "xml"); (".plist", "xml") ] |}) ].

(** [stringSet], [newStringSet] and [Contains]. *)
Definition newStringSet (items : list string) : gset string :=
  foldl (fun s item => {[ item ]} ∪ s) ∅ items.

Definition set_Contains (s : gset string) (item : string) : bool :=
  bool_decide (item ∈ s).

(** [mergeMaps]: every key of every map is written into [result], the maps
    in argument order.  The order of the inner [range] over one map is
    whatever [map_fold] picks; no two keys of one map collide. *)
Definition mergeMaps (maps : list (gmap string string)) : gmap string string :=
  foldl (fun result m => map_fold (fun k v r => <[k := v]> r) result m) ∅ maps.

(** The two-valued map read [v, ok := m[k]]: the zero value when absent. *)
Definition map_get (m : gmap string string) (k : string) : string * bool :=
  match m !! k with
  | Some v => (v, true)
  | None => ("", false)
  end.

Definition landmarkFiles : gmap string string :=
  list_to_map [
    ("go.mod", "go"); ("Cargo.toml", "rust"); ("build.gradle", "android");
    ("Package.swift", "ios"); ("Podfile", "ios") ].

(** [detectProjectType].  [order] is the order in which this run's
    [range landmarkFiles] yields the entries (Go randomises it), [stat_ok
    landmark] whether [os.Stat] on the landmark below [srcDir] succeeded,
    [matches] the result of the [*.xcodeproj] glob. *)
Fixpoint first_landmark (stat_ok : string -> bool) (order : list (string * string))
  : option string :=
  match order with
  | [] => None
  | (landmark, projectType) :: rest =>
      if stat_ok landmark then Some projectType
      else first_landmark stat_ok rest
  end.

Definition detectProjectType (order : list (string * string))
    (stat_ok : string -> bool) (matches : list string) : string :=
  match first_landmark stat_ok order with
  | Some projectType => projectType
  | None => if (0 <? length matches)%nat then "ios" else "generic"
  end.

(** ** The writer *)

(** [bufio.Writer] over the output file, seen through the calls the callback
    makes: a write takes the writer to a new state and may return an error. *)
Class Writer (W : Type) := Write : W -> list byte -> W * option error.

Definition WriteString `{Writer W} (w : W) (s : string) : W * option error :=
  Write w (list_byte_of_string s).

(** A writer that keeps everything and never fails. *)
Record MemWriter := mkMem { mem_bytes : list byte }.

#[export] Instance MemWriter_Writer : Writer MemWriter :=
  fun w p => (mkMem (mem_bytes w ++ p), None).

(** The output file on a device with [room] bytes left.  [Write] of [os.File]
    stores what fits and returns the number of bytes stored, with the error
    of the device when that is not all of them. *)
Record DiskWriter := mkDisk { disk_bytes : list byte; room : nat }.

Definition file_Write (f : DiskWriter) (p : list byte)
  : DiskWriter * nat * option error :=
  if (length p <=? room f)%nat
  then (mkDisk (disk_bytes f ++ p) (room f - length p), length p, None)
  else (mkDisk (disk_bytes f ++ take (room f) p) 0, room f,
        Some (WriteError ENOSPC)).

(** [bufio.Writer] over the output file: the sticky error [err], the bytes
    [buf[0:n]] that wait in the buffer, and the file [wr].  [bufio.NewWriter]
    gives a buffer of [defaultBufSize] bytes. *)
Definition defaultBufSize : nat := 4096.

Record BufWriter := mkBuf {
  buf_err : option error;
  buf : list byte;
  wr : DiskWriter;
}.

Definition NewWriter (f : DiskWriter) : BufWriter := mkBuf None [] f.

Definition Buffered (b : BufWriter) : nat := length (buf b).
Definition Available (b : BufWriter) : nat := defaultBufSize - length (buf b).

(** [Flush] of [bufio.Writer].  The file returns an error whenever it stores
    fewer bytes than it was given, so [io.ErrShortWrite] does not arise. *)
Definition Flush (b : BufWriter) : BufWriter * option error :=
  match buf_err b with
  | Some e => (b, Some e)
  | None =>
      if (Buffered b =? 0)%nat then (b, None)
      else
        let '(f, n, err) := file_Write (wr b) (buf b) in
        match err with
        | Some e => (mkBuf (Some e) (drop n (buf b)) f, Some e)
        | None => (mkBuf None [] f, None)
        end
  end.

(** The condition of the loop of [Write] of [bufio.Writer]:
    [len(p) > b.Available() && b.err == nil]. *)
Definition write_more (b : BufWriter) (p : list byte) : bool :=
  (Available b <? length p)%nat &&
  match buf_err b with None => true | Some _ => false end.

(** The loop of [Write] of [bufio.Writer], for at most [fuel] turns: a write
    that finds the buffer empty goes to the file directly, any other fills
    the buffer and flushes it. *)
Fixpoint write_loop (fuel : nat) (b : BufWriter) (p : list byte)
  : BufWriter * list byte :=
  if write_more b p then
    match fuel with
    | O => (b, p)
    | S fuel =>
        if (Buffered b =? 0)%nat then
          let '(f, n, err) := file_Write (wr b) p in
          write_loop fuel (mkBuf err (buf b) f) (drop n p)
        else
          let n := Available b in
          write_loop fuel
            (fst (Flush (mkBuf (buf_err b) (buf b ++ take n p) (wr b))))
            (drop n p)
    end
  else (b, p).

(** [Write] of [bufio.Writer].  Two turns of the loop are all it takes
    ([write_loop_exits]).  [WriteString] is [Write] on the bytes of the
    string: the two return the same error and hand the same bytes to the
    file, and differ at most in how a string longer than the free space of
    the buffer is cut up on its way there. *)
Definition bufio_Write (b : BufWriter) (p : list byte)
  : BufWriter * option error :=
  let '(b, p) := write_loop 2 b p in
  match buf_err b with
  | Some e => (b, Some e)
  | None => (mkBuf None (buf b ++ take (Available b) p) (wr b), None)
  end.

#[export] Instance BufWriter_Writer : Writer BufWriter := bufio_Write.

(** ** State of a run *)

(** The unit of output: what one accepted file contributes. *)
Record BundleRecord := mkRecord {
  relativePath : string;
  languageTag : string;
  recordContent : list byte;
}.

Inductive logline :=
| CouldNotCheck (p : path) (e : error)   (* "Could not check file type for %s: %v" *)
| CouldNotRead (p : path) (e : error).   (* "Could not read file %s: %v" *)

(** What a run does, in program order.  [EvVisit] marks an invocation of the
    callback and [EvRecord] the completion of the three writes of one block;
    the others are the system calls and the lines printed. *)
Inductive event :=
| EvVisit (p : path)
| EvOpen (p : path)
| EvRead (p : path) (len : nat)
| EvReadFile (p : path)
| EvLog (l : logline)
| EvPrintBundling (p : path)
| EvRecord (p : path) (r : BundleRecord).

Record state (W : Type) := mkState {
  skippedFiles : gmap string (list path);
  writer : W;
  trace : list event;
}.
Arguments mkState {W}.
Arguments skippedFiles {W}.
Arguments writer {W}.
Arguments trace {W}.

(** A small state monad for the body of the callback. *)
Definition M (W A : Type) : Type := state W -> A * state W.

Definition ret {W A} (a : A) : M W A := fun st => (a, st).

Definition bind {W A B} (m : M W A) (k : A -> M W B) : M W B :=
  fun st => let '(a, st') := m st in k a st'.

Declare Scope walk_scope.
Delimit Scope walk_scope with walk.
Notation "x <- c1 ;; c2" := (bind c1 (fun x => c2))
  (at level 100, c1 at next level, right associativity) : walk_scope.
Notation "c1 ;; c2" := (bind c1 (fun _ => c2))
  (at level 100, right associativity) : walk_scope.

Definition tell {W} (e : event) : M W unit :=
  fun st => (tt, mkState (skippedFiles st) (writer st) (trace st ++ [e])).

(** [skippedFiles[reason] = append(skippedFiles[reason], path)]. *)
Definition skip {W} (reason : string) (p : path) : M W unit :=
  fun st =>
    (tt, mkState (<[reason := default [] (skippedFiles st !! reason) ++ [p]]>
                    (skippedFiles st))
                 (writer st) (trace st)).

Definition writeString `{Writer W} (s : string) : M W (option error) :=
  fun st =>
    let '(w, err) := WriteString (writer st) s in
    (err, mkState (skippedFiles st) w (trace st)).

Definition write `{Writer W} (p : list byte) : M W (option error) :=
  fun st =>
    let '(w, err) := Write (writer st) p in
    (err, mkState (skippedFiles st) w (trace st)).

Definition newline : string := String (ascii_of_nat 10) EmptyString.

Section Walk.
Context {W : Type} `{Writer W}.

(** The file tree below [srcDir], and the resolved configuration. *)
Variable fs : node.
Variable ignoreDirs ignoreExts : gset string.
Variable langMap : gmap string string.

Local Open Scope walk_scope.

(** [isBinaryFile]: open, read up to 1024 bytes once, look for a zero
    byte among the bytes read. *)
Definition isBinaryFile (p : path) : M W (bool * option error) :=
  tell (EvOpen p) ;;
  match os_Open fs p with
  | inr err => ret (false, Some err)
  | inl file =>
      tell (EvRead p 1024) ;;
      let '(readBytes, err) := file_Read file 1024 in
      match err with
      | None | Some EOF => ret (Contains readBytes [x00], None)
      | Some e => ret (false, Some e)
      end
  end.

Definition readFile (p : path) : M W (list byte + error) :=
  tell (EvReadFile p) ;; ret (os_ReadFile fs p).

(** The language of the fenced block: by extension, then by full file
    name, then plain text. *)
Definition resolveLanguage (ext name : string) : string :=
  let '(lang, ok) := map_get langMap ext in
  if negb ok then
    let '(lang, ok) := map_get filenameLangMap name in
    if negb ok then "text" else lang
  else lang.

(** The function literal passed to [filepath.WalkDir]. *)
Definition walkFn (p : path) (d : option DirEntry) (err : option error)
  : M W (option error) :=
  tell (EvVisit p) ;;
  match err, d with
  | Some e, _ => ret (Some e)
  | None, None => ret (Some NilDeref)
  | None, Some d =>
      if IsDir d then
        if set_Contains ignoreDirs (Name d) then
          skip "Ignored Directory" p ;;
          ret (Some SkipDir)
        else ret None
      else
        let ext := Ext (Name d) in
        if set_Contains ignoreExts ext || set_Contains ignoreExts (Name d) then
          skip "Ignored Extension/File" p ;;
          ret None
        else
          r <- isBinaryFile p ;;
          match r with
          | (_, Some e) =>
              skip "File Read Error" p ;;
              tell (EvLog (CouldNotCheck p e)) ;;
              ret None
          | (true, None) =>
              skip "Detected Binary Content" p ;;
              ret None
          | (false, None) =>
              tell (EvPrintBundling p) ;;
              c <- readFile p ;;
              match c with
              | inr e =>
                  skip "File Read Error" p ;;
                  tell (EvLog (CouldNotRead p e)) ;;
                  ret None
              | inl content =>
                  let lang := resolveLanguage ext (Name d) in
                  let relativePath := Rel p in
                  let header :=
                    "File: /" +:+ relativePath +:+ newline +:+
                    "```" +:+ lang +:+ newline in
                  e1 <- writeString header ;;
                  match e1 with
                  | Some e => ret (Some e)
                  | None =>
                      e2 <- write content ;;
                      match e2 with
                      | Some e => ret (Some e)
                      | None =>
                          e3 <- writeString (newline +:+ "```" +:+ newline +:+ newline) ;;
                          match e3 with
                          | Some e => ret (Some e)
                          | None =>
                              tell (EvRecord p (mkRecord relativePath lang content)) ;;
                              ret None
                          end
                      end
                  end
              end
          end
  end.
End Walk.

(** ** [filepath.WalkDir] *)

(** [os.ReadDir] returns the entries of a directory sorted by file name
    (byte-wise comparison of the names). *)
Definition entry_le (a b : node) : Prop :=
  String.le (node_name a) (node_name b).

#[export] Instance entry_le_dec : RelDecision entry_le.
Proof. intros a b. unfold entry_le. apply _. Defined.

Definition sortEntries (l : list node) : list node := merge_sort entry_le l.

(** The tree as the walk reads it: every listing sorted.  It is computed for
    the whole tree at once, so that [walkDir] recurses on the structure of
    the tree. *)
Fixpoint readDirView (n : node) : node :=
  match n with
  | File _ _ => n
  | Dir nm es e => Dir nm (sortEntries (List.map readDirView es)) e
  end.

Section WalkDir.
Context {S : Type}.
Variable fn : path -> option DirEntry -> option error -> S -> option error * S.

(** [walkDir(path, d, walkDirFn)] of path/filepath, on a directory whose
    listings are already in [os.ReadDir] order. *)
Fixpoint walkDir (p : path) (d : node) (st : S) {struct d} : option error * S :=
  let '(err, st) := fn p (Some (entry_of d)) None st in
  match d with
  | File _ _ => (err, st)
  | Dir _ dirs rderr =>
      match err with
      | Some SkipDir => (None, st)
      | Some e => (Some e, st)
      | None =>
          let '(err, st) :=
            match rderr with
            | None => (None, st)
            | Some e => fn p (Some (entry_of d)) (Some (PathError "open" p e)) st
            end in
          match err with
          | Some SkipDir => (None, st)
          | Some e => (Some e, st)
          | None =>
              (fix loop (dirs : list node) (st : S) : option error * S :=
                 match dirs with
                 | [] => (None, st)
                 | d1 :: rest =>
                     let '(err, st) := walkDir (Join p (node_name d1)) d1 st in
                     match err with
                     | Some SkipDir => (None, st)
                     | Some e => (Some e, st)
                     | None => loop rest st
                     end
                 end) dirs st
          end
      end
  end.

(** The [for _, d1 := range dirs] loop of [walkDir], by itself. *)
Fixpoint walkEntries (p : path) (dirs : list node) (st : S) : option error * S :=
  match dirs with
  | [] => (None, st)
  | d1 :: rest =>
      let '(err, st) := walkDir (Join p (node_name d1)) d1 st in
      match err with
      | Some SkipDir => (None, st)
      | Some e => (Some e, st)
      | None => walkEntries p rest st
      end
  end.

(** [WalkDir(root, fn)]: [lstat_err] is the error of [os.Lstat(root)]. *)
Definition WalkDir (lstat_err : option errno) (root : node) (st : S)
  : option error * S :=
  let '(err, st) :=
    match lstat_err with
    | Some e => fn [] None (Some (PathError "lstat" [] e)) st
    | None => walkDir [] (readDirView root) st
    end in
  match err with
  | Some SkipDir | Some SkipAll => (None, st)
  | _ => (err, st)
  end.
End WalkDir.

(** ** [main] *)

(** What a run finds outside the program. *)
Record Env := mkEnv {
  landmark_order : list (string * string);
  stat_ok : string -> bool;
  xcodeproj_matches : list string;
  create_err : option errno;
  lstat_err : option errno;
  tree : node;
}.

(** How [main] ends: one of the three [log.Fatalf], or the end of [main]. *)
Inductive outcome (W : Type) :=
| InvalidProjectType (finalProjectType : string)
| CreateFailed (e : errno)
| WalkFailed (e : error) (st : state W)
| Completed (st : state W).
Arguments InvalidProjectType {W}.
Arguments CreateFailed {W}.
Arguments WalkFailed {W}.
Arguments Completed {W}.

Definition finalProjectType (projectType : string) (env : Env) : string :=
  if String.eqb projectType "auto"
  then detectProjectType (landmark_order env) (stat_ok env) (xcodeproj_matches env)
  else projectType.

(** The run of the walk under a loaded preset. *)
Definition bundle `{Writer W} (config : ProjectConfig) (env : Env) (w : W)
  : option error * state W :=
  let ignoreDirs := newStringSet (IgnoreDirs config) in
  let ignoreExts := newStringSet (IgnoreExts config) in
  let langMap := mergeMaps [baseLangMap; LangMap config] in
  WalkDir (walkFn (tree env) ignoreDirs ignoreExts langMap)
          (lstat_err env) (tree env) (mkState ∅ w []).

Definition main `{Writer W} (projectType : string) (env : Env) (w : W) : outcome W :=
  match projectConfigs !! finalProjectType projectType env with
  | None => InvalidProjectType (finalProjectType projectType env)
  | Some config =>
      match create_err env with
      | Some e => CreateFailed e
      | None =>
          let '(walkErr, st) := bundle config env w in
          match walkErr with
          | Some e => WalkFailed e st
          | None => Completed st
          end
      end
  end.

(** The records of a run, in the order they were written. *)
Definition records_of (tr : list event) : list BundleRecord :=
  omap (fun e => match e with EvRecord _ r => Some r | _ => None end) tr.

(** ** Running the model *)

Definition text (s : string) : file :=
  mkFile (list_byte_of_string s) None None None.

Definition goPreset : ProjectConfig :=
  default (mkConfig [] [] ∅) (projectConfigs !! "go").

Definition quietEnv (t : node) : Env :=
  mkEnv (map_to_list landmarkFiles) (fun _ => false) [] None None t.

(** The scenario [{a.go, vendor/b.go, .git/config}] under the Go preset. *)
Definition scenarioTree : node :=
  Dir "." [ Dir "vendor" [ File "b.go" (text "package b") ] None;
            File "a.go" (text "package a");
            Dir ".git" [ File "config" (text "[core]") ] None ] None.

Example scenario_records :
  records_of (trace (snd (bundle goPreset (quietEnv scenarioTree) (mkMem [])))) =
  [ mkRecord "a.go" "go" (list_byte_of_string "package a") ].
Proof. vm_compute. reflexivity. Qed.

Example scenario_ledger :
  map_to_list (skippedFiles (snd (bundle goPreset (quietEnv scenarioTree) (mkMem [])))) =
  [ ("Ignored Directory", [ [".git"]; ["vendor"] ]) ].
Proof. vm_compute. reflexivity. Qed.

(** * Properties *)

(** ** The binary detector *)

Lemma Contains_zero (bs : list byte) : Contains bs [x00] = true <-> x00 ∈ bs.
Proof.
  induction bs as [|b bs IH]; simpl.
  - split; [discriminate | intros Hin; inversion Hin].
  - assert (HasPrefix bs [] = true) as -> by (destruct bs; reflexivity).
    rewrite orb_true_iff, andb_true_r, IH, elem_of_cons.
    split; intros [Hb | Hbs]; auto.
    + left. symmetry. now apply byte_dec_bl.
    + left. subst b. reflexivity.
Qed.

Lemma Contains_zero_false (bs : list byte) :
  Contains bs [x00] = false <-> x00 ∉ bs.
Proof.
  rewrite <- Contains_zero. destruct (Contains bs [x00]); split; congruence.
Qed.

Section BinaryDetector.
Context {W : Type} `{Writer W}.

(** What [isBinaryFile] does on a file that opens and reads. *)
Lemma isBinaryFile_readable (fs : node) (p : path) (nm : string) (f : file)
    (st : state W) :
  lookup_path fs p = Some (File nm f) ->
  open_err f = None -> read_err f = None ->
  isBinaryFile fs p st =
    ((Contains (take 1024 (content f)) [x00], None),
     mkState (skippedFiles st) (writer st)
             (trace st ++ [EvOpen p; EvRead p 1024])).
Proof.
  intros Hlook Hopen Hread.
  unfold isBinaryFile, bind, tell, ret, os_Open, file_Read.
  rewrite Hlook, Hopen. cbn [h_file h_path]. rewrite Hread.
  cbn [skippedFiles writer trace]. rewrite <- app_assoc. cbn [app].
  destruct ((length (take 1024 (content f)) =? 0)%nat && (0 <? 1024)%nat);
    reflexivity.
Qed.

(** C1: the detector reads at most the first 1024 bytes, once; the file is
    binary exactly when one of the bytes read is zero, so a zero byte
    beyond the first 1024 bytes leaves it text, and so is an empty file. *)
Theorem isBinaryFile_first_1024 (fs : node) (p : path) (nm : string)
    (f : file) (st : state W) :
  lookup_path fs p = Some (File nm f) ->
  open_err f = None -> read_err f = None ->
  exists isBinary : bool,
    isBinaryFile fs p st =
      ((isBinary, None),
       mkState (skippedFiles st) (writer st)
               (trace st ++ [EvOpen p; EvRead p 1024])) /\
    (isBinary = true <-> x00 ∈ take 1024 (content f)) /\
    (x00 ∉ take 1024 (content f) -> isBinary = false) /\
    (content f = [] -> isBinary = false).
Proof.
  intros Hlook Hopen Hread.
  exists (Contains (take 1024 (content f)) [x00]).
  split; [now apply isBinaryFile_readable with nm|].
  split; [apply Contains_zero|].
  split; [apply Contains_zero_false|].
  intros ->. reflexivity.
Qed.
End BinaryDetector.

(** A text of 2000 letters followed by a zero byte. *)
Definition lateZero : file :=
  mkFile (replicate 2000 x41 ++ [x00]) None None None.

Definition lateZeroTree : node := Dir "." [ File "big.txt" lateZero ] None.

Definition emptyState : state MemWriter := mkState ∅ (mkMem []) [].

Lemma isBinaryFile_first_1024_witness :
  exists isBinary : bool,
    isBinaryFile lateZeroTree ["big.txt"] emptyState =
      ((isBinary, None),
       mkState ∅ (mkMem []) ([] ++ [EvOpen ["big.txt"]; EvRead ["big.txt"] 1024])) /\
    (isBinary = true <-> x00 ∈ take 1024 (content lateZero)) /\
    (x00 ∉ take 1024 (content lateZero) -> isBinary = false) /\
    (content lateZero = [] -> isBinary = false).
Proof.
  apply (isBinaryFile_first_1024 lateZeroTree ["big.txt"] "big.txt" lateZero
           emptyState); reflexivity.
Defined.

Example zero_at_2000_is_text :
  fst (isBinaryFile lateZeroTree ["big.txt"] emptyState) = (false, None).
Proof. vm_compute. reflexivity. Qed.

Example zero_at_10_is_binary :
  fst (isBinaryFile
         (Dir "." [ File "a.bin"
                      (mkFile (replicate 10 x41 ++ [x00]) None None None) ] None)
         ["a.bin"] emptyState) = (true, None).
Proof. vm_compute. reflexivity. Qed.

Example empty_file_is_text :
  fst (isBinaryFile (Dir "." [ File "empty" (mkFile [] None None None) ] None)
         ["empty"] emptyState) = (false, None).
Proof. vm_compute. reflexivity. Qed.

(** ** The file tree: positions and names *)

(** Induction on the tree, through the listings. *)
Lemma node_ind' (P : node -> Prop) :
  (forall nm f, P (File nm f)) ->
  (forall nm es e, Forall P es -> P (Dir nm es e)) ->
  forall n, P n.
Proof.
  intros HF HD. fix IH 1. intros [nm f | nm es e].
  - apply HF.
  - apply HD. induction es as [|c es IHes]; constructor; [apply IH | apply IHes].
Qed.

(** [node_at root p n]: [n] is an entry found by descending from [root]
    through the names of [p]. *)
Inductive node_at : node -> path -> node -> Prop :=
| at_here n : node_at n [] n
| at_below nm es e c q n :
    c ∈ es -> node_at c q n -> node_at (Dir nm es e) (node_name c :: q) n.

(** [d.Name()] for the entry at [p]: the last component, and for the root
    the base name that [os.Lstat] reports. *)
Definition path_name (root : node) (p : path) : string :=
  default (node_name root) (last p).

(** Names are distinct within every directory. *)
Fixpoint distinct_names (n : node) : bool :=
  match n with
  | File _ _ => true
  | Dir _ es _ =>
      bool_decide (NoDup (node_name <$> es)) && forallb distinct_names es
  end.

Lemma node_at_snoc root p nm es e c :
  node_at root p (Dir nm es e) -> c ∈ es ->
  node_at root (p ++ [node_name c]) c.
Proof.
  intros Hat Hc. remember (Dir nm es e) as d eqn:Hd.
  induction Hat as [n | nm' es' e' c' q n Hc' Hat IH]; subst.
  - simpl. apply at_below; [exact Hc | constructor].
  - simpl. apply at_below; [exact Hc' | apply IH; reflexivity].
Qed.

Lemma node_at_name root p n : node_at root p n -> node_name n = path_name root p.
Proof.
  unfold path_name. induction 1 as [n | nm es e c q n Hc Hat IH]; [reflexivity|].
  rewrite IH, last_cons. destruct (last q); reflexivity.
Qed.

Lemma distinct_names_Dir nm es e :
  distinct_names (Dir nm es e) = true ->
  NoDup (node_name <$> es) /\ Forall (fun c => distinct_names c = true) es.
Proof.
  simpl. rewrite andb_true_iff, bool_decide_eq_true, forallb_forall.
  intros [Hnd Hall]. split; [exact Hnd|].
  apply Forall_forall. intros c Hc. apply Hall. now apply list_elem_of_In.
Qed.

Lemma NoDup_names_inj (es : list node) (a b : node) :
  NoDup (node_name <$> es) -> a ∈ es -> b ∈ es ->
  node_name a = node_name b -> a = b.
Proof.
  induction es as [|c es IH]; intros Hnd Ha Hb Hab; [inversion Ha|].
  rewrite fmap_cons in Hnd. apply NoDup_cons in Hnd as [Hc Hnd].
  apply elem_of_cons in Ha as [-> | Ha]; apply elem_of_cons in Hb as [-> | Hb].
  - reflexivity.
  - exfalso. apply Hc. rewrite Hab. now apply list_elem_of_fmap_2.
  - exfalso. apply Hc. rewrite <- Hab. now apply list_elem_of_fmap_2.
  - now apply IH.
Qed.

(** With distinct names a path leads to one entry. *)
Lemma node_at_inj root p n1 n2 :
  distinct_names root = true ->
  node_at root p n1 -> node_at root p n2 -> n1 = n2.
Proof.
  intros Hwf Hat1. revert n2 Hwf.
  induction Hat1 as [n | nm es e c q n Hc Hat IH]; intros n2 Hwf Hat2.
  - inversion Hat2; reflexivity.
  - inversion Hat2 as [| nm' es' e' c' q' n' Hc' Hat' ]; subst.
    apply distinct_names_Dir in Hwf as [Hnd Hall].
    assert (c' = c) as -> by (eapply NoDup_names_inj; eauto).
    apply IH; [|exact Hat'].
    rewrite Forall_forall in Hall. now apply Hall.
Qed.

Lemma find_entry_Some c es e :
  find_entry c es = Some e -> e ∈ es /\ node_name e = c.
Proof.
  induction es as [|x es IH]; simpl; [discriminate|].
  destruct (String.eqb_spec (node_name x) c) as [Heq | Hne].
  - intros [= ->]. split; [left | exact Heq].
  - intros Hf. destruct (IH Hf). split; [now right | assumption].
Qed.

Lemma lookup_path_node_at root p n :
  lookup_path root p = Some n -> node_at root p n.
Proof.
  revert root. induction p as [|c p IH]; intros root; simpl.
  - intros [= ->]. constructor.
  - destruct root as [nm f | nm es e]; [discriminate|].
    destruct (find_entry c es) as [x|] eqn:Hf; [|discriminate].
    apply find_entry_Some in Hf as [Hx <-]. intros Hl.
    apply at_below; [exact Hx | now apply IH].
Qed.

(** ** The callback, case by case *)

Definition event_path (ev : event) : path :=
  match ev with
  | EvVisit p | EvOpen p | EvRead p _ | EvReadFile p | EvPrintBundling p
  | EvRecord p _ => p
  | EvLog (CouldNotCheck p _) | EvLog (CouldNotRead p _) => p
  end.

Definition addEvents {W} (evs : list event) (st : state W) : state W :=
  mkState (skippedFiles st) (writer st) (trace st ++ evs).

Definition addSkip {W} (reason : string) (p : path) (st : state W) : state W :=
  mkState (<[reason := default [] (skippedFiles st !! reason) ++ [p]]>
             (skippedFiles st))
          (writer st) (trace st).

Definition setWriter {W} (w : W) (st : state W) : state W :=
  mkState (skippedFiles st) w (trace st).

(** The value [isBinaryFile] returns and the system calls it makes; neither
    depends on the state of the run. *)
Definition binaryCheck (fs : node) (p : path) : bool * option error :=
  match os_Open fs p with
  | inr err => (false, Some err)
  | inl file =>
      match file_Read file 1024 with
      | (readBytes, None) | (readBytes, Some EOF) =>
          (Contains readBytes [x00], None)
      | (_, Some e) => (false, Some e)
      end
  end.

Definition binaryCheck_calls (fs : node) (p : path) : list event :=
  match os_Open fs p with
  | inr _ => [EvOpen p]
  | inl _ => [EvOpen p; EvRead p 1024]
  end.

Definition header (p : path) (lang : string) : list byte :=
  list_byte_of_string
    ("File: /" +:+ Rel p +:+ newline +:+ "```" +:+ lang +:+ newline).

Definition trailer : list byte :=
  list_byte_of_string (newline +:+ "```" +:+ newline +:+ newline).

Section Callback.
Context {W : Type} `{Writer W}.
Variable fs : node.
Variable ignoreDirs ignoreExts : gset string.
Variable langMap : gmap string string.

Abbreviation fn := (walkFn fs ignoreDirs ignoreExts langMap).

Definition ignoredName (name : string) : bool :=
  set_Contains ignoreExts (Ext name) || set_Contains ignoreExts name.

Lemma isBinaryFile_binaryCheck (p : path) (st : state W) :
  isBinaryFile fs p st =
    (binaryCheck fs p, addEvents (binaryCheck_calls fs p) st).
Proof.
  unfold isBinaryFile, binaryCheck, binaryCheck_calls, bind, tell, ret, addEvents.
  destruct (os_Open fs p) as [h | e]; cbn [skippedFiles writer trace].
  - destruct (file_Read h 1024) as [bs [e|]]; rewrite <- app_assoc;
      [destruct e|]; reflexivity.
  - reflexivity.
Qed.

(** Every way one invocation of the callback can go: the error it returns
    and the state it leaves. *)
Inductive walkFn_case (p : path) (d : option DirEntry) (err : option error)
    (st : state W) : option error -> state W -> Prop :=
| case_propagate e :
    err = Some e ->
    walkFn_case p d err st (Some e) (addEvents [EvVisit p] st)
| case_nil :
    err = None -> d = None ->
    walkFn_case p d err st (Some NilDeref) (addEvents [EvVisit p] st)
| case_prune d' :
    err = None -> d = Some d' -> IsDir d' = true ->
    set_Contains ignoreDirs (Name d') = true ->
    walkFn_case p d err st (Some SkipDir)
      (addSkip "Ignored Directory" p (addEvents [EvVisit p] st))
| case_descend d' :
    err = None -> d = Some d' -> IsDir d' = true ->
    set_Contains ignoreDirs (Name d') = false ->
    walkFn_case p d err st None (addEvents [EvVisit p] st)
| case_ignored d' :
    err = None -> d = Some d' -> IsDir d' = false ->
    ignoredName (Name d') = true ->
    walkFn_case p d err st None
      (addSkip "Ignored Extension/File" p (addEvents [EvVisit p] st))
| case_check_failed d' b e :
    err = None -> d = Some d' -> IsDir d' = false ->
    ignoredName (Name d') = false ->
    binaryCheck fs p = (b, Some e) ->
    walkFn_case p d err st None
      (addEvents [EvLog (CouldNotCheck p e)]
         (addSkip "File Read Error" p
            (addEvents (EvVisit p :: binaryCheck_calls fs p) st)))
| case_binary d' :
    err = None -> d = Some d' -> IsDir d' = false ->
    ignoredName (Name d') = false ->
    binaryCheck fs p = (true, None) ->
    walkFn_case p d err st None
      (addSkip "Detected Binary Content" p
         (addEvents (EvVisit p :: binaryCheck_calls fs p) st))
| case_read_failed d' e :
    err = None -> d = Some d' -> IsDir d' = false ->
    ignoredName (Name d') = false ->
    binaryCheck fs p = (false, None) ->
    os_ReadFile fs p = inr e ->
    walkFn_case p d err st None
      (addEvents [EvLog (CouldNotRead p e)]
         (addSkip "File Read Error" p
            (addEvents (EvVisit p :: binaryCheck_calls fs p ++
                          [EvPrintBundling p; EvReadFile p]) st)))
| case_write_failed d' content w0 bs w' e :
    err = None -> d = Some d' -> IsDir d' = false ->
    ignoredName (Name d') = false ->
    binaryCheck fs p = (false, None) ->
    os_ReadFile fs p = inl content ->
    Write w0 bs = (w', Some e) ->
    walkFn_case p d err st (Some e)
      (setWriter w'
         (addEvents (EvVisit p :: binaryCheck_calls fs p ++
                       [EvPrintBundling p; EvReadFile p]) st))
| case_accepted d' content w1 w2 w3 :
    err = None -> d = Some d' -> IsDir d' = false ->
    ignoredName (Name d') = false ->
    binaryCheck fs p = (false, None) ->
    os_ReadFile fs p = inl content ->
    let lang := resolveLanguage langMap (Ext (Name d')) (Name d') in
    Write (writer st) (header p lang) = (w1, None) ->
    Write w1 content = (w2, None) ->
    Write w2 trailer = (w3, None) ->
    walkFn_case p d err st None
      (setWriter w3
         (addEvents (EvVisit p :: binaryCheck_calls fs p ++
                       [EvPrintBundling p; EvReadFile p;
                        EvRecord p (mkRecord (Rel p) lang content)]) st)).

Local Ltac state_is target :=
  match goal with
  | |- walkFn_case _ _ _ _ _ ?s =>
      replace s with target;
      [| unfold addEvents, addSkip, setWriter; cbn; f_equal;
         repeat (rewrite <- app_assoc; cbn [app]); reflexivity ]
  end.

Lemma walkFn_cases_eq (p : path) (d : option DirEntry) (err : option error)
    (st : state W) (r : option error) (st' : state W) :
  fn p d err st = (r, st') -> walkFn_case p d err st r st'.
Proof.
  unfold walkFn. unfold bind at 1. unfold tell at 1.
  destruct err as [e|]; [intros [= <- <-]; now apply case_propagate|].
  destruct d as [d|]; [|intros [= <- <-]; now apply case_nil].
  destruct (IsDir d) eqn:Hdir.
  { destruct (set_Contains ignoreDirs (Name d)) eqn:Hig; intros [= <- <-].
    - now apply case_prune with d.
    - now apply case_descend with d. }
  fold (ignoredName (Name d)).
  destruct (ignoredName (Name d)) eqn:Hig;
    [intros [= <- <-]; now apply case_ignored with d|].
  unfold bind at 1. rewrite isBinaryFile_binaryCheck.
  destruct (binaryCheck fs p) as [b [e|]] eqn:Hcheck.
  { destruct b; intros [= <- <-];
      state_is (addEvents [EvLog (CouldNotCheck p e)]
                  (addSkip "File Read Error" p
                     (addEvents (EvVisit p :: binaryCheck_calls fs p) st)));
      eapply (case_check_failed _ _ _ _ d); eauto. }
  destruct b.
  { intros [= <- <-].
    state_is (addSkip "Detected Binary Content" p
                (addEvents (EvVisit p :: binaryCheck_calls fs p) st)).
    now apply case_binary with d. }
  unfold bind at 1, tell at 1. unfold bind at 1, readFile at 1.
  unfold bind at 1, tell at 1, ret at 1.
  cbn [skippedFiles writer trace addEvents].
  destruct (os_ReadFile fs p) as [content | e] eqn:Hread.
  2:{ intros [= <- <-].
      state_is (addEvents [EvLog (CouldNotRead p e)]
                  (addSkip "File Read Error" p
                     (addEvents (EvVisit p :: binaryCheck_calls fs p ++
                                   [EvPrintBundling p; EvReadFile p]) st))).
      now apply case_read_failed with d. }
  set (lang := resolveLanguage langMap (Ext (Name d)) (Name d)).
  unfold bind, writeString, write, WriteString, tell, ret.
  cbn [skippedFiles writer trace]. fold (header p lang). fold trailer.
  destruct (Write (writer st) (header p lang)) as [w1 [e|]] eqn:Hw1.
  { cbn. intros [= <- <-].
    state_is (setWriter w1
                (addEvents (EvVisit p :: binaryCheck_calls fs p ++
                              [EvPrintBundling p; EvReadFile p]) st)).
    eapply (case_write_failed _ _ _ _ d content); eauto. }
  cbn [skippedFiles writer trace].
  destruct (Write w1 content) as [w2 [e|]] eqn:Hw2.
  { cbn. intros [= <- <-].
    state_is (setWriter w2
                (addEvents (EvVisit p :: binaryCheck_calls fs p ++
                              [EvPrintBundling p; EvReadFile p]) st)).
    eapply (case_write_failed _ _ _ _ d content); eauto. }
  cbn [skippedFiles writer trace].
  destruct (Write w2 trailer) as [w3 [e|]] eqn:Hw3.
  { cbn. intros [= <- <-].
    state_is (setWriter w3
                (addEvents (EvVisit p :: binaryCheck_calls fs p ++
                              [EvPrintBundling p; EvReadFile p]) st)).
    eapply (case_write_failed _ _ _ _ d content); eauto. }
  cbn. intros [= <- <-].
  state_is (setWriter w3
              (addEvents (EvVisit p :: binaryCheck_calls fs p ++
                 [EvPrintBundling p; EvReadFile p;
                  EvRecord p (mkRecord (Rel p) lang content)]) st)).
  eapply (case_accepted _ _ _ _ d content w1 w2 w3); eauto.
Qed.

Lemma walkFn_cases (p : path) (d : option DirEntry) (err : option error)
    (st : state W) :
  walkFn_case p d err st (fst (fn p d err st)) (snd (fn p d err st)).
Proof. apply walkFn_cases_eq. now destruct (fn p d err st). Qed.
End Callback.

(** ** [walkDir], unfolded once *)

Section WalkDirFacts.
Context {S : Type}.
Variable fn : path -> option DirEntry -> option error -> S -> option error * S.

Lemma walkDir_File p nm f st :
  walkDir fn p (File nm f) st = fn p (Some (entry_of (File nm f))) None st.
Proof. simpl. now destruct (fn p _ None st). Qed.

Lemma walkDir_loop p es : forall st,
  (fix loop (dirs : list node) (st : S) : option error * S :=
     match dirs with
     | [] => (None, st)
     | d1 :: rest =>
         let '(err, st) := walkDir fn (Join p (node_name d1)) d1 st in
         match err with
         | Some SkipDir => (None, st)
         | Some e => (Some e, st)
         | None => loop rest st
         end
     end) es st = walkEntries fn p es st.
Proof.
  induction es as [|c es IH]; intros st; [reflexivity|].
  cbn [walkEntries]. destruct (walkDir fn (Join p (node_name c)) c st) as [[e|] st1].
  - reflexivity.
  - apply IH.
Qed.

Lemma walkDir_Dir p nm es rderr st :
  walkDir fn p (Dir nm es rderr) st =
    let d := Dir nm es rderr in
    let '(err, st) := fn p (Some (entry_of d)) None st in
    match err with
    | Some SkipDir => (None, st)
    | Some e => (Some e, st)
    | None =>
        let '(err, st) :=
          match rderr with
          | None => (None, st)
          | Some e => fn p (Some (entry_of d)) (Some (PathError "open" p e)) st
          end in
        match err with
        | Some SkipDir => (None, st)
        | Some e => (Some e, st)
        | None => walkEntries fn p es st
        end
    end.
Proof.
  cbn [walkDir]. cbv zeta.
  destruct (fn p _ None st) as [[e|] st1]; [reflexivity|].
  destruct rderr as [e|].
  - destruct (fn p _ (Some _) st1) as [[e'|] st2]; [reflexivity|].
    apply walkDir_loop.
  - apply walkDir_loop.
Qed.
End WalkDirFacts.

Lemma prefix_snoc_inv {A} (q p : list A) (x : A) :
  q `prefix_of` p ++ [x] -> q = p ++ [x] \/ q `prefix_of` p.
Proof.
  intros [k Hk]. destruct k as [|y k _] using rev_ind.
  - left. now rewrite app_nil_r in Hk.
  - right. rewrite app_assoc in Hk. apply app_inj_tail in Hk as [-> _].
    now exists k.
Qed.

(** ** Invariants of the walk *)

Section Invariant.
Context {W : Type} `{Writer W}.
Variable fs : node.
Variable ignoreDirs ignoreExts : gset string.
Variable langMap : gmap string string.
Variable root : node.

Abbreviation fn := (walkFn fs ignoreDirs ignoreExts langMap).

(** No directory on the way down to [p] has an ignored name. *)
Definition ancestors_kept (p : path) : Prop :=
  forall q, q `prefix_of` p -> q <> p -> path_name root q ∉ ignoreDirs.

Lemma ancestors_kept_root : ancestors_kept [].
Proof. intros q Hq Hne. apply prefix_nil_inv in Hq. contradiction. Qed.

Lemma ancestors_kept_snoc p x :
  ancestors_kept p -> path_name root p ∉ ignoreDirs -> ancestors_kept (p ++ [x]).
Proof.
  intros Hp Hn q Hq Hne. apply prefix_snoc_inv in Hq as [-> | Hq]; [done|].
  destruct (decide (q = p)) as [-> | Hqp]; [exact Hn | now apply Hp].
Qed.

(** The callback lets the walk descend only into a directory it keeps. *)
Lemma fn_descends p n st st' :
  fn p (Some (entry_of n)) None st = (None, st') ->
  node_is_dir n = true -> node_name n ∉ ignoreDirs.
Proof.
  intros Hfn Hdir. apply walkFn_cases_eq in Hfn.
  inversion Hfn; simplify_eq; cbn [entry_of IsDir Name] in *; try congruence.
  unfold set_Contains in *.
  match goal with
  | Hb : bool_decide _ = false |- _ => now apply bool_decide_eq_false in Hb
  end.
Qed.

(** With an error in hand the callback returns it. *)
Lemma fn_propagates p d e st :
  fn p d (Some e) st = (Some e, addEvents [EvVisit p] st).
Proof. reflexivity. Qed.

(** A property of the state that every invocation of the callback keeps
    is kept by the walk below any entry the walk can reach. *)
Lemma walkDir_invariant (I : state W -> Prop) :
  (forall p n err st r st',
      node_at root p n -> ancestors_kept p -> I st ->
      fn p (Some (entry_of n)) err st = (r, st') -> I st') ->
  forall n p st,
    node_at root p n -> ancestors_kept p -> I st ->
    I (snd (walkDir fn p n st)).
Proof.
  intros Hstep. induction n as [nm f | nm es e IHes] using node_ind';
    intros p st Hat Hanc HI.
  - rewrite walkDir_File.
    destruct (fn p _ None st) as [r st1] eqn:E. cbn. eauto.
  - rewrite walkDir_Dir. cbv zeta.
    destruct (fn p _ None st) as [r st1] eqn:E1.
    assert (HI1 : I st1) by eauto.
    destruct r as [err|]; [destruct err; exact HI1|].
    assert (Hkeep : path_name root p ∉ ignoreDirs).
    { rewrite <- (node_at_name _ _ _ Hat).
      eapply fn_descends; [exact E1 | reflexivity]. }
    destruct e as [e|].
    { rewrite fn_propagates. cbn.
      eapply Hstep; [exact Hat | exact Hanc | exact HI1 |].
      apply (fn_propagates p _ (PathError "open" p e)). }
    clear E1 HI. revert st1 HI1.
    enough (Hgen : forall es', (forall c, c ∈ es' -> c ∈ es) ->
              forall st1, I st1 -> I (snd (walkEntries fn p es' st1)))
      by (apply Hgen; auto).
    induction es' as [|c es' IH]; intros Hsub st1 HI1; [exact HI1|].
    cbn [walkEntries].
    assert (Hc : c ∈ es) by (apply Hsub; left).
    pose proof (proj1 (Forall_forall _ _) IHes c Hc
                  (Join p (node_name c)) st1
                  (node_at_snoc _ _ _ _ _ _ Hat Hc)
                  (ancestors_kept_snoc _ _ Hanc Hkeep) HI1) as HIc.
    destruct (walkDir fn (Join p (node_name c)) c st1) as [[err|] st2].
    + destruct err; exact HIc.
    + apply IH; [|exact HIc]. intros c' Hc'. apply Hsub. now right.
Qed.
End Invariant.

(** ** The resolved configuration *)

Lemma newStringSet_elem (items : list string) (item : string) :
  item ∈ newStringSet items <-> item ∈ items.
Proof.
  unfold newStringSet.
  enough (Hgen : forall acc : gset string,
             item ∈ foldl (fun s i => {[ i ]} ∪ s) acc items <->
             item ∈ items \/ item ∈ acc).
  { rewrite Hgen. split; [intros [Hin | Hin]; [exact Hin | inversion Hin] | now left]. }
  induction items as [|i items IH]; intros acc; cbn [foldl].
  - split; [now right | intros [Hin | Hin]; [inversion Hin | exact Hin]].
  - rewrite IH, elem_of_union, elem_of_singleton, elem_of_cons. tauto.
Qed.

Lemma set_Contains_newStringSet (items : list string) (item : string) :
  set_Contains (newStringSet items) item = bool_decide (item ∈ items).
Proof. unfold set_Contains. apply bool_decide_ext, newStringSet_elem. Qed.

Lemma range_insert_union (result m : gmap string string) :
  map_fold (fun k v r => <[k := v]> r) result m = m ∪ result.
Proof.
  apply (map_fold_weak_ind (fun r m => r = m ∪ result)).
  - now rewrite (left_id_L ∅ (∪)).
  - intros k v m' r Hk ->. now rewrite insert_union_l.
Qed.

Lemma mergeMaps_two (base override : gmap string string) :
  mergeMaps [base; override] = override ∪ base.
Proof.
  unfold mergeMaps. cbn [foldl]. rewrite !range_insert_union.
  now rewrite (right_id_L ∅ (∪)).
Qed.

Lemma mergeMaps_lookup (base override : gmap string string) (k : string) :
  mergeMaps [base; override] !! k =
    match override !! k with
    | Some v => Some v
    | None => base !! k
    end.
Proof.
  rewrite mergeMaps_two, lookup_union.
  destruct (override !! k), (base !! k); reflexivity.
Qed.

(** C8: in the language map of a run an override key has the override's
    value and a key of the base map alone has the base value; the ignore
    sets hold exactly the items of the preset's lists; and these are the
    sets and the map the run classifies with. *)
Theorem merged_configuration `{Writer W} (config : ProjectConfig) (env : Env)
    (w : W) (k item : string) :
  let langMap := mergeMaps [baseLangMap; LangMap config] in
  let ignoreDirs := newStringSet (IgnoreDirs config) in
  let ignoreExts := newStringSet (IgnoreExts config) in
  langMap !! k =
    match LangMap config !! k with
    | Some v => Some v
    | None => baseLangMap !! k
    end /\
  set_Contains ignoreDirs item = bool_decide (item ∈ IgnoreDirs config) /\
  set_Contains ignoreExts item = bool_decide (item ∈ IgnoreExts config) /\
  bundle config env w =
    WalkDir (walkFn (tree env) ignoreDirs ignoreExts langMap)
            (lstat_err env) (tree env) (mkState ∅ w []).
Proof.
  cbv zeta. split; [apply mergeMaps_lookup|].
  split; [apply set_Contains_newStringSet|].
  split; [apply set_Contains_newStringSet|reflexivity].
Qed.

Example override_wins_on_collision :
  mergeMaps [ baseLangMap; <[".md" := "text"]> (LangMap goPreset) ] !! ".md"
    = Some "text" /\
  mergeMaps [ baseLangMap; LangMap goPreset ] !! ".md" = Some "markdown" /\
  mergeMaps [ baseLangMap; LangMap goPreset ] !! ".go" = Some "go".
Proof. vm_compute. auto. Qed.

(** ** Language resolution *)

Lemma resolveLanguage_lookup (langMap : gmap string string) (ext name : string) :
  resolveLanguage langMap ext name =
    match langMap !! ext with
    | Some v => v
    | None =>
        match filenameLangMap !! name with
        | Some v => v
        | None => "text"
        end
    end.
Proof.
  unfold resolveLanguage, map_get.
  destruct (langMap !! ext); [reflexivity|].
  destruct (filenameLangMap !! name); reflexivity.
Qed.

Example Dockerfile_by_name :
  resolveLanguage (mergeMaps [baseLangMap; LangMap goPreset])
    (Ext "Dockerfile") "Dockerfile" = "dockerfile".
Proof. vm_compute. reflexivity. Qed.

Example lower_case_dockerfile_is_text :
  resolveLanguage (mergeMaps [baseLangMap; LangMap goPreset])
    (Ext "dockerfile") "dockerfile" = "text".
Proof. vm_compute. reflexivity. Qed.

Example upper_case_extension_is_text :
  resolveLanguage (mergeMaps [baseLangMap; LangMap goPreset])
    (Ext "MAIN.GO") "MAIN.GO" = "text".
Proof. vm_compute. reflexivity. Qed.

Example extension_beats_name :
  resolveLanguage (<[".mod" := "modfile"]> baseLangMap) (Ext "go.mod") "go.mod"
    = "modfile" /\
  resolveLanguage baseLangMap (Ext "go.mod") "go.mod" = "go-mod".
Proof. vm_compute. auto. Qed.

Example unknown_extension_is_text :
  resolveLanguage (mergeMaps [baseLangMap; LangMap goPreset])
    (Ext "notes.xyz") "notes.xyz" = "text".
Proof. vm_compute. reflexivity. Qed.

(** ** A whole run *)

Lemma readDirView_name (n : node) : node_name (readDirView n) = node_name n.
Proof. destruct n; reflexivity. Qed.

Lemma path_name_view (t : node) (p : path) :
  path_name (readDirView t) p = path_name t p.
Proof. unfold path_name. now rewrite readDirView_name. Qed.

Section Run.
Context {W : Type} `{Writer W}.
Variable config : ProjectConfig.
Variable env : Env.

Definition runDirs : gset string := newStringSet (IgnoreDirs config).
Definition runExts : gset string := newStringSet (IgnoreExts config).
Definition runLangs : gmap string string :=
  mergeMaps [baseLangMap; LangMap config].

Abbreviation runFn := (walkFn (tree env) runDirs runExts runLangs).
Abbreviation kept := (ancestors_kept runDirs (readDirView (tree env))).

(** A property of the state that every invocation of the callback keeps
    holds at the end of the run if it holds at its start. *)
Lemma bundle_invariant (I : state W -> Prop) (w : W) :
  (forall p n err st r st',
      node_at (readDirView (tree env)) p n -> kept p -> I st ->
      runFn p (Some (entry_of n)) err st = (r, st') -> I st') ->
  I (mkState ∅ w []) ->
  I (snd (bundle config env w)).
Proof.
  intros Hstep H0. unfold bundle, WalkDir.
  fold runDirs runExts runLangs.
  destruct (lstat_err env) as [e|].
  - rewrite fn_propagates. cbn.
    eapply (Hstep [] (readDirView (tree env)));
      [constructor | apply ancestors_kept_root | exact H0 |].
    apply (fn_propagates _ _ _ _ [] _ (PathError "lstat" [] e)).
  - pose proof (walkDir_invariant (tree env) runDirs runExts runLangs
                  (readDirView (tree env)) I Hstep
                  (readDirView (tree env)) [] (mkState ∅ w [])
                  (at_here _) (ancestors_kept_root _ _) H0) as HI.
    destruct (walkDir runFn [] (readDirView (tree env)) (mkState ∅ w []))
      as [[err|] st']; [destruct err|]; exact HI.
Qed.

(** Everything a run does at a path happens below kept directories. *)
Definition below_kept (st : state W) : Prop :=
  (forall ev, ev ∈ trace st -> kept (event_path ev)) /\
  (forall reason q, q ∈ default [] (skippedFiles st !! reason) -> kept q).

Lemma addSkip_elem (reason reason' : string) (p q : path) (st : state W) :
  q ∈ default [] (skippedFiles (addSkip reason p st) !! reason') ->
  q ∈ default [] (skippedFiles st !! reason') \/ q = p.
Proof.
  unfold addSkip. cbn [skippedFiles].
  destruct (decide (reason = reason')) as [<- | Hne].
  - rewrite lookup_insert_eq. cbn. rewrite elem_of_app, list_elem_of_singleton.
    tauto.
  - rewrite lookup_insert_ne by exact Hne. now left.
Qed.

Lemma bundle_below_kept (w : W) : below_kept (snd (bundle config env w)).
Proof.
  apply bundle_invariant.
  - intros p n err st r st' Hat Hk [Htr Hled] Hfn.
    apply walkFn_cases_eq in Hfn.
    assert (Hevs : forall evs, Forall (fun ev => event_path ev = p) evs ->
              forall ev, ev ∈ trace st ++ evs -> kept (event_path ev)).
    { intros evs Hall ev [Hin | Hin]%elem_of_app; [now apply Htr|].
      rewrite Forall_forall in Hall. now rewrite (Hall ev Hin). }
    assert (Hcalls : Forall (fun ev => event_path ev = p)
                       (binaryCheck_calls (tree env) p)).
    { unfold binaryCheck_calls. destruct (os_Open (tree env) p);
        repeat constructor. }
    assert (Hskip : forall reason (st0 : state W),
               (forall reason' q,
                   q ∈ default [] (skippedFiles st0 !! reason') -> kept q) ->
               forall reason' q,
                 q ∈ default [] (skippedFiles (addSkip reason p st0) !! reason') ->
                 kept q).
    { intros reason st0 Hst0 reason' q [Hq | ->]%addSkip_elem; eauto. }
    inversion Hfn; subst; split;
      unfold addEvents, setWriter in *; cbn [trace skippedFiles writer addSkip] in *;
      try exact Hled;
      try (apply Hskip; exact Hled);
      try (rewrite <- ?app_assoc; apply Hevs;
           repeat first [ apply Forall_app; split
                        | apply Forall_cons; split; [reflexivity|]
                        | exact Hcalls | apply List.Forall_nil ]).
  - split; cbn.
    + intros ev Hev. inversion Hev.
    + intros reason q. rewrite lookup_empty. cbn. intros Hq. inversion Hq.
Qed.
End Run.

(** ** Pruned directories *)

Lemma walkDir_pruned `{Writer W} (fs : node) (iD iE : gset string)
    (lm : gmap string string) (p : path) (nm : string) (es : list node)
    (e : option errno) (st : state W) :
  nm ∈ iD ->
  walkDir (walkFn fs iD iE lm) p (Dir nm es e) st =
    (None, addSkip "Ignored Directory" p (addEvents [EvVisit p] st)).
Proof.
  intros Hnm. rewrite walkDir_Dir. cbv zeta.
  unfold walkFn, bind, tell, skip, ret, set_Contains.
  cbn [entry_of IsDir Name node_is_dir node_name].
  now rewrite (bool_decide_eq_true_2 _ Hnm).
Qed.

(** C2: the walk of a directory with an ignored name is one visit and one
    ledger entry, its own path under the ignored-directory reason, whatever
    the directory holds; and in the whole run nothing happens at any path
    beneath it: no visit, no system call, no record, no ledger entry under
    any reason. *)
Theorem ignored_directory_pruned `{Writer W} (config : ProjectConfig)
    (env : Env) (w : W) (p : path) (nm : string) (es : list node)
    (e : option errno) :
  node_at (tree env) p (Dir nm es e) ->
  nm ∈ IgnoreDirs config ->
  let final := snd (bundle config env w) in
  (forall st,
      walkDir (walkFn (tree env) (runDirs config) (runExts config) (runLangs config))
        p (readDirView (Dir nm es e)) st =
      (None, addSkip "Ignored Directory" p (addEvents [EvVisit p] st))) /\
  (forall q, p `prefix_of` q -> q <> p ->
     (forall ev, ev ∈ trace final -> event_path ev <> q) /\
     (forall r, EvRecord q r ∉ trace final) /\
     (forall reason, q ∉ default [] (skippedFiles final !! reason))).
Proof.
  intros Hat Hnm final.
  assert (Hset : nm ∈ runDirs config) by now apply newStringSet_elem.
  split.
  { intros st. cbn [readDirView]. now apply walkDir_pruned. }
  intros q Hpq Hne.
  destruct (bundle_below_kept config env w) as [Htr Hled]. fold final in Htr, Hled.
  assert (Hnot : ~ ancestors_kept (runDirs config) (readDirView (tree env)) q).
  { intros Hk. apply (Hk p Hpq); [congruence|].
    now rewrite path_name_view, <- (node_at_name _ _ _ Hat). }
  split; [|split].
  - intros ev Hev Hq. apply Hnot. rewrite <- Hq. now apply Htr.
  - intros r Hr. apply Hnot. exact (Htr _ Hr).
  - intros reason Hq. apply Hnot. exact (Hled _ _ Hq).
Qed.

Definition goEnv : Env := quietEnv scenarioTree.

Lemma ignored_directory_pruned_witness :
  let final := snd (bundle goPreset goEnv (mkMem [])) in
  (forall st : state MemWriter,
      walkDir (walkFn (tree goEnv) (runDirs goPreset) (runExts goPreset)
                 (runLangs goPreset))
        ["vendor"]
        (readDirView (Dir "vendor" [ File "b.go" (text "package b") ] None)) st =
      (None, addSkip "Ignored Directory" ["vendor"]
               (addEvents [EvVisit ["vendor"]] st))) /\
  (forall q, ["vendor"] `prefix_of` q -> q <> ["vendor"] ->
     (forall ev, ev ∈ trace final -> event_path ev <> q) /\
     (forall r, EvRecord q r ∉ trace final) /\
     (forall reason, q ∉ default [] (skippedFiles final !! reason))).
Proof.
  apply (ignored_directory_pruned goPreset goEnv (mkMem []) ["vendor"] "vendor"
           [ File "b.go" (text "package b") ] None).
  - refine (at_below "." _ None
              (Dir "vendor" [ File "b.go" (text "package b") ] None) [] _ _
              (at_here _)).
    left.
  - vm_compute. repeat constructor.
Defined.

(** C9: when the root directory itself has an ignored name, the run
    produces no record and leaves one ledger entry: the root path under the
    ignored-directory reason. *)
Theorem ignored_root_pruned `{Writer W} (config : ProjectConfig) (env : Env)
    (w : W) (nm : string) (es : list node) (e : option errno) :
  lstat_err env = None ->
  tree env = Dir nm es e ->
  nm ∈ IgnoreDirs config ->
  bundle config env w =
    (None, mkState {[ "Ignored Directory" := [ [] ] ]} w [EvVisit []]) /\
  records_of (trace (snd (bundle config env w))) = [].
Proof.
  intros Hl Ht Hnm.
  assert (Hrun : bundle config env w =
            (None, mkState {[ "Ignored Directory" := [ [] ] ]} w [EvVisit []])).
  { unfold bundle, WalkDir. rewrite Hl, Ht. cbn [readDirView].
    rewrite walkDir_pruned by now apply newStringSet_elem.
    unfold addSkip, addEvents. cbn. rewrite lookup_empty. cbn.
    now rewrite insert_empty. }
  split; [exact Hrun|]. now rewrite Hrun.
Qed.

Definition dotGitRoot : node :=
  Dir ".git" [ File "config" (text "[core]"); Dir "objects" [] None ] None.

Lemma ignored_root_pruned_witness :
  bundle goPreset (quietEnv dotGitRoot) (mkMem []) =
    (None, mkState {[ "Ignored Directory" := [ [] ] ]} (mkMem []) [EvVisit []]) /\
  records_of (trace (snd (bundle goPreset (quietEnv dotGitRoot) (mkMem [])))) = [].
Proof.
  apply (ignored_root_pruned goPreset (quietEnv dotGitRoot) (mkMem []) ".git"
           [ File "config" (text "[core]"); Dir "objects" [] None ] None).
  - reflexivity.
  - reflexivity.
  - vm_compute. repeat constructor.
Defined.

(** ** Ignored extensions and names *)

Definition is_visit (ev : event) : bool :=
  match ev with EvVisit _ => true | _ => false end.

Lemma binaryCheck_calls_path (fs : node) (p : path) :
  Forall (fun ev => event_path ev = p) (binaryCheck_calls fs p).
Proof.
  unfold binaryCheck_calls. destruct (os_Open fs p); repeat constructor.
Qed.

Section IgnoredNames.
Context {W : Type} `{Writer W}.
Variable config : ProjectConfig.
Variable env : Env.

(** Whatever a run does at a path beyond visiting it, it does at a path
    whose name is not ignored. *)
Definition touches_unignored (st : state W) : Prop :=
  forall ev, ev ∈ trace st -> is_visit ev = false ->
    ignoredName (runExts config)
      (path_name (readDirView (tree env)) (event_path ev)) = false.

Lemma bundle_touches_unignored (w : W) :
  touches_unignored (snd (bundle config env w)).
Proof.
  apply bundle_invariant.
  - intros p n err st r st' Hat Hk Hst Hfn.
    apply walkFn_cases_eq in Hfn.
    pose proof (node_at_name _ _ _ Hat) as Hname.
    pose proof (binaryCheck_calls_path (tree env) p) as Hcalls.
    rewrite Forall_forall in Hcalls.
    assert (Hnew : forall evs,
               ignoredName (runExts config) (node_name n) = false ->
               Forall (fun ev => event_path ev = p) evs ->
               forall ev, ev ∈ trace st ++ evs -> is_visit ev = false ->
                 ignoredName (runExts config)
                   (path_name (readDirView (tree env)) (event_path ev)) = false).
    { intros evs Hig Hall ev [Hin | Hin]%elem_of_app Hv; [now apply Hst|].
      rewrite Forall_forall in Hall. now rewrite (Hall ev Hin), <- Hname. }
    assert (Hvisit : forall ev, ev ∈ trace st ++ [EvVisit p] ->
               is_visit ev = false ->
               ignoredName (runExts config)
                 (path_name (readDirView (tree env)) (event_path ev)) = false).
    { intros ev [Hin | Hin]%elem_of_app Hv; [now apply Hst|].
      apply list_elem_of_singleton in Hin. subst ev. discriminate. }
    inversion Hfn; simplify_eq; unfold touches_unignored;
      unfold addEvents, setWriter, addSkip; cbn [trace skippedFiles writer];
      cbn [entry_of Name] in *;
      try exact Hvisit;
      rewrite <- ?app_assoc;
      (apply Hnew; [assumption|]);
      repeat first [ apply Forall_app; split
                   | apply Forall_cons; split; [reflexivity|]
                   | apply binaryCheck_calls_path | apply List.Forall_nil ].
  - intros ev Hev. inversion Hev.
Qed.
End IgnoredNames.

(** C3: a file whose extension or full name is in [ignoreExts] is skipped
    at once, under the ignored-extension reason; in the whole run the only
    thing that happens at its path is the visit: it is never opened, read or
    written out. *)
Theorem ignored_extension_never_read `{Writer W} (config : ProjectConfig)
    (env : Env) (w : W) (p : path) (nm : string) (f : file) :
  node_at (tree env) p (File nm f) ->
  Ext nm ∈ IgnoreExts config \/ nm ∈ IgnoreExts config ->
  (forall st,
      walkFn (tree env) (runDirs config) (runExts config) (runLangs config)
        p (Some (entry_of (File nm f))) None st =
      (None, addSkip "Ignored Extension/File" p (addEvents [EvVisit p] st))) /\
  (forall ev, ev ∈ trace (snd (bundle config env w)) ->
     event_path ev = p -> ev = EvVisit p).
Proof.
  intros Hat Hig.
  assert (Hign : ignoredName (runExts config) nm = true).
  { unfold ignoredName, runExts. rewrite !set_Contains_newStringSet.
    apply orb_true_iff. destruct Hig as [Hig | Hig]; [left | right];
      now apply bool_decide_eq_true. }
  split.
  - intros st. unfold walkFn, bind, tell, skip, ret.
    cbn [entry_of IsDir Name node_is_dir node_name].
    fold (ignoredName (runExts config) nm). now rewrite Hign.
  - intros ev Hev Hp.
    pose proof (bundle_touches_unignored config env w ev Hev) as Hun.
    rewrite Hp, path_name_view, <- (node_at_name _ _ _ Hat) in Hun.
    cbn [node_name] in Hun.
    destruct ev; cbn in Hp; subst; try reflexivity;
      specialize (Hun eq_refl); congruence.
Qed.

Definition genericPreset : ProjectConfig :=
  default (mkConfig [] [] ∅) (projectConfigs !! "generic").

Definition logTree : node :=
  Dir "." [ File "debug.log" (text "started"); File "main.go" (text "package main") ]
      None.

Lemma ignored_extension_never_read_witness :
  (forall st : state MemWriter,
      walkFn (tree (quietEnv logTree)) (runDirs genericPreset)
        (runExts genericPreset) (runLangs genericPreset) ["debug.log"]
        (Some (entry_of (File "debug.log" (text "started")))) None st =
      (None, addSkip "Ignored Extension/File" ["debug.log"]
               (addEvents [EvVisit ["debug.log"]] st))) /\
  (forall ev,
     ev ∈ trace (snd (bundle genericPreset (quietEnv logTree) (mkMem []))) ->
     event_path ev = ["debug.log"] -> ev = EvVisit ["debug.log"]).
Proof.
  apply (ignored_extension_never_read genericPreset (quietEnv logTree)
           (mkMem []) ["debug.log"] "debug.log" (text "started")).
  - refine (at_below "." _ None (File "debug.log" (text "started")) [] _ _
              (at_here _)).
    left.
  - left. vm_compute. repeat constructor.
Defined.

(** ** The language tag of a record *)

Section Tags.
Context {W : Type} `{Writer W}.
Variable config : ProjectConfig.
Variable env : Env.

(** Every record was written for the path it is listed under, with the
    tag resolved from the name at that path. *)
Definition records_tagged (st : state W) : Prop :=
  forall q r, EvRecord q r ∈ trace st ->
    let name := path_name (readDirView (tree env)) q in
    relativePath r = Rel q /\
    languageTag r = resolveLanguage (runLangs config) (Ext name) name.

Lemma bundle_records_tagged (w : W) :
  records_tagged (snd (bundle config env w)).
Proof.
  apply bundle_invariant.
  - intros p n err st res st' Hat Hk Hst Hfn.
    apply walkFn_cases_eq in Hfn.
    pose proof (node_at_name _ _ _ Hat) as Hname.
    assert (Hold : forall evs,
               Forall (fun ev => forall q r, ev <> EvRecord q r) evs ->
               forall q r, EvRecord q r ∈ trace st ++ evs ->
                 let name := path_name (readDirView (tree env)) q in
                 relativePath r = Rel q /\
                 languageTag r =
                   resolveLanguage (runLangs config) (Ext name) name).
    { intros evs Hall q r [Hin | Hin]%elem_of_app; [now apply Hst|].
      rewrite Forall_forall in Hall. now destruct (Hall _ Hin q r). }
    assert (Hcalls : Forall (fun ev => forall q r, ev <> EvRecord q r)
                       (binaryCheck_calls (tree env) p)).
    { unfold binaryCheck_calls. destruct (os_Open (tree env) p);
        repeat constructor; discriminate. }
    inversion Hfn; simplify_eq; unfold records_tagged;
      unfold addEvents, setWriter, addSkip; cbn [trace skippedFiles writer];
      cbn [entry_of Name] in *; rewrite <- ?app_assoc;
      try (apply Hold;
           solve [ repeat first [ apply Forall_app; split
                                | apply Forall_cons; split; [discriminate|]
                                | exact Hcalls | apply List.Forall_nil ] ]).
    intros q r0 Hin.
    apply elem_of_app in Hin as [Hin | Hin]; [now apply Hst|].
    apply elem_of_cons in Hin as [Hin | Hin]; [discriminate|].
    apply elem_of_app in Hin as [Hin | Hin].
    { rewrite Forall_forall in Hcalls. now destruct (Hcalls _ Hin q r0). }
    repeat (apply elem_of_cons in Hin as [Hin | Hin]; [try discriminate|]).
    2: inversion Hin.
    injection Hin as -> ->.
    cbn [relativePath languageTag]. rewrite <- Hname. now subst lang.
  - intros q r Hin. inversion Hin.
Qed.
End Tags.

(** C4: the tag of every record of a run is resolved from the name of its
    file: the merged language map's value for the extension when the
    extension is a key; otherwise the well-known-filename table's value for
    the exact name when the name is a key; otherwise ["text"]. *)
Theorem language_tag_precedence `{Writer W} (config : ProjectConfig) (env : Env)
    (w : W) (q : path) (r : BundleRecord) :
  EvRecord q r ∈ trace (snd (bundle config env w)) ->
  let name := path_name (tree env) q in
  languageTag r =
    match mergeMaps [baseLangMap; LangMap config] !! Ext name with
    | Some byExtension => byExtension
    | None =>
        match filenameLangMap !! name with
        | Some byName => byName
        | None => "text"
        end
    end.
Proof.
  intros Hin name.
  destruct (bundle_records_tagged config env w q r Hin) as [_ Htag].
  rewrite Htag, resolveLanguage_lookup, path_name_view. reflexivity.
Qed.

Lemma language_tag_precedence_witness :
  let name := path_name (tree goEnv) ["a.go"] in
  languageTag (mkRecord "a.go" "go" (list_byte_of_string "package a")) =
    match mergeMaps [baseLangMap; LangMap goPreset] !! Ext name with
    | Some byExtension => byExtension
    | None =>
        match filenameLangMap !! name with
        | Some byName => byName
        | None => "text"
        end
    end.
Proof.
  apply (language_tag_precedence goPreset goEnv (mkMem []) ["a.go"]).
  vm_compute. repeat constructor.
Defined.

(** ** Project types *)

Lemma landmark_types_are_presets (landmark projectType : string) :
  landmarkFiles !! landmark = Some projectType ->
  is_Some (projectConfigs !! projectType).
Proof.
  unfold landmarkFiles. cbn [list_to_map foldr fst snd]. intros Hl.
  repeat (apply lookup_insert_Some in Hl as [[_ <-] | [_ Hl]];
          [eexists; vm_compute; reflexivity|]).
  rewrite lookup_empty in Hl. discriminate.
Qed.

Lemma first_landmark_elem (stat : string -> bool) (order : list (string * string))
    (projectType : string) :
  first_landmark stat order = Some projectType ->
  exists landmark, (landmark, projectType) ∈ order /\ stat landmark = true.
Proof.
  induction order as [|[l t] order IH]; cbn [first_landmark]; [discriminate|].
  destruct (stat l) eqn:Hs.
  - intros [= <-]. exists l. split; [left | exact Hs].
  - intros Hf. destruct (IH Hf) as (l' & Hin & Hs'). exists l'.
    split; [now right | exact Hs'].
Qed.

Lemma first_landmark_none (stat : string -> bool) (order : list (string * string)) :
  (forall landmark, stat landmark = false) -> first_landmark stat order = None.
Proof.
  intros Hs. induction order as [|[l t] order IH]; cbn [first_landmark];
    [reflexivity|]. now rewrite Hs.
Qed.

Lemma detectProjectType_is_preset (order : list (string * string))
    (stat : string -> bool) (matches : list string) :
  order ≡ₚ map_to_list landmarkFiles ->
  is_Some (projectConfigs !! detectProjectType order stat matches).
Proof.
  intros Hperm. unfold detectProjectType.
  destruct (first_landmark stat order) as [t|] eqn:Hf.
  - apply first_landmark_elem in Hf as (l & Hin & _).
    rewrite Hperm in Hin. apply elem_of_map_to_list in Hin.
    now apply landmark_types_are_presets with l.
  - destruct (0 <? length matches)%nat; eexists; vm_compute; reflexivity.
Qed.

(** C10: with [-type auto] the detected type is a key of the preset table,
    ["generic"] when no landmark is found, so the run does not end in the
    invalid-project-type error; that error needs a type given explicitly
    that is not a key of the table. *)
Theorem auto_type_is_valid `{Writer W} (env : Env) :
  landmark_order env ≡ₚ map_to_list landmarkFiles ->
  is_Some (projectConfigs !! finalProjectType "auto" env) /\
  ((forall landmark, stat_ok env landmark = false) ->
   xcodeproj_matches env = [] -> finalProjectType "auto" env = "generic") /\
  (forall (w : W) t, main "auto" env w <> InvalidProjectType t) /\
  (forall projectType (w : W) t,
      main projectType env w = InvalidProjectType t ->
      projectType <> "auto" /\ t = projectType /\
      projectConfigs !! projectType = None).
Proof.
  intros Hperm.
  assert (Hauto : is_Some (projectConfigs !! finalProjectType "auto" env)).
  { unfold finalProjectType. cbn [String.eqb Ascii.eqb Bool.eqb].
    now apply detectProjectType_is_preset. }
  assert (Hmain : forall (w : W) t, main "auto" env w <> InvalidProjectType t).
  { intros w t. unfold main. destruct Hauto as [config ->].
    destruct (create_err env); [discriminate|].
    destruct (bundle config env w) as [[e|] st]; discriminate. }
  split; [exact Hauto|]. split; [|split; [exact Hmain|]].
  - intros Hstat Hglob. unfold finalProjectType, detectProjectType.
    cbn [String.eqb Ascii.eqb Bool.eqb].
    now rewrite first_landmark_none, Hglob.
  - intros projectType w t Hinv.
    destruct (String.eqb_spec projectType "auto") as [-> | Hne].
    { now destruct (Hmain w t). }
    split; [exact Hne|]. unfold main, finalProjectType in Hinv.
    rewrite (proj2 (String.eqb_neq _ _) Hne) in Hinv.
    destruct (projectConfigs !! projectType) as [config|] eqn:Hcfg.
    2:{ injection Hinv as <-. split; reflexivity. }
    destruct (create_err env); [discriminate Hinv|].
    destruct (bundle config env w) as [[e|] st]; discriminate Hinv.
Qed.

Lemma auto_type_is_valid_witness :
  is_Some (projectConfigs !! finalProjectType "auto" goEnv) /\
  ((forall landmark, stat_ok goEnv landmark = false) ->
   xcodeproj_matches goEnv = [] -> finalProjectType "auto" goEnv = "generic") /\
  (forall (w : MemWriter) t, main "auto" goEnv w <> InvalidProjectType t) /\
  (forall projectType (w : MemWriter) t,
      main projectType goEnv w = InvalidProjectType t ->
      projectType <> "auto" /\ t = projectType /\
      projectConfigs !! projectType = None).
Proof. apply (auto_type_is_valid goEnv). reflexivity. Defined.

Example unknown_type_is_fatal :
  main "python" goEnv (mkMem []) = InvalidProjectType "python".
Proof. vm_compute. reflexivity. Qed.

Example go_mod_detects_go :
  finalProjectType "auto"
    (mkEnv (map_to_list landmarkFiles) (String.eqb "go.mod") [] None None
       scenarioTree) = "go".
Proof. vm_compute. reflexivity. Qed.

(** ** Read errors *)

Section ReadErrors.
Context {W : Type} `{Writer W}.
Variable fs : node.
Variable ignoreDirs ignoreExts : gset string.
Variable langMap : gmap string string.

Abbreviation cb := (walkFn fs ignoreDirs ignoreExts langMap).

(** An error of [os.Open] or of the [Read] in [isBinaryFile]. *)
Definition check_fails (p : path) (e : error) : Prop :=
  os_Open fs p = inr e \/
  exists h bs, os_Open fs p = inl h /\ file_Read h 1024 = (bs, Some e) /\ e <> EOF.

(** An error of [os.ReadFile], on a file that passed the binary check. *)
Definition read_fails (p : path) (e : error) : Prop :=
  binaryCheck fs p = (false, None) /\ os_ReadFile fs p = inr e.

Lemma check_fails_binaryCheck p e :
  check_fails p e -> binaryCheck fs p = (false, Some e).
Proof.
  unfold binaryCheck. intros [-> | (h & bs & -> & -> & Hne)]; [reflexivity|].
  destruct e; congruence.
Qed.

Lemma cb_check_failed p nm f st e :
  ignoredName ignoreExts nm = false ->
  binaryCheck fs p = (false, Some e) ->
  cb p (Some (entry_of (File nm f))) None st =
    (None, addEvents [EvLog (CouldNotCheck p e)]
             (addSkip "File Read Error" p
                (addEvents (EvVisit p :: binaryCheck_calls fs p) st))).
Proof.
  intros Hig Hcheck.
  destruct (cb p (Some (entry_of (File nm f))) None st) as [r st'] eqn:Hcb.
  apply walkFn_cases_eq in Hcb.
  inversion Hcb; simplify_eq; cbn [entry_of Name IsDir node_is_dir node_name] in *;
    congruence.
Qed.

Lemma cb_read_failed p nm f st e :
  ignoredName ignoreExts nm = false ->
  read_fails p e ->
  cb p (Some (entry_of (File nm f))) None st =
    (None, addEvents [EvLog (CouldNotRead p e)]
             (addSkip "File Read Error" p
                (addEvents (EvVisit p :: binaryCheck_calls fs p ++
                              [EvPrintBundling p; EvReadFile p]) st))).
Proof.
  intros Hig [Hcheck Hread].
  destruct (cb p (Some (entry_of (File nm f))) None st) as [r st'] eqn:Hcb.
  apply walkFn_cases_eq in Hcb.
  inversion Hcb; simplify_eq; cbn [entry_of Name IsDir node_is_dir node_name] in *;
    congruence.
Qed.

(** C6: when the binary check or the full read of a file fails, the
    callback returns no error; the path is appended to the ledger under
    "File Read Error", the error is logged, nothing is written and no
    record is produced; and the loop over the directory goes on with the
    next entry from that state. *)
Theorem read_error_skips_file (parent : path) (nm : string) (f : file)
    (rest : list node) (st : state W) (e : error) :
  let p := Join parent nm in
  ignoredName ignoreExts nm = false ->
  check_fails p e \/ read_fails p e ->
  exists calls line,
    let st' :=
      addEvents [EvLog line]
        (addSkip "File Read Error" p (addEvents (EvVisit p :: calls) st)) in
    (line = CouldNotCheck p e \/ line = CouldNotRead p e) /\
    Forall (fun ev => forall q r, ev <> EvRecord q r) calls /\
    cb p (Some (entry_of (File nm f))) None st = (None, st') /\
    writer st' = writer st /\
    walkEntries cb parent (File nm f :: rest) st = walkEntries cb parent rest st'.
Proof.
  intros p Hig [Hfail | Hfail].
  - exists (binaryCheck_calls fs p), (CouldNotCheck p e). cbv zeta.
    pose proof (cb_check_failed p nm f st e Hig
                  (check_fails_binaryCheck _ _ Hfail)) as Hcb.
    split; [now left|]. split.
    { unfold binaryCheck_calls. destruct (os_Open fs p);
        repeat constructor; discriminate. }
    split; [exact Hcb|]. split; [reflexivity|].
    cbn [walkEntries]. rewrite walkDir_File. cbn [node_name].
    fold p. now rewrite Hcb.
  - exists (binaryCheck_calls fs p ++ [EvPrintBundling p; EvReadFile p]),
           (CouldNotRead p e). cbv zeta.
    pose proof (cb_read_failed p nm f st e Hig Hfail) as Hcb.
    split; [now right|]. split.
    { apply Forall_app. split.
      - unfold binaryCheck_calls. destruct (os_Open fs p);
          repeat constructor; discriminate.
      - repeat constructor; discriminate. }
    split; [exact Hcb|]. split; [reflexivity|].
    cbn [walkEntries]. rewrite walkDir_File. cbn [node_name].
    fold p. now rewrite Hcb.
Qed.
End ReadErrors.

(** An unreadable file between two readable ones. *)
Definition lockedTree : node :=
  Dir "." [ File "a.go" (text "package a");
            File "locked.go" (mkFile [] (Some EACCES) None None);
            File "z.go" (text "package z") ] None.

Lemma read_error_skips_file_witness :
  let p := Join [] "locked.go" in
  exists calls line,
    let st' :=
      addEvents [EvLog line]
        (addSkip "File Read Error" p (addEvents (EvVisit p :: calls) emptyState)) in
    (line = CouldNotCheck p (PathError "open" ["locked.go"] EACCES) \/
     line = CouldNotRead p (PathError "open" ["locked.go"] EACCES)) /\
    Forall (fun ev => forall q r, ev <> EvRecord q r) calls /\
    walkFn lockedTree (runDirs goPreset) (runExts goPreset) (runLangs goPreset)
      p (Some (entry_of (File "locked.go" (mkFile [] (Some EACCES) None None))))
      None emptyState = (None, st') /\
    writer st' = writer emptyState /\
    walkEntries
      (walkFn lockedTree (runDirs goPreset) (runExts goPreset) (runLangs goPreset))
      [] (File "locked.go" (mkFile [] (Some EACCES) None None)
            :: [ File "z.go" (text "package z") ]) emptyState =
    walkEntries
      (walkFn lockedTree (runDirs goPreset) (runExts goPreset) (runLangs goPreset))
      [] [ File "z.go" (text "package z") ] st'.
Proof.
  apply (read_error_skips_file lockedTree (runDirs goPreset) (runExts goPreset)
           (runLangs goPreset) [] "locked.go"
           (mkFile [] (Some EACCES) None None)
           [ File "z.go" (text "package z") ] emptyState
           (PathError "open" ["locked.go"] EACCES)).
  - vm_compute. reflexivity.
  - left. left. reflexivity.
Defined.

Example read_error_does_not_stop_the_walk :
  let '(err, st) := bundle goPreset (quietEnv lockedTree) (mkMem []) in
  err = None /\
  map_to_list (skippedFiles st) = [ ("File Read Error", [ ["locked.go"] ]) ] /\
  List.map relativePath (records_of (trace st)) = [ "a.go"; "z.go" ].
Proof. vm_compute. repeat split. Qed.

Example full_read_error_does_not_stop_the_walk :
  let '(err, st) :=
    bundle goPreset
      (quietEnv (Dir "." [ File "a.go" (mkFile [x41] None None (Some EIO));
                           File "z.go" (text "package z") ] None))
      (mkMem []) in
  err = None /\
  map_to_list (skippedFiles st) = [ ("File Read Error", [ ["a.go"] ]) ] /\
  List.map relativePath (records_of (trace st)) = [ "z.go" ].
Proof. vm_compute. repeat split. Qed.

(** ** What aborts a run *)

(** No directory of the tree fails to enumerate. *)
Fixpoint enumerable (n : node) : bool :=
  match n with
  | File _ _ => true
  | Dir _ es e =>
      match e with None => forallb enumerable es | Some _ => false end
  end.

Lemma enumerable_node_at (t : node) (p : path) (n : node) :
  node_at t p n -> enumerable t = true -> enumerable n = true.
Proof.
  induction 1 as [n | nm es e c q n Hc Hat IH]; [auto|].
  cbn [enumerable]. destruct e; [discriminate|].
  rewrite forallb_forall. intros Hall. apply IH, Hall.
  now apply list_elem_of_In.
Qed.

Lemma sortEntries_elem (c : node) (es : list node) :
  c ∈ sortEntries es <-> c ∈ es.
Proof. unfold sortEntries. now rewrite merge_sort_Permutation. Qed.

(** An entry of the tree as the walk reads it is an entry of the tree. *)
Lemma node_at_view_inv (r : node) (p : path) (n' : node) :
  node_at r p n' ->
  forall t, r = readDirView t ->
  exists n, node_at t p n /\ n' = readDirView n.
Proof.
  induction 1 as [n' | nm es' e c' q n' Hc' Hat IH]; intros t Ht.
  - exists t. split; [constructor | exact Ht].
  - destruct t as [nm0 f | nm0 es e0]; [discriminate|].
    cbn [readDirView] in Ht. injection Ht as -> -> ->.
    apply sortEntries_elem, list_elem_of_In, in_map_iff in Hc'
      as (c & <- & Hc%list_elem_of_In).
    destruct (IH c eq_refl) as (n & Hn & ->).
    exists n. split; [|reflexivity].
    rewrite readDirView_name. now apply at_below.
Qed.

Section Fatal.
Context {W : Type} `{Writer W}.
Variable fs : node.
Variable ignoreDirs ignoreExts : gset string.
Variable langMap : gmap string string.
Variable root : node.

Abbreviation visit := (walkFn fs ignoreDirs ignoreExts langMap).

(** The error of a directory of the tree that does not enumerate. *)
Definition enumeration_error (t : node) (e : error) : Prop :=
  exists q nm es errno,
    node_at t q (Dir nm es (Some errno)) /\ e = PathError "open" q errno.

(** The error of a write. *)
Definition write_error (e : error) : Prop :=
  exists (w0 : W) bs w', Write w0 bs = (w', Some e).

Lemma visit_file_error p nm f st e st' :
  visit p (Some (entry_of (File nm f))) None st = (Some e, st') ->
  write_error e.
Proof.
  intros Hv. apply walkFn_cases_eq in Hv.
  inversion Hv; simplify_eq; cbn [entry_of IsDir node_is_dir] in *;
    try discriminate.
  now exists w0, bs, w'.
Qed.

Lemma visit_dir_error p nm es rderr st e st' :
  visit p (Some (entry_of (Dir nm es rderr))) None st = (Some e, st') ->
  e = SkipDir.
Proof.
  intros Hv. apply walkFn_cases_eq in Hv.
  inversion Hv; simplify_eq; cbn [entry_of IsDir node_is_dir] in *;
    try discriminate.
  reflexivity.
Qed.

(** An error that comes out of the walk below an entry of the tree is the
    error of a directory that does not enumerate or the error of a write. *)
Lemma walkDir_error :
  forall n p st e st',
    node_at root p n ->
    walkDir visit p n st = (Some e, st') ->
    enumeration_error root e \/ write_error e.
Proof.
  induction n as [nm f | nm es rderr IHes] using node_ind';
    intros p st e st' Hat Hw.
  - rewrite walkDir_File in Hw. right. now apply visit_file_error in Hw.
  - rewrite walkDir_Dir in Hw. cbv zeta in Hw.
    destruct (visit p _ None st) as [r st1] eqn:E1.
    destruct r as [err|].
    { apply visit_dir_error in E1 as ->. discriminate. }
    destruct rderr as [errno|].
    { rewrite fn_propagates in Hw. injection Hw as <- <-.
      left. now exists p, nm, es, errno. }
    clear E1. revert st1 Hw.
    enough (Hgen : forall es', (forall c, c ∈ es' -> c ∈ es) ->
              forall st1, walkEntries visit p es' st1 = (Some e, st') ->
              enumeration_error root e \/ write_error e)
      by (intros st1; apply Hgen; auto).
    induction es' as [|c es' IH]; intros Hsub st1 Hw; [discriminate|].
    cbn [walkEntries] in Hw.
    assert (Hc : c ∈ es) by (apply Hsub; left).
    destruct (walkDir visit (Join p (node_name c)) c st1) as [[err|] st2] eqn:Ec.
    + pose proof (proj1 (Forall_forall _ _) IHes c Hc _ _ _ _
                    (node_at_snoc _ _ _ _ _ _ Hat Hc) Ec) as Herr.
      destruct err; try discriminate Hw; injection Hw as <- <-; exact Herr.
    + apply (IH (fun c' Hc' => Hsub c' (list_elem_of_further _ _ _ Hc')) st2 Hw).
Qed.

(** The walk of a kept directory that does not enumerate returns the
    error of the enumeration. *)
Lemma walkDir_unreadable p nm es errno st :
  nm ∉ ignoreDirs ->
  fst (walkDir visit p (Dir nm es (Some errno)) st) =
    Some (PathError "open" p errno).
Proof.
  intros Hnm. rewrite walkDir_Dir. cbv zeta.
  unfold walkFn at 1, bind, tell, ret, set_Contains.
  cbn [entry_of IsDir Name node_is_dir node_name].
  rewrite (bool_decide_eq_false_2 _ Hnm). now rewrite fn_propagates.
Qed.
End Fatal.

Lemma enumeration_error_view (t : node) (e : error) :
  enumeration_error (readDirView t) e -> enumeration_error t e.
Proof.
  intros (q & nm & es & errno & Hat & ->).
  destruct (node_at_view_inv _ _ _ Hat t eq_refl) as (n & Hn & Heq).
  destruct n as [nm0 f | nm0 es0 e0]; [discriminate|].
  cbn [readDirView] in Heq. injection Heq as _ _ <-.
  now exists q, nm0, es0, errno.
Qed.

Lemma bundle_error `{Writer W} (config : ProjectConfig) (env : Env) (w : W)
    (e : error) (st : state W) :
  bundle config env w = (Some e, st) ->
  (exists errno, lstat_err env = Some errno /\ e = PathError "lstat" [] errno) \/
  enumeration_error (tree env) e \/ write_error e.
Proof.
  unfold bundle, WalkDir. destruct (lstat_err env) as [errno|].
  - rewrite fn_propagates. intros [= <- <-]. left. now exists errno.
  - destruct (walkDir _ [] (readDirView (tree env)) _) as [[err|] st1] eqn:Hw;
      [|discriminate].
    intros Hres. right.
    assert (err = e) as -> by (destruct err; congruence).
    destruct (walkDir_error _ _ _ _ (readDirView (tree env)) _ _ _ _ _
                (at_here _) Hw) as [Henum | Hwrite].
    + left. now apply enumeration_error_view.
    + now right.
Qed.

(** *** The buffered writer *)

Lemma defaultBufSize_pos : (0 < defaultBufSize)%nat.
Proof. unfold defaultBufSize. lia. Qed.

Lemma write_loop_0 (b : BufWriter) (p : list byte) : write_loop 0 b p = (b, p).
Proof. cbn [write_loop]. now destruct (write_more b p). Qed.

Lemma file_Write_all (f : DiskWriter) (p : list byte) (f' : DiskWriter) (n : nat) :
  file_Write f p = (f', n, None) -> n = length p.
Proof.
  unfold file_Write. destruct (length p <=? room f)%nat; intros Heq;
    inversion Heq; reflexivity.
Qed.

Lemma file_Write_error (f : DiskWriter) (p : list byte) (f' : DiskWriter)
    (n : nat) (e : error) :
  file_Write f p = (f', n, Some e) -> e = WriteError ENOSPC.
Proof.
  unfold file_Write. destruct (length p <=? room f)%nat; intros Heq;
    inversion Heq; reflexivity.
Qed.

(** After a write that went to the file the loop is over. *)
Lemma write_more_direct (f f' : DiskWriter) (p bs : list byte) (n : nat)
    (err : option error) :
  file_Write f p = (f', n, err) ->
  write_more (mkBuf err bs f') (drop n p) = false.
Proof.
  intros Hw. unfold write_more. cbn [buf_err].
  destruct err as [e|]; [apply andb_false_r|].
  apply file_Write_all in Hw as ->.
  rewrite length_drop, Nat.sub_diag. apply andb_false_intro1.
  apply Nat.ltb_ge. lia.
Qed.

Lemma write_loop_S (fuel : nat) (b : BufWriter) (p : list byte) :
  write_loop (S fuel) b p =
    if write_more b p then
      if (Buffered b =? 0)%nat then
        let '(f, n, err) := file_Write (wr b) p in
        write_loop fuel (mkBuf err (buf b) f) (drop n p)
      else
        write_loop fuel
          (Flush (mkBuf (buf_err b) (buf b ++ take (Available b) p) (wr b))).1
          (drop (Available b) p)
    else (b, p).
Proof. reflexivity. Qed.

Lemma write_loop_stop (fuel : nat) (b : BufWriter) (p : list byte) :
  write_more b p = false -> write_loop fuel b p = (b, p).
Proof. intros Hm. destruct fuel; cbn [write_loop]; now rewrite Hm. Qed.

(** The flush of a buffer that holds something: the buffer is empty
    afterwards, or the writer keeps the error of the file. *)
Lemma Flush_cases (b : BufWriter) :
  buf_err b = None -> buf b <> [] ->
  (exists f, (Flush b).1 = mkBuf None [] f) \/
  (exists e, buf_err (Flush b).1 = Some e /\
             (length (buf (Flush b).1) <= length (buf b))%nat).
Proof.
  intros He Hne. unfold Flush, Buffered. rewrite He.
  destruct (length (buf b) =? 0)%nat eqn:Hz.
  { apply Nat.eqb_eq in Hz. destruct (buf b); [congruence | discriminate Hz]. }
  destruct (file_Write (wr b) (buf b)) as [[f n] [e|]]; cbn [fst].
  - right. exists e. cbn [buf_err buf]. split; [reflexivity|].
    rewrite length_drop. lia.
  - left. now exists f.
Qed.

(** Two turns are all the loop of [Write] takes, and the buffer never holds
    more than its size. *)
Lemma write_loop_exits (b : BufWriter) (p : list byte) :
  (length (buf b) <= defaultBufSize)%nat ->
  write_more (write_loop 2 b p).1 (write_loop 2 b p).2 = false /\
  (length (buf (write_loop 2 b p).1) <= defaultBufSize)%nat.
Proof.
  intros Hfit. pose proof defaultBufSize_pos as Hpos.
  destruct (write_more b p) eqn:Hm;
    [|rewrite (write_loop_stop _ _ _ Hm); cbn [fst snd]; now split].
  rewrite write_loop_S, Hm.
  unfold write_more in Hm. apply andb_true_iff in Hm as [Hlen Herr].
  apply Nat.ltb_lt in Hlen.
  destruct (buf_err b) as [e|] eqn:Hbe; [discriminate Herr|]. clear Herr.
  destruct (Buffered b =? 0)%nat eqn:Hb.
  - destruct (file_Write (wr b) p) as [[f n] err] eqn:Hw.
    pose proof (write_more_direct _ _ _ (buf b) _ _ Hw) as Hstop.
    rewrite (write_loop_stop _ _ _ Hstop). cbn [fst snd buf]. now split.
  - apply Nat.eqb_neq in Hb. unfold Buffered in Hb. unfold Available in *.
    set (b0 := mkBuf None (buf b ++ take (defaultBufSize - length (buf b)) p)
                 (wr b)).
    assert (Hfull : length (buf b0) = defaultBufSize)
      by (cbn [b0 buf]; rewrite length_app, length_take; lia).
    destruct (Flush_cases b0 eq_refl) as [[f Hf] | (e & He & Hle)].
    { intros Hnil. rewrite Hnil in Hfull. cbn in Hfull. lia. }
    + rewrite Hf.
      destruct (write_more (mkBuf None [] f)
                  (drop (defaultBufSize - length (buf b)) p)) eqn:Hm2.
      * rewrite write_loop_S, Hm2. unfold Buffered. cbn [buf length Nat.eqb wr].
        destruct (file_Write f _) as [[f2 n2] err2] eqn:Hw2.
        rewrite write_loop_0. cbn [fst snd buf].
        split; [exact (write_more_direct _ _ _ [] _ _ Hw2) | cbn; lia].
      * rewrite (write_loop_stop _ _ _ Hm2). cbn [fst snd buf].
        split; [exact Hm2 | cbn; lia].
    + assert (Hstop : write_more (Flush b0).1
                        (drop (defaultBufSize - length (buf b)) p) = false)
        by (unfold write_more; rewrite He; apply andb_false_r).
      rewrite (write_loop_stop _ _ _ Hstop). cbn [fst snd].
      split; [exact Hstop | lia].
Qed.

(** The errors of the output file. *)
Definition device_error (o : option error) : Prop :=
  o = None \/ o = Some (WriteError ENOSPC).

Lemma Flush_device (b : BufWriter) :
  device_error (buf_err b) -> device_error (buf_err (Flush b).1).
Proof.
  intros Hb. unfold Flush.
  destruct (buf_err b) as [e|] eqn:He; [cbn [fst]; now rewrite He|].
  destruct (Buffered b =? 0)%nat; [cbn [fst]; now rewrite He|].
  destruct (file_Write (wr b) (buf b)) as [[f n] [e|]] eqn:Hw; cbn [fst buf_err].
  - right. now rewrite (file_Write_error _ _ _ _ _ Hw).
  - now left.
Qed.

Lemma write_loop_device (fuel : nat) :
  forall (b : BufWriter) (p : list byte),
    device_error (buf_err b) ->
    device_error (buf_err (write_loop fuel b p).1).
Proof.
  induction fuel as [|fuel IH]; intros b p Hb.
  - now rewrite write_loop_0.
  - cbn [write_loop]. destruct (write_more b p); [|exact Hb].
    destruct (Buffered b =? 0)%nat.
    + destruct (file_Write (wr b) p) as [[f n] err] eqn:Hw. apply IH.
      cbn [buf_err]. destruct err as [e|]; [right | now left].
      now rewrite (file_Write_error _ _ _ _ _ Hw).
    + apply IH. apply Flush_device. exact Hb.
Qed.

Lemma bufio_Write_device (b : BufWriter) (p : list byte) :
  device_error (buf_err b) -> device_error (buf_err (Write b p).1).
Proof.
  intros Hb. unfold Write, BufWriter_Writer, bufio_Write.
  pose proof (write_loop_device 2 b p Hb) as Hl.
  destruct (write_loop 2 b p) as [b' p']. cbn [fst] in Hl.
  destruct (buf_err b') as [e|] eqn:He; cbn [fst buf_err];
    [now rewrite He | now left].
Qed.

(** The error a write returns is the error the writer keeps. *)
Lemma bufio_Write_err (b : BufWriter) (p : list byte) (b' : BufWriter)
    (r : option error) :
  Write b p = (b', r) -> buf_err b' = r.
Proof.
  unfold Write, BufWriter_Writer, bufio_Write.
  destruct (write_loop 2 b p) as [b1 p1].
  destruct (buf_err b1) as [e|] eqn:He; intros [= <- <-]; [exact He | reflexivity].
Qed.

Section WriterInvariant.
Context {W : Type} `{Writer W}.
Variable fs : node.
Variable ignoreDirs ignoreExts : gset string.
Variable langMap : gmap string string.

(** The callback touches the writer through [Write] alone. *)
Lemma walkFn_writer_inv (Q : W -> Prop) :
  (forall w bs, Q w -> Q (Write w bs).1) ->
  forall p d err st,
    Q (writer st) ->
    Q (writer (walkFn fs ignoreDirs ignoreExts langMap p d err st).2).
Proof.
  intros HQ p d err st Hst.
  unfold walkFn. unfold bind at 1. unfold tell at 1.
  destruct err as [e|]; [exact Hst|].
  destruct d as [d|]; [|exact Hst].
  destruct (IsDir d).
  { destruct (set_Contains ignoreDirs (Name d)); exact Hst. }
  destruct (set_Contains ignoreExts (Ext (Name d)) ||
            set_Contains ignoreExts (Name d)); [exact Hst|].
  unfold bind at 1. rewrite isBinaryFile_binaryCheck.
  destruct (binaryCheck fs p) as [b [e|]].
  { destruct b; exact Hst. }
  destruct b; [exact Hst|].
  unfold bind at 1, tell at 1. unfold bind at 1, readFile at 1.
  unfold bind at 1, tell at 1, ret at 1.
  cbn [skippedFiles writer trace addEvents].
  destruct (os_ReadFile fs p) as [content | e]; [|exact Hst].
  unfold bind, writeString, write, WriteString, tell, ret.
  cbn [skippedFiles writer trace].
  match goal with
  | |- context [Write (writer st) ?bs] =>
      pose proof (HQ (writer st) bs Hst) as H1;
      destruct (Write (writer st) bs) as [w1 [e|]]; cbn [fst] in H1;
      [exact H1|]
  end.
  cbn [skippedFiles writer trace].
  pose proof (HQ w1 content H1) as H2.
  destruct (Write w1 content) as [w2 [e|]]; cbn [fst] in H2; [exact H2|].
  cbn [skippedFiles writer trace].
  match goal with
  | |- context [Write w2 ?bs] =>
      pose proof (HQ w2 bs H2) as H3;
      destruct (Write w2 bs) as [w3 [e|]]; cbn [fst] in H3; exact H3
  end.
Qed.
End WriterInvariant.

Section Sticky.
Variable fs : node.
Variable ignoreDirs ignoreExts : gset string.
Variable langMap : gmap string string.

(** The writer holds an error only when the walk has returned it. *)
Definition returned (res : option error * state BufWriter) : Prop :=
  forall e, buf_err (writer res.2) = Some e ->
            res.1 = Some e /\ e = WriteError ENOSPC.

Lemma visit_returned p d err (st : state BufWriter) :
  buf_err (writer st) = None ->
  returned (walkFn fs ignoreDirs ignoreExts langMap p d err st).
Proof.
  intros H0 e He. split.
  - destruct (walkFn fs ignoreDirs ignoreExts langMap p d err st) as [r st']
      eqn:Hfn.
    cbn [fst snd] in *. apply walkFn_cases_eq in Hfn.
    inversion Hfn; subst; cbn [writer setWriter addEvents addSkip] in He;
      try congruence.
    + match goal with
      | Hw : Write _ _ = (_, Some _) |- _ => apply bufio_Write_err in Hw
      end. congruence.
    + match goal with
      | Hw : Write _ trailer = (_, None) |- _ => apply bufio_Write_err in Hw
      end. congruence.
  - pose proof (walkFn_writer_inv fs ignoreDirs ignoreExts langMap
                  (fun w => device_error (buf_err w))
                  (fun w bs => bufio_Write_device w bs) p d err st
                  (or_introl H0)) as [Hq | Hq]; congruence.
Qed.

Lemma walkDir_returned (n : node) :
  forall p (st : state BufWriter),
    buf_err (writer st) = None ->
    returned (walkDir (walkFn fs ignoreDirs ignoreExts langMap) p n st).
Proof.
  induction n as [nm f | nm es rderr IH] using node_ind'; intros p st H0.
  - rewrite walkDir_File. now apply visit_returned.
  - rewrite walkDir_Dir. cbv zeta.
    pose proof (visit_returned p (Some (entry_of (Dir nm es rderr))) None st H0)
      as H1.
    destruct (walkFn _ _ _ _ p _ None st) as [r st1].
    destruct (buf_err (writer st1)) as [e|] eqn:He1.
    { destruct (H1 e He1) as [Hr ->]. cbn [fst] in Hr. subst r. exact H1. }
    destruct r as [err|].
    { destruct err; intros e' He; cbn [snd] in He; congruence. }
    destruct rderr as [errno|].
    { rewrite fn_propagates. intros e' He. cbn in He. congruence. }
    clear H1 H0 st. revert st1 He1.
    induction IH as [|c es Hc _ IHes]; intros st1 He1.
    + intros e' He. cbn in He. congruence.
    + cbn [walkEntries]. specialize (Hc (Join p (node_name c)) st1 He1).
      destruct (walkDir _ (Join p (node_name c)) c st1) as [r st2].
      destruct (buf_err (writer st2)) as [e|] eqn:He2.
      { destruct (Hc e He2) as [Hr ->]. cbn [fst] in Hr. subst r. exact Hc. }
      destruct r as [err|]; [|now apply IHes].
      destruct err; intros e' He; cbn [snd] in He; congruence.
Qed.
End Sticky.

(** An error of the output file that the buffered writer has met during
    the walk is the error the walk returns. *)
Lemma bundle_returned (config : ProjectConfig) (env : Env) (b : BufWriter) :
  buf_err b = None -> returned (bundle config env b).
Proof.
  intros H0. unfold bundle, WalkDir. destruct (lstat_err env) as [errno|].
  - rewrite fn_propagates. intros e He. cbn in He. congruence.
  - pose proof (walkDir_returned (tree env) (newStringSet (IgnoreDirs config))
                  (newStringSet (IgnoreExts config))
                  (mergeMaps [baseLangMap; LangMap config])
                  (readDirView (tree env)) [] (mkState ∅ b []) H0) as Hret.
    destruct (walkDir _ [] (readDirView (tree env)) _) as [r st].
    intros e He.
    assert (Hst : buf_err (writer st) = Some e).
    { destruct r as [err|]; [destruct err|]; exact He. }
    destruct (Hret e Hst) as [Hr ->]. cbn [fst] in Hr. subst r.
    split; reflexivity.
Qed.


(** One text file of 5000 bytes to bundle, and an output file on a device
    with room for twenty more bytes. *)
Definition bigFile : file := mkFile (replicate 5000 x78) None None None.

Definition bigFileEnv : Env :=
  quietEnv (Dir "." [ File "a.go" bigFile ] None).



(** The same device and a file of nine bytes: the block stays in the
    buffer, every write returns no error and the run completes; the error
    of the device is first met by the [Flush] that [main] defers, whose
    result [main] does not look at. *)
Definition oneFileEnv : Env :=
  quietEnv (Dir "." [ File "a.go" (text "package a") ] None).

Example flush_error_is_not_returned :
  main "go" oneFileEnv (NewWriter (mkDisk [] 20)) =
    Completed (bundle goPreset oneFileEnv (NewWriter (mkDisk [] 20))).2 /\
  disk_bytes (wr (writer (bundle goPreset oneFileEnv (NewWriter (mkDisk [] 20))).2))
    = [] /\
  length (buf (writer (bundle goPreset oneFileEnv (NewWriter (mkDisk [] 20))).2))
    = 33%nat /\
  (Flush (writer (bundle goPreset oneFileEnv (NewWriter (mkDisk [] 20))).2)).2
    = Some (WriteError ENOSPC).
Proof. repeat split; vm_compute; reflexivity. Qed.

(** ** Running twice *)

(** Two trees hold the same directory contents: the same files with the
    same data under the same names, each directory listed in an order of
    the file system's choosing. *)
Inductive same_contents : node -> node -> Prop :=
| same_file nm f : same_contents (File nm f) (File nm f)
| same_dir nm es1 es2 es2' e :
    es2 ≡ₚ es2' ->
    Forall2 same_contents es1 es2' ->
    same_contents (Dir nm es1 e) (Dir nm es2 e).

Lemma same_contents_refl (n : node) : same_contents n n.
Proof.
  induction n as [nm f | nm es e IH] using node_ind'; [constructor|].
  apply same_dir with es; [reflexivity|].
  induction IH; constructor; assumption.
Qed.

#[export] Instance entry_le_trans : Transitive entry_le.
Proof. intros a b c. unfold entry_le. apply transitivity. Qed.

#[export] Instance entry_le_total : Total entry_le.
Proof. intros a b. unfold entry_le. apply total, _. Qed.

(** With distinct names the sorted listing does not depend on the order the
    file system enumerates in. *)
Lemma sortEntries_unique (l l' : list node) :
  l ≡ₚ l' -> NoDup (node_name <$> l) -> sortEntries l = sortEntries l'.
Proof.
  intros Hperm Hnd. unfold sortEntries.
  apply (StronglySorted_unique_strong entry_le).
  - intros x1 x2 Hx1 Hx2 H12 H21.
    rewrite merge_sort_Permutation in Hx1, Hx2. rewrite <- Hperm in Hx2.
    apply (NoDup_names_inj l); [assumption..|].
    unfold entry_le in *. now apply (anti_symm String.le).
  - apply StronglySorted_merge_sort; apply _.
  - apply StronglySorted_merge_sort; apply _.
  - now rewrite !merge_sort_Permutation.
Qed.

Lemma readDirView_names (es : list node) :
  node_name <$> List.map readDirView es = node_name <$> es.
Proof.
  induction es as [|c es IH]; [reflexivity|].
  cbn. now rewrite readDirView_name, <- IH.
Qed.

Lemma same_contents_view (t1 : node) :
  forall t2, distinct_names t1 = true -> same_contents t1 t2 ->
             readDirView t1 = readDirView t2.
Proof.
  induction t1 as [nm f | nm es1 e IH] using node_ind'; intros t2 Hwf Hsame.
  - inversion Hsame; subst. reflexivity.
  - inversion Hsame as [| nm' es1' es2 es2' e' Hperm Hall]; subst.
    apply distinct_names_Dir in Hwf as [Hnd Hwfs].
    cbn [readDirView]. f_equal.
    assert (Hmap : List.map readDirView es1 = List.map readDirView es2').
    { clear Hperm Hsame Hnd. revert es2' Hall.
      induction es1 as [|c es1 IHes]; intros es2' Hall;
        inversion Hall as [| c1 c2 es1x es2x Hc Hrest]; subst; [reflexivity|].
      apply Forall_cons in IH as [IHc IHrest].
      apply Forall_cons in Hwfs as [Hwc Hwrest].
      cbn [List.map]. f_equal; [now apply IHc | now apply IHes]. }
    rewrite Hmap. apply sortEntries_unique.
    + symmetry. now apply Permutation_map.
    + now rewrite <- Hmap, readDirView_names.
Qed.

Lemma find_entry_None (c : string) (es : list node) :
  find_entry c es = None -> forall x, x ∈ es -> node_name x <> c.
Proof.
  induction es as [|y es IH]; cbn [find_entry]; intros Hf x Hx; [inversion Hx|].
  destruct (String.eqb_spec (node_name y) c) as [Heq | Hne]; [discriminate|].
  apply elem_of_cons in Hx as [-> | Hx]; [exact Hne | now apply IH].
Qed.

Lemma find_entry_perm (c : string) (l l' : list node) :
  NoDup (node_name <$> l) -> l ≡ₚ l' -> find_entry c l = find_entry c l'.
Proof.
  intros Hnd Hperm.
  destruct (find_entry c l) as [x|] eqn:Hl, (find_entry c l') as [x'|] eqn:Hl';
    try reflexivity.
  - apply find_entry_Some in Hl as [Hx Hnx], Hl' as [Hx' Hnx'].
    rewrite <- Hperm in Hx'. f_equal.
    apply (NoDup_names_inj l); congruence.
  - apply find_entry_Some in Hl as [Hx Hnx]. rewrite Hperm in Hx.
    now destruct (find_entry_None _ _ Hl' x Hx).
  - apply find_entry_Some in Hl' as [Hx' Hnx']. rewrite <- Hperm in Hx'.
    now destruct (find_entry_None _ _ Hl x' Hx').
Qed.

Lemma find_entry_map_view (c : string) (es : list node) :
  find_entry c (List.map readDirView es) = readDirView <$> find_entry c es.
Proof.
  induction es as [|x es IH]; [reflexivity|].
  cbn [List.map find_entry]. rewrite readDirView_name.
  destruct (String.eqb (node_name x) c); [reflexivity | exact IH].
Qed.

(** With distinct names a path resolves in the tree as the walk reads it
    to the entry it resolves to in the tree. *)
Lemma lookup_path_view (p : path) :
  forall t, distinct_names t = true ->
            lookup_path (readDirView t) p = readDirView <$> lookup_path t p.
Proof.
  induction p as [|c p IH]; intros t Hwf; [reflexivity|].
  destruct t as [nm f | nm es e]; [reflexivity|].
  apply distinct_names_Dir in Hwf as [Hnd Hwfs].
  cbn [readDirView lookup_path].
  rewrite (find_entry_perm c (sortEntries (List.map readDirView es))
             (List.map readDirView es)).
  - rewrite find_entry_map_view.
    destruct (find_entry c es) as [x|] eqn:Hx; [|reflexivity].
    cbn. apply IH. apply find_entry_Some in Hx as [Hx _].
    rewrite Forall_forall in Hwfs. now apply Hwfs.
  - unfold sortEntries. rewrite merge_sort_Permutation.
    now rewrite readDirView_names.
  - unfold sortEntries. apply merge_sort_Permutation.
Qed.

Lemma os_Open_view (t : node) (p : path) :
  distinct_names t = true -> os_Open (readDirView t) p = os_Open t p.
Proof.
  intros Hwf. unfold os_Open. rewrite lookup_path_view by exact Hwf.
  destruct (lookup_path t p) as [[nm f | nm es e]|]; reflexivity.
Qed.

Lemma os_ReadFile_view (t : node) (p : path) :
  distinct_names t = true -> os_ReadFile (readDirView t) p = os_ReadFile t p.
Proof.
  intros Hwf. unfold os_ReadFile. rewrite lookup_path_view by exact Hwf.
  destruct (lookup_path t p) as [[nm f | nm es e]|]; reflexivity.
Qed.

(** The callback depends on the tree through [os.Open] and [os.ReadFile]. *)
Lemma walkFn_ext `{Writer W} (fs1 fs2 : node) (iD iE : gset string)
    (lm : gmap string string) :
  (forall p, os_Open fs1 p = os_Open fs2 p) ->
  (forall p, os_ReadFile fs1 p = os_ReadFile fs2 p) ->
  forall p d err (st : state W),
    walkFn fs1 iD iE lm p d err st = walkFn fs2 iD iE lm p d err st.
Proof.
  intros Hopen Hread p d err st.
  unfold walkFn, isBinaryFile, readFile. now rewrite Hopen, Hread.
Qed.

Lemma walkDir_ext {S : Type}
    (fn1 fn2 : path -> option DirEntry -> option error -> S -> option error * S) :
  (forall p d err st, fn1 p d err st = fn2 p d err st) ->
  forall n p st, walkDir fn1 p n st = walkDir fn2 p n st.
Proof.
  intros Hfn. induction n as [nm f | nm es e IH] using node_ind'; intros p st.
  - now rewrite !walkDir_File, Hfn.
  - rewrite !walkDir_Dir. cbv zeta. rewrite Hfn.
    destruct (fn2 p _ None st) as [[err|] st1]; [reflexivity|].
    assert (Hloop : forall st0, walkEntries fn1 p es st0 = walkEntries fn2 p es st0).
    { induction IH as [|c es Hc _ IHes]; intros st0; [reflexivity|].
      cbn [walkEntries]. rewrite Hc.
      destruct (walkDir fn2 (Join p (node_name c)) c st0) as [[err|] st2];
        [reflexivity | apply IHes]. }
    destruct e as [errno|].
    + rewrite Hfn. destruct (fn2 p _ (Some _) st1) as [[err|] st2];
        [reflexivity | apply Hloop].
    + apply Hloop.
Qed.

Lemma bundle_same_contents `{Writer W} (config : ProjectConfig) (env1 env2 : Env)
    (w : W) :
  distinct_names (tree env1) = true ->
  distinct_names (tree env2) = true ->
  same_contents (tree env1) (tree env2) ->
  lstat_err env1 = lstat_err env2 ->
  bundle config env1 w = bundle config env2 w.
Proof.
  intros Hwf1 Hwf2 Hsame Hl. unfold bundle, WalkDir. rewrite <- Hl.
  assert (Hview : readDirView (tree env1) = readDirView (tree env2))
    by now apply same_contents_view.
  assert (Hfn : forall p d err (st : state W),
             walkFn (tree env1) (newStringSet (IgnoreDirs config))
               (newStringSet (IgnoreExts config))
               (mergeMaps [baseLangMap; LangMap config]) p d err st =
             walkFn (tree env2) (newStringSet (IgnoreDirs config))
               (newStringSet (IgnoreExts config))
               (mergeMaps [baseLangMap; LangMap config]) p d err st).
  { apply walkFn_ext; intros p.
    - now rewrite <- (os_Open_view _ p Hwf1), <- (os_Open_view _ p Hwf2), Hview.
    - now rewrite <- (os_ReadFile_view _ p Hwf1), <- (os_ReadFile_view _ p Hwf2),
        Hview. }
  destruct (lstat_err env1) as [errno|].
  - now rewrite Hfn.
  - rewrite <- Hview. now rewrite (walkDir_ext _ _ Hfn).
Qed.

(** C7: two runs with the same configuration on the same directory
    contents, whatever order the file system enumerates each directory in,
    do the same thing; in particular they write the same records, with the
    same relative paths, tags and content, in the same order. *)
Theorem rerun_same_records `{Writer W} (config : ProjectConfig) (env1 env2 : Env)
    (w : W) :
  distinct_names (tree env1) = true ->
  distinct_names (tree env2) = true ->
  same_contents (tree env1) (tree env2) ->
  lstat_err env1 = lstat_err env2 ->
  records_of (trace (snd (bundle config env1 w))) =
  records_of (trace (snd (bundle config env2 w))) /\
  writer (snd (bundle config env1 w)) = writer (snd (bundle config env2 w)).
Proof.
  intros Hwf1 Hwf2 Hsame Hl.
  now rewrite (bundle_same_contents config env1 env2 w Hwf1 Hwf2 Hsame Hl).
Qed.

(** The scenario tree, enumerated in another order. *)
Definition scenarioTree' : node :=
  Dir "." [ File "a.go" (text "package a");
            Dir "vendor" [ File "b.go" (text "package b") ] None;
            Dir ".git" [ File "config" (text "[core]") ] None ] None.

Lemma rerun_same_records_witness :
  records_of (trace (snd (bundle goPreset (quietEnv scenarioTree) (mkMem [])))) =
  records_of (trace (snd (bundle goPreset (quietEnv scenarioTree') (mkMem [])))) /\
  writer (snd (bundle goPreset (quietEnv scenarioTree) (mkMem []))) =
  writer (snd (bundle goPreset (quietEnv scenarioTree') (mkMem []))).
Proof.
  apply (rerun_same_records goPreset (quietEnv scenarioTree)
           (quietEnv scenarioTree') (mkMem [])).
  - reflexivity.
  - reflexivity.
  - apply (same_dir "." _ _
             [ Dir "vendor" [ File "b.go" (text "package b") ] None;
               File "a.go" (text "package a");
               Dir ".git" [ File "config" (text "[core]") ] None ] None).
    + apply perm_swap.
    + repeat constructor; apply same_contents_refl.
  - reflexivity.
Defined.

(** * Further properties *)

(** ** [mergeMaps] with any number of maps *)

Lemma mergeMaps_snoc (maps : list (gmap string string)) (m : gmap string string) :
  mergeMaps (maps ++ [m]) = m ∪ mergeMaps maps.
Proof.
  unfold mergeMaps. rewrite foldl_app. cbn [foldl]. apply range_insert_union.
Qed.

(** X1: the merged map binds a key to the value of the last argument map
    that binds it, and binds nothing else. *)
Theorem mergeMaps_last_wins (maps : list (gmap string string)) (k v : string) :
  mergeMaps maps !! k = Some v <->
  exists i m,
    maps !! i = Some m /\ m !! k = Some v /\
    forall j m', (i < j)%nat -> maps !! j = Some m' -> m' !! k = None.
Proof.
  induction maps as [|m maps IH] using rev_ind.
  - unfold mergeMaps. cbn [foldl]. rewrite lookup_empty. split; [discriminate|].
    intros (i & m & Hi & _). now rewrite lookup_nil in Hi.
  - rewrite mergeMaps_snoc, lookup_union_Some_raw, IH.
    assert (Hend : (maps ++ [m]) !! length maps = Some m)
      by now rewrite lookup_app_r, Nat.sub_diag by lia.
    assert (Hlen : forall j m', (maps ++ [m]) !! j = Some m' ->
               (j < length maps)%nat \/ (j = length maps /\ m' = m)).
    { intros j m' Hj. pose proof (lookup_lt_Some _ _ _ Hj) as Hlt.
      rewrite length_app in Hlt. cbn in Hlt.
      destruct (decide (j = length maps)) as [-> | Hne]; [|left; lia].
      right. split; [reflexivity | congruence]. }
    split.
    + intros [Hm | [Hm (i & m0 & Hi & Hk & Hlast)]].
      * exists (length maps), m. split; [exact Hend|]. split; [exact Hm|].
        intros j m' Hj Hjm. destruct (Hlen j m' Hjm) as [Hlt | [-> _]]; lia.
      * exists i, m0. pose proof (lookup_lt_Some _ _ _ Hi) as Hlt.
        split; [now rewrite lookup_app_l|]. split; [exact Hk|].
        intros j m' Hj Hjm. destruct (Hlen j m' Hjm) as [Hjl | [-> ->]].
        -- rewrite lookup_app_l in Hjm by exact Hjl. now apply (Hlast j).
        -- exact Hm.
    + intros (i & m0 & Hi & Hk & Hlast).
      destruct (Hlen i m0 Hi) as [Hlt | [-> ->]]; [right | now left].
      split; [now apply (Hlast (length maps) m Hlt)|].
      exists i, m0. rewrite lookup_app_l in Hi by exact Hlt.
      split; [exact Hi|]. split; [exact Hk|].
      intros j m' Hj Hjm. apply (Hlast j m' Hj).
      rewrite lookup_app_l; [exact Hjm|]. now apply lookup_lt_Some in Hjm.
Qed.

Lemma mergeMaps_last_wins_witness :
  exists i m,
    [ baseLangMap; {[ ".txt" := "plain" ]}; {[ ".go" := "go" ]} ] !! i = Some m /\
    m !! ".txt" = Some "plain" /\
    forall j m', (i < j)%nat ->
      [ baseLangMap; {[ ".txt" := "plain" ]}; {[ ".go" := "go" ]} ] !! j = Some m' ->
      m' !! ".txt" = None.
Proof.
  apply (proj1 (mergeMaps_last_wins
                  [ baseLangMap; {[ ".txt" := "plain" ]}; {[ ".go" := "go" ]} ]
                  ".txt" "plain")).
  vm_compute. reflexivity.
Defined.

(** ** [detectProjectType], whatever the order of the [range] *)

Lemma first_landmark_found (stat : string -> bool) (order : list (string * string))
    (landmark projectType : string) :
  (landmark, projectType) ∈ order -> stat landmark = true ->
  is_Some (first_landmark stat order).
Proof.
  induction order as [|[l t] order IH]; intros Hin Hs; [inversion Hin|].
  cbn [first_landmark]. destruct (stat l) eqn:Hl; [eauto|].
  apply elem_of_cons in Hin as [[= -> ->] | Hin]; [congruence | now apply IH].
Qed.

Lemma detectProjectType_present (order : list (string * string))
    (stat : string -> bool) (matches : list string) :
  order ≡ₚ map_to_list landmarkFiles ->
  (exists landmark, is_Some (landmarkFiles !! landmark) /\ stat landmark = true) ->
  exists landmark,
    landmarkFiles !! landmark = Some (detectProjectType order stat matches) /\
    stat landmark = true.
Proof.
  intros Hperm (l & [t Hl] & Hs). unfold detectProjectType.
  assert (Hin : (l, t) ∈ order)
    by (rewrite Hperm; now apply elem_of_map_to_list).
  destruct (first_landmark_found stat order l t Hin Hs) as [t' Hf].
  rewrite Hf. apply first_landmark_elem in Hf as (l' & Hin' & Hs').
  exists l'. split; [|exact Hs'].
  rewrite Hperm in Hin'. now apply elem_of_map_to_list in Hin'.
Qed.

(** X2: when a landmark file is present the detected type is the type of a
    landmark that is present, whatever the glob for Xcode projects finds;
    when none is present it is ["ios"] if the glob matches something and
    ["generic"] otherwise. *)
Theorem detectProjectType_cases (order : list (string * string))
    (stat : string -> bool) (matches : list string) :
  order ≡ₚ map_to_list landmarkFiles ->
  let detected := detectProjectType order stat matches in
  ((exists landmark, is_Some (landmarkFiles !! landmark) /\ stat landmark = true) ->
   exists landmark,
     landmarkFiles !! landmark = Some detected /\ stat landmark = true) /\
  ((forall landmark, is_Some (landmarkFiles !! landmark) -> stat landmark = false) ->
   detected = if decide (matches = []) then "generic" else "ios").
Proof.
  intros Hperm detected. subst detected. split.
  - now apply detectProjectType_present.
  - intros Hnone. unfold detectProjectType.
    destruct (first_landmark stat order) as [t|] eqn:Hf.
    + apply first_landmark_elem in Hf as (l & Hin & Hs).
      rewrite Hperm in Hin. apply elem_of_map_to_list in Hin.
      rewrite Hnone in Hs by eauto. discriminate.
    + destruct matches; reflexivity.
Qed.

Definition hasCargo (landmark : string) : bool := String.eqb landmark "Cargo.toml".

Lemma detectProjectType_cases_witness :
  let detected :=
    detectProjectType (map_to_list landmarkFiles) hasCargo ["App.xcodeproj"] in
  ((exists landmark, is_Some (landmarkFiles !! landmark) /\ hasCargo landmark = true) ->
   exists landmark,
     landmarkFiles !! landmark = Some detected /\ hasCargo landmark = true) /\
  ((forall landmark, is_Some (landmarkFiles !! landmark) -> hasCargo landmark = false) ->
   detected = if decide (["App.xcodeproj"] = []) then "generic" else "ios").
Proof.
  apply (detectProjectType_cases (map_to_list landmarkFiles) hasCargo
           ["App.xcodeproj"]).
  reflexivity.
Defined.

(** X3: when all the landmark files that are present stand for one project
    type, that type is detected in every order of the [range]. *)
Theorem detectProjectType_unambiguous (order : list (string * string))
    (stat : string -> bool) (matches : list string) (projectType : string) :
  order ≡ₚ map_to_list landmarkFiles ->
  (exists landmark, is_Some (landmarkFiles !! landmark) /\ stat landmark = true) ->
  (forall landmark t,
      landmarkFiles !! landmark = Some t -> stat landmark = true -> t = projectType) ->
  detectProjectType order stat matches = projectType.
Proof.
  intros Hperm Hsome Hall.
  destruct (detectProjectType_present order stat matches Hperm Hsome)
    as (l & Hl & Hs).
  now apply (Hall l).
Qed.

Definition hasSwiftLandmark (landmark : string) : bool :=
  String.eqb landmark "Package.swift" || String.eqb landmark "Podfile".

Lemma hasSwiftLandmark_ios (landmark t : string) :
  landmarkFiles !! landmark = Some t -> hasSwiftLandmark landmark = true -> t = "ios".
Proof.
  unfold landmarkFiles, hasSwiftLandmark. cbn [list_to_map foldr fst snd].
  intros Hl Hs.
  repeat (apply lookup_insert_Some in Hl as [[<- <-] | [_ Hl]];
          [first [reflexivity | discriminate Hs]|]).
  rewrite lookup_empty in Hl. discriminate.
Qed.

Lemma detectProjectType_unambiguous_witness :
  detectProjectType (map_to_list landmarkFiles) hasSwiftLandmark [] = "ios".
Proof.
  apply (detectProjectType_unambiguous (map_to_list landmarkFiles)
           hasSwiftLandmark [] "ios").
  - reflexivity.
  - exists "Podfile". split; [eexists; vm_compute; reflexivity | reflexivity].
  - apply hasSwiftLandmark_ios.
Defined.

(** X4: when landmark files of several project types are present, the type
    detected depends on the order of the [range]: the type of every landmark
    that is present is detected in some order. *)
Theorem detectProjectType_order_dependent (stat : string -> bool)
    (matches : list string) (landmark projectType : string) :
  landmarkFiles !! landmark = Some projectType ->
  stat landmark = true ->
  exists order,
    order ≡ₚ map_to_list landmarkFiles /\
    detectProjectType order stat matches = projectType.
Proof.
  intros Hl Hs.
  exists ((landmark, projectType) :: map_to_list (delete landmark landmarkFiles)).
  split.
  - rewrite <- (insert_delete_id landmarkFiles landmark projectType Hl) at 2.
    symmetry. apply map_to_list_insert, lookup_delete_eq.
  - unfold detectProjectType. cbn [first_landmark]. now rewrite Hs.
Qed.

Definition hasGoAndCargo (landmark : string) : bool :=
  String.eqb landmark "go.mod" || String.eqb landmark "Cargo.toml".

Lemma detectProjectType_order_dependent_witness :
  (exists order,
     order ≡ₚ map_to_list landmarkFiles /\
     detectProjectType order hasGoAndCargo [] = "go") /\
  (exists order,
     order ≡ₚ map_to_list landmarkFiles /\
     detectProjectType order hasGoAndCargo [] = "rust").
Proof.
  split.
  - apply (detectProjectType_order_dependent hasGoAndCargo [] "go.mod" "go");
      reflexivity.
  - apply (detectProjectType_order_dependent hasGoAndCargo [] "Cargo.toml" "rust");
      reflexivity.
Defined.

(** ** Errors of the binary detector *)

(** X5: [isBinaryFile] returns an error only when [os.Open] fails, and then
    it does not read, or when its one [Read] fails with an error other than
    [io.EOF]; with an error the flag is false; the ledger and the output are
    not touched. *)
Theorem isBinaryFile_error `{Writer W} (fs : node) (p : path) (st st' : state W)
    (isBinary : bool) (e : error) :
  isBinaryFile fs p st = ((isBinary, Some e), st') ->
  isBinary = false /\
  skippedFiles st' = skippedFiles st /\ writer st' = writer st /\
  ((os_Open fs p = inr e /\ trace st' = trace st ++ [EvOpen p]) \/
   (exists h bs,
      os_Open fs p = inl h /\ file_Read h 1024 = (bs, Some e) /\ e <> EOF /\
      trace st' = trace st ++ [EvOpen p; EvRead p 1024])).
Proof.
  rewrite isBinaryFile_binaryCheck. unfold binaryCheck, binaryCheck_calls.
  destruct (os_Open fs p) as [h | e0] eqn:Hopen.
  - destruct (file_Read h 1024) as [bs [e0|]] eqn:Hread;
      [destruct e0|]; intros [= <- <- <-];
      (split; [reflexivity|]; split; [reflexivity|]; split; [reflexivity|];
       right; exists h, bs; repeat split; [exact Hread | discriminate]).
  - intros [= <- <- <-].
    split; [reflexivity|]. split; [reflexivity|]. split; [reflexivity|].
    left. split; reflexivity.
Qed.

Lemma isBinaryFile_error_witness :
  false = false /\
  skippedFiles (addEvents [EvOpen ["locked.go"]] emptyState) = skippedFiles emptyState /\
  writer (addEvents [EvOpen ["locked.go"]] emptyState) = writer emptyState /\
  ((os_Open lockedTree ["locked.go"] = inr (PathError "open" ["locked.go"] EACCES) /\
    trace (addEvents [EvOpen ["locked.go"]] emptyState) =
      trace emptyState ++ [EvOpen ["locked.go"]]) \/
   (exists h bs,
      os_Open lockedTree ["locked.go"] = inl h /\
      file_Read h 1024 = (bs, Some (PathError "open" ["locked.go"] EACCES)) /\
      PathError "open" ["locked.go"] EACCES <> EOF /\
      trace (addEvents [EvOpen ["locked.go"]] emptyState) =
        trace emptyState ++ [EvOpen ["locked.go"]; EvRead ["locked.go"] 1024])).
Proof.
  apply (isBinaryFile_error lockedTree ["locked.go"] emptyState
           (addEvents [EvOpen ["locked.go"]] emptyState) false
           (PathError "open" ["locked.go"] EACCES)).
  reflexivity.
Defined.

(** ** What is read in full and written *)

(** A file that passes the binary check and reads in full has no zero byte
    among its first 1024 bytes. *)
Lemma binaryCheck_text_content (fs : node) (p : path) (c : list byte) :
  binaryCheck fs p = (false, None) -> os_ReadFile fs p = inl c ->
  x00 ∉ take 1024 c.
Proof.
  unfold binaryCheck, os_ReadFile, os_Open, file_Read. intros Hcheck Hread.
  destruct (lookup_path fs p) as [[nm f | nm es e]|]; try discriminate Hread.
  destruct (open_err f); [discriminate Hread|]. cbn [h_file h_path] in Hcheck.
  destruct (read_err f); [discriminate Hcheck|].
  destruct (readfile_err f); [discriminate Hread|]. injection Hread as <-.
  apply Contains_zero_false.
  destruct (_ && _) in Hcheck; now injection Hcheck.
Qed.

(** What the events after the binary check say about their path. *)
Definition event_checked (fs : node) (ev : event) : Prop :=
  match ev with
  | EvVisit _ | EvOpen _ => True
  | EvRead q len => len = 1024%nat
  | EvLog (CouldNotCheck q e) => exists b, binaryCheck fs q = (b, Some e)
  | EvPrintBundling q | EvReadFile q => binaryCheck fs q = (false, None)
  | EvLog (CouldNotRead q e) =>
      binaryCheck fs q = (false, None) /\ os_ReadFile fs q = inr e
  | EvRecord q r =>
      binaryCheck fs q = (false, None) /\
      os_ReadFile fs q = inl (recordContent r) /\
      relativePath r = Rel q
  end.

Lemma binaryCheck_calls_checked (fs : node) (p : path) :
  Forall (event_checked fs) (binaryCheck_calls fs p).
Proof.
  unfold binaryCheck_calls. destruct (os_Open fs p); repeat constructor.
Qed.

Lemma bundle_events_checked `{Writer W} (config : ProjectConfig) (env : Env)
    (w : W) :
  Forall (event_checked (tree env)) (trace (snd (bundle config env w))).
Proof.
  apply (bundle_invariant config env
           (fun st => Forall (event_checked (tree env)) (trace st))).
  - intros p n err st res st' Hat Hk Hst Hfn.
    apply walkFn_cases_eq in Hfn.
    pose proof (binaryCheck_calls_checked (tree env) p) as Hcalls.
    inversion Hfn; subst;
      unfold addEvents, setWriter, addSkip; cbn [trace skippedFiles writer];
      repeat first [ apply Forall_app; split
                   | apply Forall_cons; split
                   | exact Hst | exact Hcalls | apply List.Forall_nil
                   | exact Logic.I ];
      cbn [event_checked recordContent relativePath]; eauto.
  - constructor.
Qed.

(** X6: every record of a run holds the bytes [os.ReadFile] returned for
    its path, under the path relative to the root; its file has a name that
    is not ignored and no zero byte among its first 1024 bytes. *)
Theorem records_hold_file_content `{Writer W} (config : ProjectConfig)
    (env : Env) (w : W) (q : path) (r : BundleRecord) :
  EvRecord q r ∈ trace (snd (bundle config env w)) ->
  os_ReadFile (tree env) q = inl (recordContent r) /\
  relativePath r = Rel q /\
  (x00 ∉ take 1024 (recordContent r)) /\
  (Ext (path_name (tree env) q) ∉ IgnoreExts config) /\
  (path_name (tree env) q ∉ IgnoreExts config).
Proof.
  intros Hin.
  pose proof (proj1 (Forall_forall _ _) (bundle_events_checked config env w)
                _ Hin) as (Hcheck & Hread & Hrel).
  pose proof (bundle_touches_unignored config env w _ Hin eq_refl) as Hun.
  cbn [event_path] in Hun. rewrite path_name_view in Hun.
  unfold ignoredName, runExts in Hun.
  rewrite !set_Contains_newStringSet in Hun.
  apply orb_false_iff in Hun as [He Hn].
  apply bool_decide_eq_false in He, Hn.
  split; [exact Hread|]. split; [exact Hrel|].
  split; [now apply (binaryCheck_text_content (tree env) q)|].
  split; assumption.
Qed.

Lemma records_hold_file_content_witness :
  os_ReadFile (tree goEnv) ["a.go"] = inl (list_byte_of_string "package a") /\
  "a.go" = Rel ["a.go"] /\
  (x00 ∉ take 1024 (list_byte_of_string "package a")) /\
  (Ext (path_name (tree goEnv) ["a.go"]) ∉ IgnoreExts goPreset) /\
  (path_name (tree goEnv) ["a.go"] ∉ IgnoreExts goPreset).
Proof.
  apply (records_hold_file_content goPreset goEnv (mkMem []) ["a.go"]
           (mkRecord "a.go" "go" (list_byte_of_string "package a"))).
  vm_compute. repeat constructor.
Defined.

(** ** Binary files *)

Lemma binaryCheck_binary (fs : node) (p : path) (nm : string) (f : file) :
  lookup_path fs p = Some (File nm f) ->
  open_err f = None -> read_err f = None ->
  x00 ∈ take 1024 (content f) ->
  binaryCheck fs p = (true, None) /\
  binaryCheck_calls fs p = [EvOpen p; EvRead p 1024].
Proof.
  intros Hl Ho Hr Hz. unfold binaryCheck, binaryCheck_calls, os_Open, file_Read.
  rewrite Hl, Ho. cbn [h_file h_path]. rewrite Hr.
  apply Contains_zero in Hz. rewrite Hz.
  destruct (_ && _); split; reflexivity.
Qed.

(** X7: a file that opens and reads and has a zero byte among its first 1024
    bytes is skipped under "Detected Binary Content" when its name is not
    ignored; in the whole run it is opened and read once for the check and
    never read in full, announced, logged or written out. *)
Theorem binary_file_never_bundled `{Writer W} (config : ProjectConfig)
    (env : Env) (w : W) (p : path) (nm : string) (f : file) :
  lookup_path (tree env) p = Some (File nm f) ->
  open_err f = None -> read_err f = None ->
  x00 ∈ take 1024 (content f) ->
  (ignoredName (runExts config) nm = false ->
   forall st,
     walkFn (tree env) (runDirs config) (runExts config) (runLangs config)
       p (Some (entry_of (File nm f))) None st =
     (None, addSkip "Detected Binary Content" p
              (addEvents [EvVisit p; EvOpen p; EvRead p 1024] st))) /\
  (forall ev, ev ∈ trace (snd (bundle config env w)) -> event_path ev = p ->
     ev = EvVisit p \/ ev = EvOpen p \/ ev = EvRead p 1024).
Proof.
  intros Hl Ho Hr Hz.
  destruct (binaryCheck_binary _ _ _ _ Hl Ho Hr Hz) as [Hcheck Hcalls].
  split.
  - intros Hig st.
    destruct (walkFn _ _ _ _ p (Some (entry_of (File nm f))) None st)
      as [r st'] eqn:Hfn.
    apply walkFn_cases_eq in Hfn.
    inversion Hfn; simplify_eq; cbn [entry_of Name IsDir node_is_dir node_name] in *;
      congruence.
  - intros ev Hev Hp.
    pose proof (proj1 (Forall_forall _ _) (bundle_events_checked config env w)
                  _ Hev) as Hok.
    destruct ev as [q | q | q len | q | [q e | q e] | q | q r];
      cbn [event_path] in Hp; subst q; cbn [event_checked] in Hok.
    + now left.
    + right. now left.
    + right. right. now subst len.
    + congruence.
    + destruct Hok as [b Hb]. congruence.
    + destruct Hok as [Hb _]. congruence.
    + congruence.
    + destruct Hok as [Hb _]. congruence.
Qed.

Definition binTree : node :=
  Dir "." [ File "logo.ico" (mkFile [x00; x01; x02] None None None);
            File "main.go" (text "package main") ] None.

Lemma binary_file_never_bundled_witness :
  (ignoredName (runExts goPreset) "logo.ico" = false ->
   forall st : state MemWriter,
     walkFn (tree (quietEnv binTree)) (runDirs goPreset) (runExts goPreset)
       (runLangs goPreset) ["logo.ico"]
       (Some (entry_of (File "logo.ico" (mkFile [x00; x01; x02] None None None))))
       None st =
     (None, addSkip "Detected Binary Content" ["logo.ico"]
              (addEvents [EvVisit ["logo.ico"]; EvOpen ["logo.ico"];
                          EvRead ["logo.ico"] 1024] st))) /\
  (forall ev,
     ev ∈ trace (snd (bundle goPreset (quietEnv binTree) (mkMem []))) ->
     event_path ev = ["logo.ico"] ->
     ev = EvVisit ["logo.ico"] \/ ev = EvOpen ["logo.ico"] \/
     ev = EvRead ["logo.ico"] 1024).
Proof.
  apply (binary_file_never_bundled goPreset (quietEnv binTree) (mkMem [])
           ["logo.ico"] "logo.ico" (mkFile [x00; x01; x02] None None None)).
  - reflexivity.
  - reflexivity.
  - reflexivity.
  - vm_compute. repeat constructor.
Defined.

(** ** The skip ledger *)

(** What a path is listed for under each reason. *)
Definition skip_justified (fs : node) (ignoreDirs ignoreExts : gset string)
    (name : string) (reason : string) (q : path) : Prop :=
  (reason = "Ignored Directory" /\ name ∈ ignoreDirs) \/
  (reason = "Ignored Extension/File" /\ ignoredName ignoreExts name = true) \/
  (reason = "Detected Binary Content" /\ ignoredName ignoreExts name = false /\
   binaryCheck fs q = (true, None)) \/
  (reason = "File Read Error" /\ ignoredName ignoreExts name = false /\
   ((exists b e, binaryCheck fs q = (b, Some e)) \/
    (binaryCheck fs q = (false, None) /\ exists e, os_ReadFile fs q = inr e))).

Lemma addSkip_lookup {W} (reason reason' : string) (p : path) (st : state W)
    (paths : list path) :
  skippedFiles (addSkip reason p st) !! reason' = Some paths ->
  (reason' = reason /\ paths = default [] (skippedFiles st !! reason) ++ [p]) \/
  (reason' <> reason /\ skippedFiles st !! reason' = Some paths).
Proof.
  unfold addSkip. cbn [skippedFiles].
  destruct (decide (reason = reason')) as [<- | Hne].
  - rewrite lookup_insert_eq. intros [= <-]. now left.
  - rewrite lookup_insert_ne by exact Hne. intros Hl. right. split; congruence.
Qed.

Section Ledger.
Context {W : Type} `{Writer W}.
Variable config : ProjectConfig.
Variable env : Env.

Definition ledger_justified (st : state W) : Prop :=
  forall reason paths,
    skippedFiles st !! reason = Some paths ->
    paths <> [] /\
    forall q, q ∈ paths ->
      skip_justified (tree env) (runDirs config) (runExts config)
        (path_name (readDirView (tree env)) q) reason q.

Lemma bundle_ledger_justified (w : W) :
  ledger_justified (snd (bundle config env w)).
Proof.
  apply bundle_invariant.
  - intros p n err st res st' Hat Hk Hst Hfn.
    apply walkFn_cases_eq in Hfn.
    pose proof (node_at_name _ _ _ Hat) as Hname.
    assert (Hadd : forall reason (st0 : state W),
               skippedFiles st0 = skippedFiles st ->
               skip_justified (tree env) (runDirs config) (runExts config)
                 (node_name n) reason p ->
               ledger_justified (addSkip reason p st0)).
    { intros reason st0 Hst0 Hj reason' paths Hl.
      apply addSkip_lookup in Hl as [[-> ->] | [Hne Hl]].
      - split; [now destruct (default [] _)|].
        intros q [Hq | Hq]%elem_of_app.
        + rewrite Hst0 in Hq.
          destruct (skippedFiles st !! reason) as [old|] eqn:Hold;
            [|inversion Hq].
          now apply (Hst reason old Hold).
        + apply list_elem_of_singleton in Hq as ->. now rewrite <- Hname.
      - rewrite Hst0 in Hl. now apply Hst. }
    inversion Hfn; simplify_eq; cbn [entry_of Name] in *;
      try exact Hst;
      try (apply Hadd; [reflexivity|]).
    + left. split; [reflexivity|]. unfold set_Contains in *.
      match goal with
      | Hb : bool_decide _ = true |- _ => now apply bool_decide_eq_true in Hb
      end.
    + right. left. now split.
    + right. right. right. split; [reflexivity|]. split; [assumption|].
      left. eauto.
    + right. right. left. now repeat split.
    + right. right. right. split; [reflexivity|]. split; [assumption|].
      right. eauto.
  - intros reason paths Hl. cbn in Hl. rewrite lookup_empty in Hl. discriminate.
Qed.
End Ledger.

(** X8: at the end of a run every key of the ledger is one of the four
    reasons and lists at least one path, and every path is listed for the
    reason that holds for it: a directory name in [ignoreDirs]; an extension
    or name in [ignoreExts]; a zero byte found by the check; or an error of
    the check or of the full read. *)
Theorem ledger_entries_justified `{Writer W} (config : ProjectConfig) (env : Env)
    (w : W) (reason : string) (paths : list path) :
  skippedFiles (snd (bundle config env w)) !! reason = Some paths ->
  paths <> [] /\
  reason ∈ [ "Ignored Directory"; "Ignored Extension/File";
             "Detected Binary Content"; "File Read Error" ] /\
  forall q, q ∈ paths ->
    skip_justified (tree env) (runDirs config) (runExts config)
      (path_name (tree env) q) reason q.
Proof.
  intros Hl.
  destruct (bundle_ledger_justified config env w reason paths Hl) as [Hne Hall].
  split; [exact Hne|]. split.
  - destruct paths as [|q paths]; [congruence|].
    destruct (Hall q (list_elem_of_here _ _))
      as [[-> _] | [[-> _] | [[-> _] | [-> _]]]]; repeat constructor.
  - intros q Hq. rewrite <- path_name_view. now apply Hall.
Qed.

Lemma ledger_entries_justified_witness :
  [ [".git"]; ["vendor"] ] <> [] /\
  "Ignored Directory" ∈ [ "Ignored Directory"; "Ignored Extension/File";
                          "Detected Binary Content"; "File Read Error" ] /\
  forall q, q ∈ [ [".git"]; ["vendor"] ] ->
    skip_justified (tree goEnv) (runDirs goPreset) (runExts goPreset)
      (path_name (tree goEnv) q) "Ignored Directory" q.
Proof.
  apply (ledger_entries_justified goPreset goEnv (mkMem [])).
  vm_compute. reflexivity.
Defined.

(** ** The output document *)

(** The block written for one record: the header line with the relative
    path, the opening fence with the tag, the content, the closing fence and
    an empty line. *)
Definition block (r : BundleRecord) : list byte :=
  list_byte_of_string
    ("File: /" +:+ relativePath r +:+ newline +:+ "```" +:+ languageTag r +:+ newline)
  ++ recordContent r ++ trailer.

Lemma records_of_app (tr1 tr2 : list event) :
  records_of (tr1 ++ tr2) = records_of tr1 ++ records_of tr2.
Proof. unfold records_of. apply omap_app. Qed.

Lemma records_of_cons (ev : event) (tr : list event) :
  records_of (ev :: tr) =
    match ev with EvRecord _ r => [r] | _ => [] end ++ records_of tr.
Proof. destruct ev; reflexivity. Qed.

Lemma records_of_calls (fs : node) (p : path) :
  records_of (binaryCheck_calls fs p) = [].
Proof. unfold binaryCheck_calls. now destruct (os_Open fs p). Qed.


(** ** The walk only appends *)

(** [st'] is [st] with events appended to the trace and paths appended to
    lists of the ledger. *)
Definition extends {W} (st st' : state W) : Prop :=
  trace st `prefix_of` trace st' /\
  forall reason,
    default [] (skippedFiles st !! reason) `prefix_of`
    default [] (skippedFiles st' !! reason).

Lemma extends_refl {W} (st : state W) : extends st st.
Proof. split; [reflexivity | intros reason; reflexivity]. Qed.

Lemma extends_trans {W} (st1 st2 st3 : state W) :
  extends st1 st2 -> extends st2 st3 -> extends st1 st3.
Proof.
  intros [Ht1 Hl1] [Ht2 Hl2]. split; [now transitivity (trace st2)|].
  intros reason. now transitivity (default [] (skippedFiles st2 !! reason)).
Qed.

Lemma extends_addEvents {W} (evs : list event) (st : state W) :
  extends st (addEvents evs st).
Proof. split; [now apply prefix_app_r | intros reason; reflexivity]. Qed.

Lemma extends_setWriter {W} (w : W) (st : state W) : extends st (setWriter w st).
Proof. split; [reflexivity | intros reason; reflexivity]. Qed.

Lemma extends_addSkip {W} (reason : string) (p : path) (st : state W) :
  extends st (addSkip reason p st).
Proof.
  split; [reflexivity|]. intros reason'. unfold addSkip. cbn [skippedFiles].
  destruct (decide (reason = reason')) as [<- | Hne].
  - rewrite lookup_insert_eq. cbn. now apply prefix_app_r.
  - now rewrite lookup_insert_ne.
Qed.

Lemma walkFn_extends `{Writer W} (fs : node) (iD iE : gset string)
    (lm : gmap string string) (p : path) (d : option DirEntry)
    (err : option error) (st : state W) :
  extends st (snd (walkFn fs iD iE lm p d err st)).
Proof.
  destruct (walkFn fs iD iE lm p d err st) as [r st'] eqn:Hfn.
  apply walkFn_cases_eq in Hfn. cbn [snd].
  inversion Hfn; subst;
    repeat first [ apply extends_addEvents
                 | eapply extends_trans; [|apply extends_addEvents]
                 | eapply extends_trans; [|apply extends_addSkip]
                 | eapply extends_trans; [|apply extends_setWriter] ].
Qed.

(** A property of the state that every invocation of a callback keeps is
    kept by the walk. *)
Lemma walkDir_preserves {S : Type}
    (fn : path -> option DirEntry -> option error -> S -> option error * S)
    (I : S -> Prop) :
  (forall p d err st, I st -> I (snd (fn p d err st))) ->
  forall n p st, I st -> I (snd (walkDir fn p n st)).
Proof.
  intros Hfn. induction n as [nm f | nm es e IH] using node_ind'; intros p st HI.
  - rewrite walkDir_File. now apply Hfn.
  - rewrite walkDir_Dir. cbv zeta.
    pose proof (Hfn p (Some (entry_of (Dir nm es e))) None st HI) as HI1.
    destruct (fn p _ None st) as [[err|] st1]; cbn [snd] in HI1.
    { now destruct err. }
    assert (Hloop : forall st0, I st0 -> I (snd (walkEntries fn p es st0))).
    { induction IH as [|c es Hc _ IHes]; intros st0 HI0; [exact HI0|].
      cbn [walkEntries]. specialize (Hc (Join p (node_name c)) st0 HI0).
      destruct (walkDir fn (Join p (node_name c)) c st0) as [[err|] st2];
        cbn [snd] in Hc; [now destruct err | now apply IHes]. }
    destruct e as [errno|]; [|now apply Hloop].
    pose proof (Hfn p (Some (entry_of (Dir nm es (Some errno))))
                  (Some (PathError "open" p errno)) st1 HI1) as HI2.
    destruct (fn p _ (Some _) st1) as [[err|] st2]; cbn [snd] in HI2.
    + now destruct err.
    + now apply Hloop.
Qed.

Lemma walkEntries_preserves {S : Type}
    (fn : path -> option DirEntry -> option error -> S -> option error * S)
    (I : S -> Prop) :
  (forall p d err st, I st -> I (snd (fn p d err st))) ->
  forall es p st, I st -> I (snd (walkEntries fn p es st)).
Proof.
  intros Hfn. induction es as [|c es IH]; intros p st HI; [exact HI|].
  cbn [walkEntries].
  pose proof (walkDir_preserves fn I Hfn c (Join p (node_name c)) st HI) as Hc.
  destruct (walkDir fn (Join p (node_name c)) c st) as [[err|] st2];
    cbn [snd] in Hc; [now destruct err | now apply IH].
Qed.

(** X10: from any state, [filepath.WalkDir] with the callback only appends:
    the trace before is a prefix of the trace after, and under every reason
    the paths listed before are a prefix of the paths listed after. *)
Theorem WalkDir_appends `{Writer W} (fs : node) (iD iE : gset string)
    (lm : gmap string string) (lstat : option errno) (root : node)
    (st : state W) :
  extends st (snd (WalkDir (walkFn fs iD iE lm) lstat root st)).
Proof.
  unfold WalkDir. destruct lstat as [errno|].
  - pose proof (walkFn_extends fs iD iE lm [] None
                  (Some (PathError "lstat" [] errno)) st) as Hext.
    destruct (walkFn fs iD iE lm [] None _ st) as [[err|] st']; cbn [snd] in *;
      [destruct err|]; exact Hext.
  - pose proof (walkDir_preserves (walkFn fs iD iE lm) (extends st)
                  (fun p d err st0 H0 =>
                     extends_trans _ _ _ H0 (walkFn_extends fs iD iE lm p d err st0))
                  (readDirView root) [] st (extends_refl st)) as Hext.
    destruct (walkDir _ [] (readDirView root) st) as [[err|] st']; cbn [snd] in *;
      [destruct err|]; exact Hext.
Qed.

(** ** Nothing below kept directories is missed *)

Lemma node_at_view (t : node) (p : path) (n : node) :
  node_at t p n -> node_at (readDirView t) p (readDirView n).
Proof.
  induction 1 as [n | nm es e c q n Hc Hat IH]; [constructor|].
  cbn [readDirView]. rewrite <- (readDirView_name c).
  apply at_below; [|exact IH].
  apply sortEntries_elem, list_elem_of_In, in_map, list_elem_of_In, Hc.
Qed.

Lemma enumerable_view (t : node) :
  enumerable t = true -> enumerable (readDirView t) = true.
Proof.
  induction t as [nm f | nm es e IH] using node_ind'; [auto|].
  cbn [readDirView enumerable]. destruct e; [discriminate|].
  rewrite !forallb_forall. intros Hall c' Hc'.
  apply list_elem_of_In, sortEntries_elem, list_elem_of_In, in_map_iff in Hc'
    as (c & <- & Hc).
  rewrite Forall_forall in IH. apply IH; [now apply list_elem_of_In | now apply Hall].
Qed.

Lemma entry_of_view (n : node) : entry_of (readDirView n) = entry_of n.
Proof. destruct n; reflexivity. Qed.

Section Completeness.
Context {W : Type} `{Writer W}.
Variable fs : node.
Variable ignoreDirs ignoreExts : gset string.
Variable langMap : gmap string string.

(** The writes of this run do not fail. *)
Hypothesis writes_succeed : forall (w : W) bs, snd (Write w bs) = None.

Abbreviation call := (walkFn fs ignoreDirs ignoreExts langMap).

Lemma call_result (p : path) (n : node) (st : state W) :
  fst (call p (Some (entry_of n)) None st) =
    if node_is_dir n && set_Contains ignoreDirs (node_name n)
    then Some SkipDir else None.
Proof.
  destruct (call p (Some (entry_of n)) None st) as [r st'] eqn:Hfn.
  apply walkFn_cases_eq in Hfn. cbn [fst].
  inversion Hfn; simplify_eq; cbn [entry_of Name IsDir] in *;
    repeat match goal with
           | Hd : node_is_dir _ = _ |- _ => rewrite Hd
           | Hd : set_Contains _ _ = _ |- _ => rewrite Hd
           end; try reflexivity.
  match goal with
  | Hw : Write ?w0 ?bs = (_, Some _) |- _ =>
      pose proof (writes_succeed w0 bs) as Hok; rewrite Hw in Hok; discriminate Hok
  end.
Qed.

(** The walk of a tree that enumerates returns no error. *)
Lemma walkDir_completes (n : node) :
  enumerable n = true -> forall p st, fst (walkDir call p n st) = None.
Proof.
  induction n as [nm f | nm es e IH] using node_ind'; intros Hen p st.
  - rewrite walkDir_File, call_result. reflexivity.
  - rewrite walkDir_Dir. cbv zeta.
    pose proof (call_result p (Dir nm es e) st) as Hres.
    destruct (call p _ None st) as [r st1]. cbn [fst] in Hres. subst r.
    cbn [node_is_dir node_name andb].
    destruct (set_Contains ignoreDirs nm); [reflexivity|].
    cbn [enumerable] in Hen. destruct e; [discriminate|].
    rewrite forallb_forall in Hen.
    assert (Hall : Forall (fun c => forall p st, fst (walkDir call p c st) = None) es).
    { rewrite Forall_forall in IH |- *. intros c Hc. apply IH; [exact Hc|].
      now apply Hen, list_elem_of_In. }
    clear IH Hen. revert st1.
    induction Hall as [|c es Hc _ IHes]; intros st1; [reflexivity|].
    cbn [walkEntries]. specialize (Hc (Join p (node_name c)) st1).
    destruct (walkDir call (Join p (node_name c)) c st1) as [r st2].
    cbn [fst] in Hc. subst r. apply IHes.
Qed.

(** The state after the walk of an entry extends the state after the
    callback on that entry. *)
Lemma walkDir_extends_first (n : node) (p : path) (st : state W) :
  extends (snd (call p (Some (entry_of n)) None st)) (snd (walkDir call p n st)).
Proof.
  assert (Hstep : forall st1 p d err st0,
             extends st1 st0 -> extends st1 (snd (call p d err st0))).
  { intros st1 p0 d err st0 H0.
    exact (extends_trans _ _ _ H0 (walkFn_extends _ _ _ _ _ _ _ _)). }
  destruct n as [nm f | nm es e].
  - rewrite walkDir_File. apply extends_refl.
  - rewrite walkDir_Dir. cbv zeta.
    destruct (call p _ None st) as [[err|] st1]; cbn [snd].
    { destruct err; apply extends_refl. }
    destruct e as [errno|].
    + pose proof (Hstep st1 p (Some (entry_of (Dir nm es (Some errno))))
                    (Some (PathError "open" p errno)) st1 (extends_refl _)) as H2.
      destruct (call p _ (Some _) st1) as [[err|] st2]; cbn [snd] in *.
      * now destruct err.
      * now apply (walkEntries_preserves call (extends st1) (Hstep st1)).
    + apply (walkEntries_preserves call (extends st1) (Hstep st1)).
      apply extends_refl.
Qed.

Lemma walkEntries_reaches (p : path) (c : node) (T : state W -> state W)
    (es : list node) :
  c ∈ es ->
  Forall (fun x => enumerable x = true) es ->
  (forall st, exists st0,
      extends (T st0) (snd (walkDir call (Join p (node_name c)) c st))) ->
  forall st, exists st0, extends (T st0) (snd (walkEntries call p es st)).
Proof.
  intros Hc Hen Hreach.
  assert (Hstep : forall st1 p d err st0,
             extends st1 st0 -> extends st1 (snd (call p d err st0))).
  { intros st1 p0 d err st0 H0.
    exact (extends_trans _ _ _ H0 (walkFn_extends _ _ _ _ _ _ _ _)). }
  induction es as [|x es IH]; intros st; [inversion Hc|].
  apply Forall_cons in Hen as [Hx Hen]. cbn [walkEntries].
  pose proof (walkDir_completes x Hx (Join p (node_name x)) st) as Hdone.
  apply elem_of_cons in Hc as [<- | Hc].
  - destruct (Hreach st) as [st0 Hext]. exists st0.
    destruct (walkDir call (Join p (node_name c)) c st) as [r st2].
    cbn [fst snd] in *. subst r.
    eapply extends_trans; [exact Hext|].
    apply (walkEntries_preserves call (extends st2) (Hstep st2)), extends_refl.
  - destruct (walkDir call (Join p (node_name x)) x st) as [r st2].
    cbn [fst] in Hdone. subst r. now apply IH.
Qed.

Lemma ancestors_kept_child (nm : string) (es : list node) (e : option errno)
    (c : node) (q : path) :
  ancestors_kept ignoreDirs (Dir nm es e) (node_name c :: q) ->
  (nm ∉ ignoreDirs) /\ ancestors_kept ignoreDirs c q.
Proof.
  intros Hk. split.
  - apply (Hk []); [apply prefix_nil | discriminate].
  - intros q1 Hq1 Hne.
    assert (Heq : path_name c q1 = path_name (Dir nm es e) (node_name c :: q1)).
    { unfold path_name. rewrite last_cons. now destruct (last q1). }
    rewrite Heq. apply Hk; [now apply prefix_cons | congruence].
Qed.

(** In a tree that enumerates, the callback is invoked on every entry below
    kept directories, and what that invocation leaves stays. *)
Lemma walkDir_reaches (n : node) (q : path) (n' : node) :
  node_at n q n' ->
  enumerable n = true ->
  ancestors_kept ignoreDirs n q ->
  forall p st, exists st0,
    extends (snd (call (p ++ q) (Some (entry_of n')) None st0))
            (snd (walkDir call p n st)).
Proof.
  induction 1 as [n | nm es e c q n' Hc Hat IH]; intros Hen Hk p st.
  - exists st. rewrite app_nil_r. apply walkDir_extends_first.
  - apply ancestors_kept_child in Hk as [Hnm Hk].
    cbn [enumerable] in Hen. destruct e; [discriminate|].
    assert (Hall : Forall (fun x => enumerable x = true) es).
    { apply Forall_forall. intros x Hx. rewrite forallb_forall in Hen.
      now apply Hen, list_elem_of_In. }
    rewrite walkDir_Dir. cbv zeta.
    pose proof (call_result p (Dir nm es None) st) as Hres.
    cbn [node_is_dir node_name andb] in Hres. unfold set_Contains in Hres.
    rewrite (bool_decide_eq_false_2 _ Hnm) in Hres.
    destruct (call p _ None st) as [r st1]. cbn [fst] in Hres. subst r.
    apply (walkEntries_reaches p c
             (fun st0 => snd (call (p ++ node_name c :: q) (Some (entry_of n'))
                                None st0)) es Hc Hall).
    intros st2.
    destruct (IH (proj1 (Forall_forall _ _) Hall c Hc) Hk (Join p (node_name c)) st2)
      as [st0 Hext].
    exists st0. unfold Join in Hext. now rewrite <- app_assoc in Hext.
Qed.

Lemma call_visits (p : path) (d : option DirEntry) (err : option error)
    (st : state W) :
  EvVisit p ∈ trace (snd (call p d err st)).
Proof.
  destruct (call p d err st) as [r st'] eqn:Hfn.
  apply walkFn_cases_eq in Hfn. cbn [snd].
  inversion Hfn; subst; unfold addEvents, addSkip, setWriter;
    cbn [trace skippedFiles writer]; rewrite ?elem_of_app, ?elem_of_cons; auto.
Qed.

Lemma addSkip_listed (reason : string) (p : path) (st : state W) :
  p ∈ default [] (skippedFiles (addSkip reason p st) !! reason).
Proof.
  unfold addSkip. cbn [skippedFiles]. rewrite lookup_insert_eq. cbn.
  apply elem_of_app. right. now left.
Qed.

(** What the callback leaves for a file, when the writes succeed: a record
    or an entry of the ledger. *)
Lemma call_file_outcome (p : path) (nm : string) (f : file) (st : state W) :
  let st' := snd (call p (Some (entry_of (File nm f))) None st) in
  (exists r, EvRecord p r ∈ trace st') \/
  (exists reason, p ∈ default [] (skippedFiles st' !! reason)).
Proof.
  cbv zeta.
  destruct (call p (Some (entry_of (File nm f))) None st) as [r st'] eqn:Hfn.
  apply walkFn_cases_eq in Hfn. cbn [snd].
  inversion Hfn; simplify_eq; cbn [entry_of IsDir node_is_dir] in *;
    try discriminate.
  - right. eexists. apply addSkip_listed.
  - right. exists "File Read Error". unfold addEvents. cbn [skippedFiles].
    apply addSkip_listed.
  - right. eexists. apply addSkip_listed.
  - right. exists "File Read Error". unfold addEvents. cbn [skippedFiles].
    apply addSkip_listed.
  - match goal with
    | Hw : Write ?w0 ?bs = (_, Some _) |- _ =>
        pose proof (writes_succeed w0 bs) as Hok; rewrite Hw in Hok;
        discriminate Hok
    end.
  - left. eexists. unfold setWriter, addEvents. cbn [trace].
    rewrite !elem_of_app, !elem_of_cons, !elem_of_app, !elem_of_cons. eauto 10.
Qed.

Lemma call_dir_pruned (p : path) (nm : string) (es : list node)
    (e : option errno) (st : state W) :
  nm ∈ ignoreDirs ->
  p ∈ default []
        (skippedFiles (snd (call p (Some (entry_of (Dir nm es e))) None st))
           !! "Ignored Directory").
Proof.
  intros Hnm. unfold walkFn, bind, tell, skip, ret, set_Contains.
  cbn [entry_of IsDir Name node_is_dir node_name].
  rewrite (bool_decide_eq_true_2 _ Hnm). cbn [snd skippedFiles].
  rewrite lookup_insert_eq. cbn. apply elem_of_app. right. now left.
Qed.

(** What the callback leaves for a text file that reads: its record. *)
Lemma call_text_file (p : path) (nm : string) (f : file) (st : state W) :
  lookup_path fs p = Some (File nm f) ->
  open_err f = None -> read_err f = None -> readfile_err f = None ->
  x00 ∉ take 1024 (content f) ->
  ignoredName ignoreExts nm = false ->
  EvRecord p (mkRecord (Rel p) (resolveLanguage langMap (Ext nm) nm) (content f))
    ∈ trace (snd (call p (Some (entry_of (File nm f))) None st)).
Proof.
  intros Hl Ho Hr Hrf Hz Hig.
  assert (Hcheck : binaryCheck fs p = (false, None)).
  { unfold binaryCheck, os_Open, file_Read. rewrite Hl, Ho.
    cbn [h_file h_path]. rewrite Hr.
    apply Contains_zero_false in Hz. rewrite Hz. now destruct (_ && _). }
  assert (Hread : os_ReadFile fs p = inl (content f)).
  { unfold os_ReadFile. now rewrite Hl, Ho, Hrf. }
  destruct (call p (Some (entry_of (File nm f))) None st) as [r st'] eqn:Hfn.
  apply walkFn_cases_eq in Hfn. cbn [snd].
  inversion Hfn; simplify_eq; cbn [entry_of IsDir Name node_is_dir node_name] in *;
    try congruence.
  - match goal with
    | Hw : Write ?w0 ?bs = (_, Some _) |- _ =>
        pose proof (writes_succeed w0 bs) as Hok; rewrite Hw in Hok;
        discriminate Hok
    end.
  - unfold setWriter, addEvents. cbn [trace].
    rewrite !elem_of_app, !elem_of_cons, !elem_of_app, !elem_of_cons.
    right. right. right. right. right. left. subst lang. congruence.
Qed.
End Completeness.

Lemma ancestors_kept_view (iD : gset string) (t : node) (q : path) :
  ancestors_kept iD t q -> ancestors_kept iD (readDirView t) q.
Proof. intros Hk q1 Hq1 Hne. rewrite path_name_view. now apply Hk. Qed.

(** A run on a tree that enumerates, with writes that succeed, returns no
    error, and keeps what the callback leaves for every entry below kept
    directories. *)
Lemma bundle_reaches `{Writer W} (config : ProjectConfig) (env : Env) (w : W)
    (q : path) (n : node) :
  (forall (w0 : W) bs, snd (Write w0 bs) = None) ->
  lstat_err env = None ->
  enumerable (tree env) = true ->
  node_at (tree env) q n ->
  ancestors_kept (runDirs config) (tree env) q ->
  fst (bundle config env w) = None /\
  exists st0,
    extends
      (snd (walkFn (tree env) (runDirs config) (runExts config) (runLangs config)
              q (Some (entry_of n)) None st0))
      (snd (bundle config env w)).
Proof.
  intros Hw Hl Hen Hat Hk. unfold bundle, WalkDir. rewrite Hl.
  fold (runDirs config) (runExts config) (runLangs config).
  pose proof (walkDir_completes (tree env) (runDirs config) (runExts config)
                (runLangs config) Hw (readDirView (tree env))
                (enumerable_view _ Hen) [] (mkState ∅ w [])) as Hdone.
  destruct (walkDir_reaches (tree env) (runDirs config) (runExts config)
              (runLangs config) Hw (readDirView (tree env)) q (readDirView n)
              (node_at_view _ _ _ Hat) (enumerable_view _ Hen)
              (ancestors_kept_view _ _ _ Hk) [] (mkState ∅ w []))
    as [st0 Hext].
  rewrite entry_of_view in Hext. cbn [app] in Hext.
  destruct (walkDir _ [] (readDirView (tree env)) (mkState ∅ w [])) as [r st'].
  cbn [fst snd] in *. subst r. split; [reflexivity|]. now exists st0.
Qed.


Definition nestedTree : node :=
  Dir "." [ Dir "cmd" [ Dir "tool" [ File "main.go" (text "package main") ] None ]
              None;
            Dir "vendor" [ File "dep.go" (text "package dep") ] None ] None.

Lemma nested_main_at :
  node_at nestedTree ["cmd"; "tool"; "main.go"]
    (File "main.go" (text "package main")).
Proof.
  refine (at_below "." _ None (Dir "cmd" _ None) _ _ _ _); [left|].
  refine (at_below "cmd" _ None (Dir "tool" _ None) _ _ _ _); [left|].
  refine (at_below "tool" _ None (File "main.go" _) [] _ _ (at_here _)). left.
Qed.

(** [ancestors_kept], computed. *)
Definition kept_check (iD : gset string) (root : node) (q : path) : bool :=
  forallb (fun i => negb (set_Contains iD (path_name root (take i q))))
          (seq 0 (length q)).

Lemma kept_check_sound (iD : gset string) (root : node) (q : path) :
  kept_check iD root q = true -> ancestors_kept iD root q.
Proof.
  unfold kept_check. rewrite forallb_forall. intros Hall q1 [k ->] Hne.
  assert (Hk : k <> []) by (intros ->; now rewrite app_nil_r in Hne).
  specialize (Hall (length q1)).
  rewrite take_app_length in Hall.
  assert (Hin : In (length q1) (seq 0 (length (q1 ++ k)))).
  { apply in_seq. rewrite length_app. destruct k; [congruence|]. cbn. lia. }
  apply Hall, negb_true_iff in Hin. unfold set_Contains in Hin.
  now apply bool_decide_eq_false in Hin.
Qed.

Lemma nested_main_kept :
  ancestors_kept (runDirs goPreset) nestedTree ["cmd"; "tool"; "main.go"].
Proof. apply kept_check_sound. vm_compute. reflexivity. Qed.






(** ** The order of the walk *)

(** Byte-wise order on names, strict, and the lexical order on paths it
    gives: a directory before what it holds, the entries of a directory by
    name. *)
Definition name_lt (a b : string) : Prop := String.le a b /\ a <> b.

Definition entry_lt (a b : node) : Prop := name_lt (node_name a) (node_name b).

Inductive path_lt : path -> path -> Prop :=
| path_lt_nil a q : path_lt [] (a :: q)
| path_lt_head a b p q : name_lt a b -> path_lt (a :: p) (b :: q)
| path_lt_tail a p q : path_lt p q -> path_lt (a :: p) (a :: q).

Lemma path_lt_irrefl (p : path) : ~ path_lt p p.
Proof.
  induction p as [|a p IH]; intros Hlt; inversion Hlt; subst.
  - match goal with Hn : name_lt a a |- _ => now destruct Hn end.
  - now apply IH.
Qed.

Lemma path_lt_below (p x : path) : x <> [] -> path_lt p (p ++ x).
Proof.
  intros Hx. induction p as [|a p IH]; cbn [app].
  - destruct x; [congruence | constructor].
  - now apply path_lt_tail.
Qed.

Lemma path_lt_siblings (p : path) (a b : string) (x y : path) :
  name_lt a b -> path_lt (p ++ a :: x) (p ++ b :: y).
Proof.
  intros Hab. induction p as [|c p IH]; cbn [app].
  - now apply path_lt_head.
  - now apply path_lt_tail.
Qed.

(** Every listing of the tree is in strictly increasing order of name. *)
Inductive listing_sorted : node -> Prop :=
| sorted_file nm f : listing_sorted (File nm f)
| sorted_dir nm es e :
    StronglySorted entry_lt es -> Forall listing_sorted es ->
    listing_sorted (Dir nm es e).

Lemma entry_lt_of_distinct (l : list node) :
  StronglySorted entry_le l -> NoDup (node_name <$> l) ->
  StronglySorted entry_lt l.
Proof.
  induction 1 as [|x l Hs IH Hall]; intros Hnd; [constructor|].
  rewrite fmap_cons in Hnd. apply NoDup_cons in Hnd as [Hx Hnd].
  constructor; [now apply IH|].
  rewrite Forall_forall in Hall |- *. intros y Hy. split; [now apply Hall|].
  intros Heq. apply Hx. rewrite Heq. now apply list_elem_of_fmap_2.
Qed.

(** [os.ReadDir] gives the walk sorted listings. *)
Lemma readDirView_sorted (t : node) :
  distinct_names t = true -> listing_sorted (readDirView t).
Proof.
  induction t as [nm f | nm es e IH] using node_ind'; intros Hwf; [constructor|].
  apply distinct_names_Dir in Hwf as [Hnd Hwfs]. cbn [readDirView].
  constructor.
  - apply entry_lt_of_distinct.
    + unfold sortEntries. apply StronglySorted_merge_sort; apply _.
    + unfold sortEntries. rewrite merge_sort_Permutation.
      now rewrite readDirView_names.
  - apply Forall_forall. intros c' Hc'.
    apply sortEntries_elem, list_elem_of_In, in_map_iff in Hc'
      as (c & <- & Hc%list_elem_of_In).
    rewrite Forall_forall in IH, Hwfs. now apply IH; [|apply Hwfs].
Qed.

Section Order.
Context {W : Type} `{Writer W}.
Variable fs : node.
Variable ignoreDirs ignoreExts : gset string.
Variable langMap : gmap string string.

(** The paths of the events of one kind, in the order of the trace. *)
Variable sel : event -> option path.
Abbreviation selected := (omap sel).

Abbreviation invoke := (walkFn fs ignoreDirs ignoreExts langMap).

(** One invocation of the callback adds at most one event of the kind, at
    its own path. *)
Hypothesis sel_invoke :
  forall p d err (st : state W),
  exists evs,
    trace (snd (invoke p d err st)) = trace st ++ evs /\
    (selected evs = [] \/ selected evs = [p]).

Lemma walkEntries_order (p : path) (es : list node) :
  StronglySorted entry_lt es ->
  Forall (fun c => forall p st, exists evs,
            trace (snd (walkDir invoke p c st)) = trace st ++ evs /\
            Forall (fun q => p `prefix_of` q) (selected evs) /\
            StronglySorted path_lt (selected evs)) es ->
  forall st, exists evs,
    trace (snd (walkEntries invoke p es st)) = trace st ++ evs /\
    Forall (fun q => exists c, c ∈ es /\ Join p (node_name c) `prefix_of` q)
           (selected evs) /\
    StronglySorted path_lt (selected evs).
Proof.
  induction es as [|c es IH]; intros Hsorted Hall st.
  - exists []. cbn. rewrite app_nil_r. repeat split; constructor.
  - apply StronglySorted_cons in Hsorted as [Hlt Hsorted].
    apply Forall_cons in Hall as [Hc Hall].
    cbn [walkEntries].
    destruct (Hc (Join p (node_name c)) st) as (evs1 & Htr1 & Hbelow1 & Hs1).
    assert (Hb1 : Forall (fun q => exists c0, c0 ∈ c :: es /\
                            Join p (node_name c0) `prefix_of` q) (selected evs1)).
    { eapply Forall_impl; [exact Hbelow1|]. intros q Hq. exists c.
      split; [left | exact Hq]. }
    destruct (walkDir invoke (Join p (node_name c)) c st) as [[err|] st1];
      cbn [snd] in Htr1.
    { exists evs1. destruct err; cbn [snd]; auto. }
    destruct (IH Hsorted Hall st1) as (evs2 & Htr2 & Hbelow2 & Hs2).
    exists (evs1 ++ evs2). split; [now rewrite Htr2, Htr1, app_assoc|].
    rewrite omap_app. split.
    + apply Forall_app. split; [exact Hb1|].
      eapply Forall_impl; [exact Hbelow2|]. intros q (c0 & Hc0 & Hq).
      exists c0. split; [now right | exact Hq].
    + apply StronglySorted_app_2; [|exact Hs1 | exact Hs2].
      intros x y Hx Hy.
      rewrite Forall_forall in Hbelow1. rewrite Forall_forall in Hbelow2.
      rewrite Forall_forall in Hlt.
      destruct (Hbelow1 x Hx) as [kx ->].
      destruct (Hbelow2 y Hy) as (c0 & Hc0 & [ky ->]).
      unfold Join. rewrite <- !app_assoc. cbn [app].
      apply path_lt_siblings, Hlt, Hc0.
Qed.

(** The events of the kind that the walk of a sorted tree adds are at paths
    at or below the entry walked, in strictly increasing lexical order. *)
Lemma walkDir_order (n : node) :
  listing_sorted n ->
  enumerable n = true \/ (forall q, sel (EvVisit q) = None) ->
  forall p st, exists evs,
    trace (snd (walkDir invoke p n st)) = trace st ++ evs /\
    Forall (fun q => p `prefix_of` q) (selected evs) /\
    StronglySorted path_lt (selected evs).
Proof.
  induction n as [nm f | nm es e IH] using node_ind'; intros Hls Hsecond p st.
  - rewrite walkDir_File.
    destruct (sel_invoke p (Some (entry_of (File nm f))) None st)
      as (evs & Htr & [Hs | Hs]); exists evs; rewrite Hs;
      (split; [exact Htr|]; split; [|repeat constructor]).
    + constructor.
    + apply Forall_cons. split; [reflexivity | constructor].
  - inversion Hls as [| nm' es' e' Hsorted Hall]; subst.
    rewrite walkDir_Dir. cbv zeta.
    destruct (sel_invoke p (Some (entry_of (Dir nm es e))) None st)
      as (evs1 & Htr1 & Hsel1).
    assert (Hb1 : Forall (fun q => p `prefix_of` q) (selected evs1) /\
                  StronglySorted path_lt (selected evs1) /\
                  forall x, x ∈ selected evs1 -> x = p).
    { destruct Hsel1 as [-> | ->].
      - split; [constructor|]. split; [constructor|].
        intros x Hx. inversion Hx.
      - split; [apply Forall_cons; split; [reflexivity | constructor]|].
        split; [repeat constructor|].
        intros x Hx. now apply list_elem_of_singleton in Hx. }
    destruct Hb1 as (Hbelow1 & Hs1 & Honly1).
    destruct (invoke p _ None st) as [[err|] st1]; cbn [snd] in Htr1.
    { exists evs1. destruct err; cbn [snd]; auto. }
    destruct e as [errno|].
    { rewrite fn_propagates. exists (evs1 ++ [EvVisit p]).
      destruct Hsecond as [Hen | Hnone]; [discriminate Hen|].
      cbn [snd addEvents trace]. rewrite Htr1, omap_app. cbn [omap list_omap].
      rewrite Hnone. cbn. rewrite app_nil_r, app_assoc. auto. }
    assert (Hchildren : Forall (fun c => forall p st, exists evs,
              trace (snd (walkDir invoke p c st)) = trace st ++ evs /\
              Forall (fun q => p `prefix_of` q) (selected evs) /\
              StronglySorted path_lt (selected evs)) es).
    { rewrite Forall_forall in IH. rewrite Forall_forall in Hall.
      apply Forall_forall. intros c Hc.
      apply IH; [exact Hc | now apply Hall |].
      destruct Hsecond as [Hen | Hnone]; [left | now right].
      cbn [enumerable] in Hen. rewrite forallb_forall in Hen.
      now apply Hen, list_elem_of_In. }
    destruct (walkEntries_order p es Hsorted Hchildren st1)
      as (evs2 & Htr2 & Hbelow2 & Hs2).
    exists (evs1 ++ evs2). split; [now rewrite Htr2, Htr1, app_assoc|].
    rewrite omap_app. split.
    + apply Forall_app. split; [exact Hbelow1|].
      eapply Forall_impl; [exact Hbelow2|]. intros q (c & _ & Hq).
      etransitivity; [|exact Hq]. now apply prefix_app_r.
    + apply StronglySorted_app_2; [|exact Hs1 | exact Hs2].
      intros x y Hx Hy. rewrite (Honly1 x Hx).
      rewrite Forall_forall in Hbelow2.
      destruct (Hbelow2 y Hy) as (c & _ & [k ->]).
      unfold Join. rewrite <- app_assoc. now apply path_lt_below.
Qed.
End Order.

Definition visit_path (ev : event) : option path :=
  match ev with EvVisit p => Some p | _ => None end.

Definition record_path (ev : event) : option path :=
  match ev with EvRecord p _ => Some p | _ => None end.

(** The paths the callback was invoked on, and the paths of the records,
    in the order of the run. *)
Definition visited (tr : list event) : list path := omap visit_path tr.
Definition recorded (tr : list event) : list path := omap record_path tr.

Lemma calls_not_selected (fs : node) (p : path) :
  omap visit_path (binaryCheck_calls fs p) = [] /\
  omap record_path (binaryCheck_calls fs p) = [].
Proof. unfold binaryCheck_calls. now destruct (os_Open fs p). Qed.

Lemma invoke_visits `{Writer W} (fs : node) (iD iE : gset string)
    (lm : gmap string string) (p : path) (d : option DirEntry)
    (err : option error) (st : state W) :
  exists evs,
    trace (snd (walkFn fs iD iE lm p d err st)) = trace st ++ evs /\
    omap visit_path evs = [p].
Proof.
  destruct (walkFn fs iD iE lm p d err st) as [r st'] eqn:Hfn.
  apply walkFn_cases_eq in Hfn. cbn [snd].
  destruct (calls_not_selected fs p) as [Hcalls _].
  inversion Hfn; subst; unfold addEvents, setWriter, addSkip;
    cbn [trace skippedFiles writer]; rewrite <- ?app_assoc;
    (eexists; split; [reflexivity|]);
    cbn [omap list_omap visit_path app];
    rewrite ?omap_app, ?Hcalls; reflexivity.
Qed.

Lemma invoke_records `{Writer W} (fs : node) (iD iE : gset string)
    (lm : gmap string string) (p : path) (d : option DirEntry)
    (err : option error) (st : state W) :
  exists evs,
    trace (snd (walkFn fs iD iE lm p d err st)) = trace st ++ evs /\
    (omap record_path evs = [] \/ omap record_path evs = [p]).
Proof.
  destruct (walkFn fs iD iE lm p d err st) as [r st'] eqn:Hfn.
  apply walkFn_cases_eq in Hfn. cbn [snd].
  destruct (calls_not_selected fs p) as [_ Hcalls].
  inversion Hfn; subst; unfold addEvents, setWriter, addSkip;
    cbn [trace skippedFiles writer]; rewrite <- ?app_assoc;
    (eexists; split; [reflexivity|]);
    cbn [omap list_omap record_path app];
    rewrite ?omap_app, ?Hcalls; cbn [omap list_omap record_path app]; auto.
Qed.

Lemma sorted_NoDup (l : list path) : StronglySorted path_lt l -> NoDup l.
Proof.
  induction 1 as [|x l Hs IH Hall]; constructor; [|exact IH].
  intros Hx. rewrite Forall_forall in Hall.
  exact (path_lt_irrefl x (Hall x Hx)).
Qed.

(** The events of one kind of a whole run are in lexical order of path. *)
Lemma bundle_order `{Writer W} (sel : event -> option path)
    (config : ProjectConfig) (env : Env) (w : W) :
  (forall p d err (st : state W), exists evs,
      trace (snd (walkFn (tree env) (runDirs config) (runExts config)
                    (runLangs config) p d err st)) = trace st ++ evs /\
      (omap sel evs = [] \/ omap sel evs = [p])) ->
  distinct_names (tree env) = true ->
  enumerable (tree env) = true \/ (forall q, sel (EvVisit q) = None) ->
  StronglySorted path_lt (omap sel (trace (snd (bundle config env w)))).
Proof.
  intros Hsel Hwf Hsecond. unfold bundle, WalkDir.
  fold (runDirs config) (runExts config) (runLangs config).
  destruct (lstat_err env) as [errno|].
  - destruct (Hsel [] None (Some (PathError "lstat" [] errno)) (mkState ∅ w []))
      as (evs & Htr & Hs).
    cbn [trace app] in Htr.
    destruct (walkFn _ _ _ _ [] None _ _) as [[err|] st']; cbn [snd] in *;
      [destruct err|]; cbn [snd]; rewrite Htr;
      destruct Hs as [-> | ->]; repeat constructor.
  - assert (Hsecond' : enumerable (readDirView (tree env)) = true \/
                       (forall q, sel (EvVisit q) = None)).
    { destruct Hsecond as [Hen | Hnone]; [left | now right].
      now apply enumerable_view. }
    destruct (walkDir_order (tree env) (runDirs config) (runExts config)
                (runLangs config) sel Hsel (readDirView (tree env))
                (readDirView_sorted _ Hwf) Hsecond' [] (mkState ∅ w []))
      as (evs & Htr & _ & Hs).
    cbn [trace app] in Htr.
    destruct (walkDir _ [] (readDirView (tree env)) _) as [[err|] st'];
      cbn [snd] in *; [destruct err|]; cbn [snd]; now rewrite Htr.
Qed.

(** X14: when names are distinct within every directory, the records of a
    run are written in strictly increasing lexical order of their paths (a
    directory's files by name, byte-wise); so no path has two records. *)
Theorem records_in_lexical_order `{Writer W} (config : ProjectConfig)
    (env : Env) (w : W) :
  distinct_names (tree env) = true ->
  StronglySorted path_lt (recorded (trace (snd (bundle config env w)))) /\
  NoDup (recorded (trace (snd (bundle config env w)))).
Proof.
  intros Hwf.
  assert (Hs : StronglySorted path_lt
                 (recorded (trace (snd (bundle config env w))))).
  { apply (bundle_order record_path); [|exact Hwf | now right].
    intros p d err st. apply invoke_records. }
  split; [exact Hs | now apply sorted_NoDup].
Qed.

Definition manyTree : node :=
  Dir "." [ File "z.go" (text "package z");
            Dir "lib" [ File "b.go" (text "package b");
                        File "a.go" (text "package a") ] None;
            File "a.go" (text "package a") ] None.

Lemma records_in_lexical_order_witness :
  StronglySorted path_lt
    (recorded (trace (snd (bundle goPreset (quietEnv manyTree) (mkMem []))))) /\
  NoDup (recorded (trace (snd (bundle goPreset (quietEnv manyTree) (mkMem []))))).
Proof.
  apply (records_in_lexical_order goPreset (quietEnv manyTree) (mkMem [])).
  reflexivity.
Defined.

Example manyTree_order :
  recorded (trace (snd (bundle goPreset (quietEnv manyTree) (mkMem [])))) =
  [ ["a.go"]; ["lib"; "a.go"]; ["lib"; "b.go"]; ["z.go"] ].
Proof. vm_compute. reflexivity. Qed.

(** X15: when names are distinct within every directory and every
    directory enumerates, the callback is invoked in strictly increasing
    lexical order of path, a directory before what it holds; so it is
    invoked on no path twice. *)
Theorem visits_in_lexical_order `{Writer W} (config : ProjectConfig)
    (env : Env) (w : W) :
  distinct_names (tree env) = true ->
  enumerable (tree env) = true ->
  StronglySorted path_lt (visited (trace (snd (bundle config env w)))) /\
  NoDup (visited (trace (snd (bundle config env w)))).
Proof.
  intros Hwf Hen.
  assert (Hs : StronglySorted path_lt
                 (visited (trace (snd (bundle config env w))))).
  { apply (bundle_order visit_path); [|exact Hwf | now left].
    intros p d err st.
    destruct (invoke_visits (tree env) (runDirs config) (runExts config)
                (runLangs config) p d err st) as (evs & Htr & Hv).
    exists evs. split; [exact Htr | now right]. }
  split; [exact Hs | now apply sorted_NoDup].
Qed.

Lemma visits_in_lexical_order_witness :
  StronglySorted path_lt
    (visited (trace (snd (bundle goPreset (quietEnv manyTree) (mkMem []))))) /\
  NoDup (visited (trace (snd (bundle goPreset (quietEnv manyTree) (mkMem []))))).
Proof.
  apply (visits_in_lexical_order goPreset (quietEnv manyTree) (mkMem []));
    reflexivity.
Defined.

(** ** Every path is classified once *)

Definition occurrences (q : path) (l : list path) : nat :=
  length (filter (fun x => x = q) l).

Lemma occurrences_app (q : path) (l1 l2 : list path) :
  occurrences q (l1 ++ l2) = (occurrences q l1 + occurrences q l2)%nat.
Proof. unfold occurrences. now rewrite filter_app, length_app. Qed.

Lemma occurrences_elem (q : path) (l : list path) :
  q ∈ l <-> (0 < occurrences q l)%nat.
Proof.
  unfold occurrences. induction l as [|x l IH].
  - cbn. split; [intros Hq; inversion Hq | lia].
  - rewrite filter_cons, elem_of_cons. destruct (decide (x = q)) as [-> | Hne].
    + cbn. split; [lia | now left].
    + rewrite IH. split; [intros [Heq | Hlt]; [congruence | exact Hlt] | now right].
Qed.

Lemma occurrences_NoDup (l : list path) :
  (forall q, (occurrences q l <= 1)%nat) -> NoDup l.
Proof.
  induction l as [|x l IH]; intros Hocc; constructor.
  - intros Hx. apply occurrences_elem in Hx. specialize (Hocc x).
    unfold occurrences in *. rewrite filter_cons in Hocc.
    destruct (decide (x = x)); [cbn in Hocc; lia | congruence].
  - apply IH. intros q. specialize (Hocc q). unfold occurrences in *.
    rewrite filter_cons in Hocc. destruct (decide (x = q)); cbn in Hocc; lia.
Qed.

Lemma NoDup_occurrences (l : list path) (q : path) :
  NoDup l -> (occurrences q l <= 1)%nat.
Proof.
  induction 1 as [|x l Hx Hnd IH]; [cbn; lia|].
  unfold occurrences in *. rewrite filter_cons.
  destruct (decide (x = q)) as [-> | Hne]; [|exact IH]. cbn.
  assert (Hz : ~ (0 < length (filter (fun x => x = q) l))%nat)
    by (intros Hlt; apply Hx; now apply occurrences_elem).
  lia.
Qed.

(** How often a path is listed in the ledger, under the four reasons. *)
Definition listed {W} (q : path) (st : state W) : nat :=
  (occurrences q (default [] (skippedFiles st !! "Ignored Directory")) +
   occurrences q (default [] (skippedFiles st !! "Ignored Extension/File")) +
   occurrences q (default [] (skippedFiles st !! "Detected Binary Content")) +
   occurrences q (default [] (skippedFiles st !! "File Read Error")))%nat.

Lemma listed_addSkip {W} (q p : path) (reason : string) (st : state W) :
  reason ∈ [ "Ignored Directory"; "Ignored Extension/File";
             "Detected Binary Content"; "File Read Error" ] ->
  listed q (addSkip reason p st) = (listed q st + occurrences q [p])%nat.
Proof.
  intros Hr. unfold listed, addSkip. cbn [skippedFiles].
  repeat (apply elem_of_cons in Hr as [-> | Hr]);
    [ | | | | inversion Hr ];
    rewrite lookup_insert_eq, !lookup_insert_ne by discriminate;
    cbn [from_option id]; rewrite occurrences_app; lia.
Qed.

Lemma listed_addEvents {W} (q : path) (evs : list event) (st : state W) :
  listed q (addEvents evs st) = listed q st.
Proof. reflexivity. Qed.

Lemma listed_setWriter {W} (q : path) (w : W) (st : state W) :
  listed q (setWriter w st) = listed q st.
Proof. reflexivity. Qed.

Section Once.
Context {W : Type} `{Writer W}.
Variable config : ProjectConfig.
Variable env : Env.

(** A path is not recorded and listed more often than it was visited. *)
Definition classified_when_visited (st : state W) : Prop :=
  forall q,
    (occurrences q (recorded (trace st)) + listed q st
     <= occurrences q (visited (trace st)))%nat.

Lemma bundle_classified_when_visited (w : W) :
  classified_when_visited (snd (bundle config env w)).
Proof.
  apply bundle_invariant.
  - intros p n err st res st' Hat Hk Hst Hfn q. specialize (Hst q).
    apply walkFn_cases_eq in Hfn.
    destruct (calls_not_selected (tree env) p) as [Hcv Hcr].
    inversion Hfn; subst;
      rewrite ?listed_addEvents, ?listed_setWriter;
      rewrite ?listed_addSkip by (repeat constructor);
      rewrite ?listed_addEvents, ?listed_setWriter;
      unfold addEvents, setWriter, addSkip;
      cbn [trace skippedFiles writer];
      unfold visited, recorded;
      rewrite ?omap_app; cbn [omap list_omap visit_path record_path app];
      rewrite ?omap_app, ?Hcv, ?Hcr;
      cbn [omap list_omap visit_path record_path app];
      fold (visited (trace st)) (recorded (trace st));
      rewrite ?occurrences_app;
      cbn [occurrences filter list_filter length]; lia.
  - intros q. unfold listed. cbn [skippedFiles trace].
    rewrite !lookup_empty. cbn. lia.
Qed.
End Once.

Lemma listed_one {W} (q : path) (st : state W) (reason : string)
    (paths : list path) :
  reason ∈ [ "Ignored Directory"; "Ignored Extension/File";
             "Detected Binary Content"; "File Read Error" ] ->
  skippedFiles st !! reason = Some paths ->
  (occurrences q paths <= listed q st)%nat.
Proof.
  intros Hr Hl. unfold listed.
  repeat (apply elem_of_cons in Hr as [-> | Hr]);
    [ | | | | inversion Hr ];
    rewrite Hl; cbn [from_option id]; lia.
Qed.

Lemma listed_two {W} (q : path) (st : state W) (reason reason' : string)
    (paths paths' : list path) :
  reason ∈ [ "Ignored Directory"; "Ignored Extension/File";
             "Detected Binary Content"; "File Read Error" ] ->
  reason' ∈ [ "Ignored Directory"; "Ignored Extension/File";
              "Detected Binary Content"; "File Read Error" ] ->
  reason' <> reason ->
  skippedFiles st !! reason = Some paths ->
  skippedFiles st !! reason' = Some paths' ->
  (occurrences q paths + occurrences q paths' <= listed q st)%nat.
Proof.
  intros Hr Hr' Hne Hl Hl'. unfold listed.
  repeat (apply elem_of_cons in Hr as [-> | Hr]);
    [ | | | | inversion Hr ];
    (repeat (apply elem_of_cons in Hr' as [-> | Hr']);
     [ | | | | inversion Hr' ]);
    try congruence;
    rewrite Hl, Hl'; cbn [from_option id]; lia.
Qed.

Lemma ledger_reason `{Writer W} (config : ProjectConfig) (env : Env) (w : W)
    (reason : string) (paths : list path) :
  skippedFiles (snd (bundle config env w)) !! reason = Some paths ->
  reason ∈ [ "Ignored Directory"; "Ignored Extension/File";
             "Detected Binary Content"; "File Read Error" ].
Proof.
  intros Hl.
  destruct (bundle_ledger_justified config env w reason paths Hl) as [Hne Hall].
  destruct paths as [|q paths]; [congruence|].
  destruct (Hall q (list_elem_of_here _ _))
    as [[-> _] | [[-> _] | [[-> _] | [-> _]]]]; repeat constructor.
Qed.

Lemma bundle_classified_once `{Writer W} (config : ProjectConfig) (env : Env)
    (w : W) (q : path) :
  distinct_names (tree env) = true ->
  enumerable (tree env) = true ->
  (occurrences q (recorded (trace (snd (bundle config env w)))) +
   listed q (snd (bundle config env w)) <= 1)%nat.
Proof.
  intros Hwf Hen.
  pose proof (bundle_classified_when_visited config env w q) as Hle.
  assert (Hs : StronglySorted path_lt
                 (visited (trace (snd (bundle config env w))))).
  { apply (bundle_order visit_path); [|exact Hwf | now left].
    intros p d err st.
    destruct (invoke_visits (tree env) (runDirs config) (runExts config)
                (runLangs config) p d err st) as (evs & Htr & Hv).
    exists evs. split; [exact Htr | now right]. }
  pose proof (NoDup_occurrences _ q (sorted_NoDup _ Hs)). lia.
Qed.

Lemma ledger_list_NoDup `{Writer W} (config : ProjectConfig) (env : Env)
    (w : W) (reason : string) (paths : list path) :
  distinct_names (tree env) = true ->
  enumerable (tree env) = true ->
  skippedFiles (snd (bundle config env w)) !! reason = Some paths ->
  NoDup paths.
Proof.
  intros Hwf Hen Hl.
  pose proof (ledger_reason config env w reason paths Hl) as Hr.
  apply occurrences_NoDup. intros q.
  pose proof (bundle_classified_once config env w q Hwf Hen).
  pose proof (listed_one q _ reason paths Hr Hl). lia.
Qed.

Lemma ledger_lists_disjoint `{Writer W} (config : ProjectConfig) (env : Env)
    (w : W) (reason reason' : string) (paths paths' : list path) (q : path) :
  distinct_names (tree env) = true ->
  enumerable (tree env) = true ->
  skippedFiles (snd (bundle config env w)) !! reason = Some paths ->
  skippedFiles (snd (bundle config env w)) !! reason' = Some paths' ->
  q ∈ paths -> q ∈ paths' -> reason' = reason.
Proof.
  intros Hwf Hen Hl Hl' Hq Hq'.
  destruct (decide (reason' = reason)) as [Heq | Hne]; [exact Heq|].
  apply occurrences_elem in Hq, Hq'.
  pose proof (bundle_classified_once config env w q Hwf Hen) as Hone.
  pose proof (ledger_reason config env w reason paths Hl) as Hr.
  pose proof (ledger_reason config env w reason' paths' Hl') as Hr'.
  pose proof (listed_two q _ reason reason' paths paths' Hr Hr' Hne Hl Hl').
  lia.
Qed.

Lemma ledger_not_recorded `{Writer W} (config : ProjectConfig) (env : Env)
    (w : W) (reason : string) (paths : list path) (q : path) :
  distinct_names (tree env) = true ->
  enumerable (tree env) = true ->
  skippedFiles (snd (bundle config env w)) !! reason = Some paths ->
  q ∈ paths -> q ∉ recorded (trace (snd (bundle config env w))).
Proof.
  intros Hwf Hen Hl Hq Hrec. apply occurrences_elem in Hq, Hrec.
  pose proof (bundle_classified_once config env w q Hwf Hen) as Hone.
  pose proof (ledger_reason config env w reason paths Hl) as Hr.
  pose proof (listed_one q _ reason paths Hr Hl). lia.
Qed.

(** X16: when names are distinct within every directory and every directory
    enumerates, a path is classified once: a list of the ledger names no
    path twice, and a path it names has no record and is in the list of no
    other reason. *)
Theorem ledger_paths_classified_once `{Writer W} (config : ProjectConfig)
    (env : Env) (w : W) (reason : string) (paths : list path) :
  distinct_names (tree env) = true ->
  enumerable (tree env) = true ->
  skippedFiles (snd (bundle config env w)) !! reason = Some paths ->
  NoDup paths /\
  forall q, q ∈ paths ->
    (q ∉ recorded (trace (snd (bundle config env w)))) /\
    forall reason' paths',
      reason' <> reason ->
      skippedFiles (snd (bundle config env w)) !! reason' = Some paths' ->
      q ∉ paths'.
Proof.
  intros Hwf Hen Hl. split; [now apply (ledger_list_NoDup config env w reason)|].
  intros q Hq. split.
  - now apply (ledger_not_recorded config env w reason paths).
  - intros reason' paths' Hne Hl' Hq'. apply Hne.
    now apply (ledger_lists_disjoint config env w reason reason' paths paths' q).
Qed.

Definition mixedTree : node :=
  Dir "." [ File "main.go" (text "package main");
            File "debug.log" (text "started");
            File "logo.ico" (mkFile [x00; x01; x02] None None None);
            Dir ".git" [ File "config" (text "[core]") ] None ] None.

Lemma ledger_paths_classified_once_witness :
  NoDup [ ["logo.ico"] ] /\
  forall q, q ∈ [ ["logo.ico"] ] ->
    (q ∉ recorded (trace (snd (bundle genericPreset (quietEnv mixedTree)
                                 (mkMem []))))) /\
    forall reason' paths',
      reason' <> "Detected Binary Content" ->
      skippedFiles (snd (bundle genericPreset (quietEnv mixedTree) (mkMem [])))
        !! reason' = Some paths' ->
      q ∉ paths'.
Proof.
  apply (ledger_paths_classified_once genericPreset (quietEnv mixedTree)
           (mkMem []) "Detected Binary Content" [ ["logo.ico"] ]).
  - reflexivity.
  - reflexivity.
  - vm_compute. reflexivity.
Defined.

(** ** Directories that do not enumerate *)

(** No directory that the walk descends into fails to enumerate: below a
    directory with an ignored name nothing is asked. *)
Fixpoint kept_enumerable (iD : gset string) (n : node) : bool :=
  match n with
  | File _ _ => true
  | Dir nm es e =>
      set_Contains iD nm ||
      (match e with None => true | Some _ => false end &&
       forallb (kept_enumerable iD) es)
  end.

Lemma kept_enumerable_view (iD : gset string) (t : node) :
  kept_enumerable iD (readDirView t) = kept_enumerable iD t.
Proof.
  induction t as [nm f | nm es e IH] using node_ind'; [reflexivity|].
  cbn [readDirView kept_enumerable]. f_equal. f_equal.
  rewrite Forall_forall in IH.
  apply eq_true_iff_eq. rewrite !forallb_forall. split.
  - intros Hall c Hc. rewrite <- IH by now apply list_elem_of_In.
    apply Hall, list_elem_of_In, sortEntries_elem, list_elem_of_In, in_map, Hc.
  - intros Hall c' Hc'.
    apply list_elem_of_In, sortEntries_elem, list_elem_of_In, in_map_iff in Hc'
      as (c & <- & Hc).
    rewrite IH by now apply list_elem_of_In. now apply Hall.
Qed.

(** A directory that does not enumerate, under no directory with an ignored
    name and with no ignored name itself. *)
Definition unreadable_kept (iD : gset string) (root : node) (q : path) : Prop :=
  exists nm es errno,
    node_at root q (Dir nm es (Some errno)) /\
    ancestors_kept iD root q /\ nm ∉ iD.

Lemma kept_enumerable_at (iD : gset string) (root : node) (nm : string)
    (es : list node) (errno : errno) (n : node) (q : path) (d : node) :
  node_at n q d -> d = Dir nm es (Some errno) -> nm ∉ iD ->
  forall p, node_at root p n -> ancestors_kept iD root (p ++ q) ->
  kept_enumerable iD n = false.
Proof.
  intros Hat Hd Hnm.
  induction Hat as [n | nm0 es0 e0 c q d Hc Hat IH]; intros p Hroot Hk.
  - subst n. cbn [kept_enumerable]. unfold set_Contains.
    now rewrite (bool_decide_eq_false_2 _ Hnm).
  - cbn [kept_enumerable].
    assert (Hnm0 : nm0 ∉ iD).
    { change nm0 with (node_name (Dir nm0 es0 e0)).
      rewrite (node_at_name _ _ _ Hroot). apply Hk.
      - now apply prefix_app_r.
      - intros Heq. apply (f_equal length) in Heq.
        rewrite length_app in Heq. cbn in Heq. lia. }
    unfold set_Contains at 1. rewrite (bool_decide_eq_false_2 _ Hnm0).
    cbn [orb]. apply andb_false_iff. right.
    assert (Hcf : kept_enumerable iD c = false).
    { apply (IH Hd (p ++ [node_name c])).
      - eapply node_at_snoc; [exact Hroot | exact Hc].
      - now rewrite <- app_assoc. }
    destruct (forallb (kept_enumerable iD) es0) eqn:Hall; [|reflexivity].
    rewrite forallb_forall in Hall.
    rewrite Hall in Hcf by now apply list_elem_of_In. discriminate Hcf.
Qed.

Lemma kept_enumerable_false (iD : gset string) (root : node) (n : node) :
  kept_enumerable iD n = false ->
  forall p, node_at root p n -> ancestors_kept iD root p ->
  exists q, unreadable_kept iD root (p ++ q).
Proof.
  induction n as [nm f | nm es e IH] using node_ind'; intros Hf p Hroot Hk;
    [discriminate Hf|].
  cbn [kept_enumerable] in Hf. apply orb_false_iff in Hf as [Hnm Hf].
  unfold set_Contains in Hnm. apply bool_decide_eq_false in Hnm.
  destruct e as [errno|].
  - exists []. rewrite app_nil_r. now exists nm, es, errno.
  - cbn [andb] in Hf.
    assert (Hex : exists c, c ∈ es /\ kept_enumerable iD c = false).
    { clear IH Hroot. induction es as [|c es IHes]; [discriminate Hf|].
      cbn [forallb] in Hf. apply andb_false_iff in Hf as [Hc | Hrest].
      - exists c. split; [left | exact Hc].
      - destruct (IHes Hrest) as (c' & Hc' & Hcf). exists c'.
        split; [now right | exact Hcf]. }
    destruct Hex as (c & Hc & Hcf).
    rewrite Forall_forall in IH.
    destruct (IH c Hc Hcf (p ++ [node_name c])) as [q Hq].
    + eapply node_at_snoc; [exact Hroot | exact Hc].
    + apply ancestors_kept_snoc; [exact Hk|].
      now rewrite <- (node_at_name _ _ _ Hroot).
    + exists (node_name c :: q). now rewrite <- app_assoc in Hq.
Qed.

Section Unreadable.
Context {W : Type} `{Writer W}.
Variable fs : node.
Variable ignoreDirs ignoreExts : gset string.
Variable langMap : gmap string string.

Hypothesis writes_succeed : forall (w : W) bs, snd (Write w bs) = None.

(** With writes that succeed, the walk of an entry returns no error when
    every directory it descends into enumerates, and the error of an
    enumeration otherwise. *)
Lemma walkDir_kept_enumerable (n : node) :
  forall p st,
    if kept_enumerable ignoreDirs n
    then fst (walkDir (walkFn fs ignoreDirs ignoreExts langMap) p n st) = None
    else exists q errno,
        fst (walkDir (walkFn fs ignoreDirs ignoreExts langMap) p n st) =
          Some (PathError "open" q errno).
Proof.
  induction n as [nm f | nm es e IH] using node_ind'; intros p st.
  - cbn [kept_enumerable].
    rewrite walkDir_File, (call_result _ _ _ _ writes_succeed). reflexivity.
  - rewrite walkDir_Dir. cbv zeta.
    pose proof (call_result fs ignoreDirs ignoreExts langMap writes_succeed
                  p (Dir nm es e) st) as Hres.
    destruct (walkFn fs ignoreDirs ignoreExts langMap p _ None st) as [r st1].
    cbn [fst] in Hres. subst r.
    cbn [node_is_dir node_name andb kept_enumerable].
    destruct (set_Contains ignoreDirs nm); [reflexivity|]. cbn [orb].
    destruct e as [errno|].
    { rewrite fn_propagates. cbn [andb fst]. now exists p, errno. }
    cbn [andb]. clear st. revert st1.
    induction IH as [|c es Hc _ IHes]; intros st1; [reflexivity|].
    cbn [walkEntries forallb].
    specialize (Hc (Join p (node_name c)) st1).
    destruct (walkDir _ (Join p (node_name c)) c st1) as [r st2].
    cbn [fst] in Hc.
    destruct (kept_enumerable ignoreDirs c).
    + subst r. cbn [andb]. apply IHes.
    + destruct Hc as (q & errno & ->). cbn [andb fst]. now exists q, errno.
Qed.
End Unreadable.

Lemma bundle_kept_enumerable `{Writer W} (config : ProjectConfig) (env : Env)
    (w : W) :
  (forall (w0 : W) bs, snd (Write w0 bs) = None) ->
  lstat_err env = None ->
  if kept_enumerable (runDirs config) (tree env)
  then fst (bundle config env w) = None
  else exists q errno, fst (bundle config env w) = Some (PathError "open" q errno).
Proof.
  intros Hw Hl. unfold bundle, WalkDir. rewrite Hl.
  fold (runDirs config) (runExts config) (runLangs config).
  pose proof (walkDir_kept_enumerable (tree env) (runDirs config)
                (runExts config) (runLangs config) Hw (readDirView (tree env))
                [] (mkState ∅ w [])) as Hres.
  rewrite kept_enumerable_view in Hres.
  destruct (walkDir _ [] (readDirView (tree env)) _) as [r st'].
  cbn [fst] in Hres.
  destruct (kept_enumerable (runDirs config) (tree env)).
  - now subst r.
  - destruct Hres as (q & errno & ->). now exists q, errno.
Qed.


(** A directory three levels down that cannot be listed. *)
Definition deepLockedTree : node :=
  Dir "." [ File "a.go" (text "package a");
            Dir "cmd" [ Dir "tool" [ File "main.go" (text "package main") ]
                          (Some EACCES) ] None ] None.

Lemma deepLocked_unreadable :
  unreadable_kept (runDirs goPreset) deepLockedTree ["cmd"; "tool"].
Proof.
  exists "tool", [ File "main.go" (text "package main") ], EACCES.
  split; [|split].
  - refine (at_below "." _ None (Dir "cmd" _ None) _ _ _ _); [right; left|].
    refine (at_below "cmd" _ None (Dir "tool" _ _) [] _ _ (at_here _)). left.
  - apply kept_check_sound. vm_compute. reflexivity.
  - unfold runDirs. rewrite newStringSet_elem. vm_compute.
    intros Hin. repeat (apply elem_of_cons in Hin as [Hin | Hin];
                        [discriminate Hin|]). inversion Hin.
Qed.


Example deepLocked_error :
  fst (bundle goPreset (quietEnv deepLockedTree) (mkMem [])) =
  Some (PathError "open" ["cmd"; "tool"] EACCES).
Proof. vm_compute. reflexivity. Qed.


(** A [vendor] directory that cannot be listed, under the Go preset. *)
Definition lockedVendorTree : node :=
  Dir "." [ File "a.go" (text "package a");
            Dir "vendor" [ Dir "dep" [] (Some EACCES) ] (Some EACCES) ] None.

Lemma lockedVendor_kept (q : path) :
  ~ unreadable_kept (runDirs goPreset) lockedVendorTree q.
Proof.
  intros (nm & es & errno & Hat & Hk & Hnm).
  pose proof (kept_enumerable_at (runDirs goPreset) lockedVendorTree nm es errno
                lockedVendorTree q _ Hat eq_refl Hnm [] (at_here _) Hk) as Hf.
  vm_compute in Hf. discriminate Hf.
Qed.


(** ** The skipped files report *)

(** The lines of the report of [main], [-report-skipped]. *)
Inductive printed :=
| ReportTitle                  (* "--- Skipped Files Report ---" *)
| NoFilesSkipped               (* "No files were skipped." *)
| ReasonLine (reason : string) (* "Reason: %s" *)
| PathLine (p : path)          (* "  - %s" *)
| ReportRule.                  (* "--------------------------" *)

(** One turn of [for reason, paths := range skippedFiles]. *)
Definition reportSection (kv : string * list path) : list printed :=
  ReasonLine kv.1 :: (PathLine <$> kv.2).

(** The report: [range] is the order in which the [range] clause yields the
    entries of the ledger, which Go leaves open. *)
Definition skippedReport (reportSkipped : bool)
    (range : list (string * list path))
    (skippedFiles : gmap string (list path)) : list printed :=
  if reportSkipped then
    [ReportTitle] ++
    (if bool_decide (size skippedFiles = 0%nat) then [NoFilesSkipped]
     else range ≫= reportSection) ++
    [ReportRule]
  else [].

Definition printed_path (l : printed) : option path :=
  match l with PathLine p => Some p | _ => None end.

Lemma printed_path_section (kv : string * list path) :
  omap printed_path (reportSection kv) = kv.2.
Proof.
  unfold reportSection. cbn [omap list_omap printed_path].
  induction (kv.2) as [|q ps IH]; [reflexivity|].
  cbn [fmap list_fmap omap list_omap printed_path]. f_equal. exact IH.
Qed.

Lemma printed_path_sections (range : list (string * list path)) :
  omap printed_path (range ≫= reportSection) = range ≫= snd.
Proof.
  induction range as [|kv range IH]; [reflexivity|].
  rewrite !bind_cons, omap_app, printed_path_section, IH. reflexivity.
Qed.

Lemma path_lines_skip (ps : list path) (rest pre post : list printed)
    (reason : string) :
  (PathLine <$> ps) ++ rest = pre ++ ReasonLine reason :: post ->
  exists pre', rest = pre' ++ ReasonLine reason :: post.
Proof.
  revert pre. induction ps as [|q ps IH]; intros pre Heq.
  - now exists pre.
  - destruct pre as [|x pre]; [discriminate Heq|].
    injection Heq as _ Heq. now apply (IH pre).
Qed.

Lemma sections_split (range : list (string * list path)) (tail : list printed) :
  Forall (fun kv => kv.2 <> []) range ->
  (forall reason, ReasonLine reason ∉ tail) ->
  forall pre reason post,
    (range ≫= reportSection) ++ tail = pre ++ ReasonLine reason :: post ->
    (exists paths, (reason, paths) ∈ range) /\
    exists q post', post = PathLine q :: post'.
Proof.
  intros Hne Htail. induction Hne as [|[r0 ps0] range Hps0 _ IH];
    intros pre reason post Heq.
  - exfalso. apply (Htail reason). cbn in Heq. rewrite Heq.
    apply elem_of_app. right. left.
  - rewrite bind_cons in Heq. unfold reportSection at 1 in Heq.
    cbn [fst snd] in Heq, Hps0.
    destruct ps0 as [|q0 ps0]; [congruence|].
    destruct pre as [|x pre].
    + injection Heq as <- <-. split; [exists (q0 :: ps0); left|].
      cbn [fmap list_fmap app]. eauto.
    + cbn [app] in Heq. injection Heq as _ Heq.
      rewrite <- app_assoc in Heq.
      apply (path_lines_skip (q0 :: ps0) _ pre post reason) in Heq
        as [pre' Heq].
      destruct (IH pre' reason post Heq) as [[paths Hin] Hpost].
      split; [exists paths; now right | exact Hpost].
Qed.

(** X19: the report of a run on a tree with distinct names in every
    directory, all of whose directories enumerate: whatever the order of
    the [range] over the ledger, no path is printed twice, and every reason
    printed is one of the four and is followed by the line of a path. *)
Theorem report_lists_each_path_once `{Writer W} (config : ProjectConfig)
    (env : Env) (w : W) (range : list (string * list path)) :
  distinct_names (tree env) = true ->
  enumerable (tree env) = true ->
  range ≡ₚ map_to_list (skippedFiles (snd (bundle config env w))) ->
  NoDup (omap printed_path
           (skippedReport true range (skippedFiles (snd (bundle config env w))))) /\
  forall pre reason post,
    skippedReport true range (skippedFiles (snd (bundle config env w))) =
      pre ++ ReasonLine reason :: post ->
    reason ∈ [ "Ignored Directory"; "Ignored Extension/File";
               "Detected Binary Content"; "File Read Error" ] /\
    exists q post', post = PathLine q :: post'.
Proof.
  intros Hwf Hen Hperm.
  set (m := skippedFiles (snd (bundle config env w))) in *.
  assert (Hlook : forall r ps, (r, ps) ∈ range -> m !! r = Some ps).
  { intros r ps Hin. rewrite Hperm in Hin. now apply elem_of_map_to_list. }
  unfold skippedReport. case_bool_decide as Hsize; split.
  - cbn. constructor.
  - intros pre reason post Heq. exfalso.
    assert (Hin : ReasonLine reason ∈ [ReportTitle] ++ [NoFilesSkipped] ++ [ReportRule]).
    { rewrite Heq. apply elem_of_app. right. left. }
    cbn in Hin. repeat (apply elem_of_cons in Hin as [Hin | Hin];
                        [discriminate Hin|]). inversion Hin.
  - rewrite !omap_app, printed_path_sections. cbn [omap list_omap printed_path app].
    rewrite app_nil_r. apply NoDup_bind.
    + intros [r1 ps1] [r2 ps2] q H1 H2 Hq1 Hq2. cbn [snd] in Hq1, Hq2.
      apply Hlook in H1, H2.
      assert (r2 = r1) as ->
        by exact (ledger_lists_disjoint config env w r1 r2 ps1 ps2 q
                    Hwf Hen H1 H2 Hq1 Hq2).
      congruence.
    + intros [r ps] Hin. cbn [snd].
      exact (ledger_list_NoDup config env w r ps Hwf Hen (Hlook r ps Hin)).
    + rewrite Hperm. apply NoDup_map_to_list.
  - intros pre reason post Heq.
    destruct pre as [|x pre]; [discriminate Heq|].
    cbn [app] in Heq. injection Heq as _ Heq.
    destruct (sections_split range [ReportRule]) with (3 := Heq)
      as [[paths Hin] Hpost].
    + rewrite Forall_forall. intros [r ps] Hin. cbn [snd].
      exact (proj1 (bundle_ledger_justified config env w r ps (Hlook r ps Hin))).
    + intros r Hr. apply list_elem_of_singleton in Hr. discriminate Hr.
    + split; [|exact Hpost].
      exact (ledger_reason config env w reason paths (Hlook _ _ Hin)).
Qed.

(** The ledger of a run on [mixedTree], in one of the orders a [range] may
    yield it. *)
Definition mixedRange : list (string * list path) :=
  [ ("Ignored Directory", [ [".git"] ]);
    ("Detected Binary Content", [ ["logo.ico"] ]);
    ("Ignored Extension/File", [ ["debug.log"] ]) ].

Lemma report_lists_each_path_once_witness :
  NoDup (omap printed_path
           (skippedReport true mixedRange
              (skippedFiles (snd (bundle genericPreset (quietEnv mixedTree)
                                    (mkMem [])))))) /\
  forall pre reason post,
    skippedReport true mixedRange
      (skippedFiles (snd (bundle genericPreset (quietEnv mixedTree) (mkMem [])))) =
      pre ++ ReasonLine reason :: post ->
    reason ∈ [ "Ignored Directory"; "Ignored Extension/File";
               "Detected Binary Content"; "File Read Error" ] /\
    exists q post', post = PathLine q :: post'.
Proof.
  apply (report_lists_each_path_once genericPreset (quietEnv mixedTree)
           (mkMem []) mixedRange).
  - reflexivity.
  - reflexivity.
  - vm_compute. symmetry.
    apply (Permutation_cons_append
             [ ("Ignored Directory", [ [".git"] ]);
               ("Detected Binary Content", [ ["logo.ico"] ]) ]
             ("Ignored Extension/File", [ ["debug.log"] ])).
Defined.

Example mixedTree_report :
  skippedReport true mixedRange
    (skippedFiles (snd (bundle genericPreset (quietEnv mixedTree) (mkMem [])))) =
  [ ReportTitle;
    ReasonLine "Ignored Directory"; PathLine [".git"];
    ReasonLine "Detected Binary Content"; PathLine ["logo.ico"];
    ReasonLine "Ignored Extension/File"; PathLine ["debug.log"];
    ReportRule ].
Proof. vm_compute. reflexivity. Qed.

Example clean_tree_report :
  skippedReport true []
    (skippedFiles (snd (bundle genericPreset (quietEnv manyTree) (mkMem [])))) =
  [ ReportTitle; NoFilesSkipped; ReportRule ].
Proof. vm_compute. reflexivity. Qed.

(** ** Directories and files in the ledger *)

Section Kinds.
Context {W : Type} `{Writer W}.
Variable config : ProjectConfig.
Variable env : Env.

(** What is listed under "Ignored Directory" is a directory, and what is
    listed under another reason is a file. *)
Definition kinds_separated (st : state W) : Prop :=
  forall reason paths q,
    skippedFiles st !! reason = Some paths -> q ∈ paths ->
    exists n, node_at (readDirView (tree env)) q n /\
              (node_is_dir n = true <-> reason = "Ignored Directory").

Lemma bundle_kinds_separated (w : W) :
  kinds_separated (snd (bundle config env w)).
Proof.
  apply bundle_invariant.
  - intros p n err st res st' Hat Hk Hst Hfn.
    apply walkFn_cases_eq in Hfn.
    assert (Hadd : forall reason (st0 : state W),
               skippedFiles st0 = skippedFiles st ->
               (node_is_dir n = true <-> reason = "Ignored Directory") ->
               kinds_separated (addSkip reason p st0)).
    { intros reason st0 Hst0 Hkind reason' paths q Hl Hq.
      apply addSkip_lookup in Hl as [[-> ->] | [Hne Hl]].
      - apply elem_of_app in Hq as [Hq | Hq].
        + rewrite Hst0 in Hq.
          destruct (skippedFiles st !! reason) as [old|] eqn:Hold;
            [|inversion Hq].
          exact (Hst reason old q Hold Hq).
        + apply list_elem_of_singleton in Hq as ->. now exists n.
      - rewrite Hst0 in Hl. exact (Hst reason' paths q Hl Hq). }
    inversion Hfn; simplify_eq; cbn [entry_of Name IsDir] in *;
      try exact Hst;
      try (apply Hadd; [reflexivity|]);
      match goal with
      | Hd : node_is_dir n = _ |- _ => rewrite Hd
      end; split; intros Hx; try reflexivity; discriminate Hx.
  - intros reason paths q Hl. cbn in Hl. rewrite lookup_empty in Hl.
    discriminate Hl.
Qed.
End Kinds.

Lemma node_is_dir_view (n : node) : node_is_dir (readDirView n) = node_is_dir n.
Proof. destruct n; reflexivity. Qed.

(** X20: the ignore lists do not cross: a path listed under "Ignored
    Directory" is a directory of the tree, and a path listed under any other
    reason is a file; so a file whose name is in [ignoreDirs] is not skipped
    for it, nor a directory whose name or extension is in [ignoreExts]. *)
Theorem ledger_separates_kinds `{Writer W} (config : ProjectConfig) (env : Env)
    (w : W) (reason : string) (paths : list path) (q : path) :
  skippedFiles (snd (bundle config env w)) !! reason = Some paths ->
  q ∈ paths ->
  exists n, node_at (tree env) q n /\
            (node_is_dir n = true <-> reason = "Ignored Directory").
Proof.
  intros Hl Hq.
  destruct (bundle_kinds_separated config env w reason paths q Hl Hq)
    as (n' & Hat & Hkind).
  destruct (node_at_view_inv _ _ _ Hat (tree env) eq_refl) as (n & Hn & ->).
  exists n. split; [exact Hn|]. now rewrite <- node_is_dir_view.
Qed.

(** A file named [vendor] and a directory named [plugins.so]. *)
Definition crossedTree : node :=
  Dir "." [ File "vendor" (text "github.com/x/y v1.0.0");
            Dir "plugins.so" [ File "main.go" (text "package main") ] None;
            Dir "build" [ File "out.go" (text "package out") ] None ] None.

Lemma ledger_separates_kinds_witness :
  exists n, node_at (tree (quietEnv crossedTree)) ["build"] n /\
            (node_is_dir n = true <-> "Ignored Directory" = "Ignored Directory").
Proof.
  apply (ledger_separates_kinds goPreset (quietEnv crossedTree) (mkMem [])
           "Ignored Directory" [ ["build"] ] ["build"]).
  - vm_compute. reflexivity.
  - left.
Defined.

Example crossed_names_are_bundled :
  recorded (trace (snd (bundle goPreset (quietEnv crossedTree) (mkMem [])))) =
  [ ["plugins.so"; "main.go"]; ["vendor"] ] /\
  map_to_list (skippedFiles (snd (bundle goPreset (quietEnv crossedTree)
                                    (mkMem [])))) =
  [ ("Ignored Directory", [ ["build"] ]) ].
Proof. vm_compute. split; reflexivity. Qed.

(** ** The preset tables *)

(** A property of every preset of the table holds of a preset looked up
    in it. *)
Lemma preset_cases (P : ProjectConfig -> Prop) :
  Forall (fun name => from_option P True (projectConfigs !! name))
         [ "generic"; "android"; "go"; "rust"; "ios" ] ->
  forall projectType config,
    projectConfigs !! projectType = Some config -> P config.
Proof.
  intros Hall projectType config Hl.
  rewrite Forall_forall in Hall.
  assert (Hin : projectType ∈ [ "generic"; "android"; "go"; "rust"; "ios" ]).
  { revert Hl. unfold projectConfigs. cbn [list_to_map foldr fst snd].
    intros Hl.
    repeat (apply lookup_insert_Some in Hl as [[<- _] | [_ Hl]];
            [repeat constructor|]).
    rewrite lookup_empty in Hl. discriminate Hl. }
  specialize (Hall projectType Hin). now rewrite Hl in Hall.
Qed.

Lemma filename_cases (P : string -> string -> Prop) :
  Forall (fun kv => P kv.1 kv.2)
         [ ("Dockerfile", "dockerfile"); ("Makefile", "makefile");
           ("go.mod", "go-mod"); ("go.sum", "text"); ("LICENSE", "text");
           ("README", "markdown") ] ->
  forall name tag, filenameLangMap !! name = Some tag -> P name tag.
Proof.
  intros Hall name tag. unfold filenameLangMap.
  cbn [list_to_map foldr fst snd]. intros Hl.
  rewrite Forall_forall in Hall.
  repeat (apply lookup_insert_Some in Hl as [[<- <-] | [_ Hl]];
          [apply (Hall (_, _)); repeat constructor|]).
  rewrite lookup_empty in Hl. discriminate Hl.
Qed.

Lemma base_cases (P : string -> string -> Prop) :
  Forall (fun kv => P kv.1 kv.2)
         [ (".md", "markdown"); (".sh", "shell"); (".json", "json");
           (".yml", "yaml"); (".yaml", "yaml"); (".toml", "toml");
           (".txt", "text"); (".gitignore", "text"); (".proto", "protobuf") ] ->
  forall ext tag, baseLangMap !! ext = Some tag -> P ext tag.
Proof.
  intros Hall ext tag. unfold baseLangMap.
  cbn [list_to_map foldr fst snd]. intros Hl.
  rewrite Forall_forall in Hall.
  repeat (apply lookup_insert_Some in Hl as [[<- <-] | [_ Hl]];
          [apply (Hall (_, _)); repeat constructor|]).
  rewrite lookup_empty in Hl. discriminate Hl.
Qed.

(** X21: under every preset of the table every well-known file name gets
    its tag: a file of that name is not skipped for its name or extension,
    and no extension entry of the merged language map shadows the entry of
    [filenameLangMap]. *)
Theorem filename_tags_in_force (projectType : string) (config : ProjectConfig)
    (name tag : string) :
  projectConfigs !! projectType = Some config ->
  filenameLangMap !! name = Some tag ->
  ignoredName (runExts config) name = false /\
  resolveLanguage (runLangs config) (Ext name) name = tag.
Proof.
  intros Hcfg Hname.
  pattern name, tag. eapply filename_cases; [|exact Hname].
  pattern config. eapply preset_cases; [|exact Hcfg].
  repeat apply List.Forall_cons; try apply List.Forall_nil;
    vm_compute; split; reflexivity.
Qed.

Lemma filename_tags_in_force_witness :
  ignoredName (runExts goPreset) "go.mod" = false /\
  resolveLanguage (runLangs goPreset) (Ext "go.mod") "go.mod" = "go-mod".
Proof.
  apply (filename_tags_in_force "go" goPreset "go.mod" "go-mod").
  - vm_compute. reflexivity.
  - vm_compute. reflexivity.
Defined.

(** X22: no preset of the table overrides or ignores an extension of
    [baseLangMap]: under every preset the merged language map gives every
    base extension its base tag, and the extension is not in the preset's
    [IgnoreExts]. *)
Theorem base_tags_in_force (projectType : string) (config : ProjectConfig)
    (ext tag : string) :
  projectConfigs !! projectType = Some config ->
  baseLangMap !! ext = Some tag ->
  runLangs config !! ext = Some tag /\
  set_Contains (runExts config) ext = false.
Proof.
  intros Hcfg Hext.
  pattern ext, tag. eapply base_cases; [|exact Hext].
  pattern config. eapply preset_cases; [|exact Hcfg].
  repeat apply List.Forall_cons; try apply List.Forall_nil;
    vm_compute; split; reflexivity.
Qed.

Lemma base_tags_in_force_witness :
  runLangs goPreset !! ".md" = Some "markdown" /\
  set_Contains (runExts goPreset) ".md" = false.
Proof.
  apply (base_tags_in_force "go" goPreset ".md" "markdown").
  - vm_compute. reflexivity.
  - vm_compute. reflexivity.
Defined.
